(** * Narrava: the transcript combiner

    A shallow embedding of [script.js]: the SRT parser and text normaliser,
    the taggers, the merge engine (sort, windowed de-duplication, adjacent
    speaker consolidation), the renderer, the identifier extraction, the
    batch handler and the store-only ZIP writer.

    JavaScript strings are sequences of UTF-16 code units; they are modelled
    as [list Z].  Every regular expression of the source is embedded as a
    matcher that reports the length of the match starting at the current
    position, and the global [replace] as one scanning function shared by
    all of them. *)

From Stdlib Require Import ZArith Lia DecimalString.
From stdpp Require Import base list strings gmap sorting.

Local Open Scope Z_scope.

(** ** Strings and character classes *)

Abbreviation jsstring := (list Z).

(** An ASCII literal as a JavaScript string. *)
Definition js (s : string) : jsstring :=
  map (fun a => Z.of_N (Ascii.N_of_ascii a)) (String.list_ascii_of_string s).

Definition jseqb (a b : jsstring) : bool := bool_decide (a = b).

(** [\d] *)
Definition isDigit (c : Z) : bool := (48 <=? c) && (c <=? 57).

(** LineTerminator: LF, CR, LS, PS. *)
Definition isLineTerminator (c : Z) : bool :=
  (c =? 10) || (c =? 13) || (c =? 8232) || (c =? 8233).

(** [\s], which is also the set removed by [trim]: WhiteSpace and
    LineTerminator. *)
Definition isSpace (c : Z) : bool :=
  ((9 <=? c) && (c <=? 13)) || (c =? 32) || (c =? 160) || (c =? 5760)
  || ((8192 <=? c) && (c <=? 8202)) || (c =? 8232) || (c =? 8233)
  || (c =? 8239) || (c =? 8287) || (c =? 12288) || (c =? 65279).

(** [[\t\f\v]] *)
Definition isTabLike (c : Z) : bool := (c =? 9) || (c =? 12) || (c =? 11).

Definition isUpperAZ (c : Z) : bool := (65 <=? c) && (c <=? 90).
Definition isLowerAZ (c : Z) : bool := (97 <=? c) && (c <=? 122).
Definition isLetter (c : Z) : bool := isUpperAZ c || isLowerAZ c.

(** Case folding of one code unit under the [i] flag (no [u] flag): only
    the ASCII letters fold onto each other, since a code unit above 127
    never canonicalises to one below 128. *)
Definition foldCase (c : Z) : Z := if isLowerAZ c then c - 32 else c.

(** [toLowerCase] on the ASCII range. *)
Definition asciiLower (c : Z) : Z := if isUpperAZ c then c + 32 else c.

Fixpoint trimStart (s : jsstring) : jsstring :=
  match s with
  | c :: r => if isSpace c then trimStart r else s
  | [] => []
  end.

Fixpoint trimEnd (s : jsstring) : jsstring :=
  match s with
  | c :: r =>
      match trimEnd r with
      | [] => if isSpace c then [] else [c]
      | r' => c :: r'
      end
  | [] => []
  end.

(** [String.prototype.trim] *)
Definition trim (s : jsstring) : jsstring := trimEnd (trimStart s).

(** [s.split("\n")] *)
Fixpoint splitNewline (s : jsstring) : list jsstring :=
  match s with
  | [] => [[]]
  | c :: r =>
      if c =? 10 then [] :: splitNewline r
      else match splitNewline r with
           | h :: t => (c :: h) :: t
           | [] => [[c]]
           end
  end.

(** [s.split(/\n+/)]: a run of line feeds is one separator. *)
Fixpoint splitNewlineRuns (s : jsstring) : list jsstring :=
  match s with
  | [] => [[]]
  | c :: r =>
      if c =? 10 then
        match r with
        | d :: _ => if d =? 10 then splitNewlineRuns r else [] :: splitNewlineRuns r
        | [] => [] :: splitNewlineRuns r
        end
      else match splitNewlineRuns r with
           | h :: t => (c :: h) :: t
           | [] => [[c]]
           end
  end.

(** [xs.join(sep)] *)
Fixpoint join (sep : jsstring) (xs : list jsstring) : jsstring :=
  match xs with
  | [] => []
  | [x] => x
  | x :: rest => x ++ sep ++ join sep rest
  end.

(** [filter(Boolean)] on strings keeps the non-empty ones. *)
Definition nonEmpty (s : jsstring) : bool :=
  match s with [] => false | _ => true end.

Definition filterBoolean (xs : list jsstring) : list jsstring :=
  List.filter nonEmpty xs.

(** ** Global replace

    [s.replace(/re/g, repl)]: the scan tries a match at the current
    position; on a match of length [n] the replacement is emitted and the
    scan resumes [n] code units further, otherwise the code unit is copied
    and the scan moves on by one.  A matcher receives the rest of the
    input, so an assertion that looks ahead ([$]) is decided inside it.
    None of the expressions of the source matches the empty string; an
    empty match is treated as the language does (replacement emitted, one
    code unit copied). *)

Definition matcher := jsstring -> option nat.

Fixpoint replaceAllFrom (fuel : nat) (m : matcher) (repl s : jsstring)
  : jsstring :=
  match fuel with
  | O => s
  | S fuel' =>
      match s with
      | [] => []
      | c :: r =>
          match m s with
          | Some (S n) => repl ++ replaceAllFrom fuel' m repl (drop n r)
          | Some O => repl ++ c :: replaceAllFrom fuel' m repl r
          | None => c :: replaceAllFrom fuel' m repl r
          end
      end
  end.

Definition replaceAll (m : matcher) (repl s : jsstring) : jsstring :=
  replaceAllFrom (length s) m repl s.

(** Index of the first occurrence of [x]. *)
Fixpoint indexOf (x : Z) (s : jsstring) : option nat :=
  match s with
  | [] => None
  | c :: r => if c =? x then Some O else option_map S (indexOf x r)
  end.

(** [/<[^>]+>/] *)
Definition matchTag : matcher := fun s =>
  match s with
  | c :: r =>
      if c =? 60 then
        match indexOf 62 r with
        | Some (S i) => Some (S (S (S i)))
        | _ => None
        end
      else None
  | [] => None
  end.

(** [/\{[^}]*\}/] *)
Definition matchBraces : matcher := fun s =>
  match s with
  | c :: r =>
      if c =? 123 then
        match indexOf 125 r with
        | Some i => Some (S (S i))
        | None => None
        end
      else None
  | [] => None
  end.

(** [/\u200B/] *)
Definition matchZeroWidth : matcher := fun s =>
  match s with
  | c :: _ => if c =? 8203 then Some 1%nat else None
  | [] => None
  end.

(** [$] under the [m] flag: end of input, or a line terminator next. *)
Definition atLineEnd (s : jsstring) : bool :=
  match s with
  | [] => true
  | c :: _ => isLineTerminator c
  end.

(** [/\s+$/m]: the longest run of white space from here that stops at a
    line end (greedy [\s+], backtracking one code unit at a time). *)
Fixpoint matchTrailingSpace (s : jsstring) : option nat :=
  match s with
  | c :: r =>
      if isSpace c then
        match matchTrailingSpace r with
        | Some k => Some (S k)
        | None => if atLineEnd r then Some 1%nat else None
        end
      else None
  | [] => None
  end.

(** Length of the longest prefix whose code units satisfy [p]. *)
Fixpoint runLength (p : Z -> bool) (s : jsstring) : nat :=
  match s with
  | c :: r => if p c then S (runLength p r) else O
  | [] => O
  end.

(** [/[\t\f\v]+/] *)
Definition matchTabs : matcher := fun s =>
  match runLength isTabLike s with
  | O => None
  | n => Some n
  end.

(** [/\n{2,}/] *)
Definition matchNewlines : matcher := fun s =>
  match runLength (Z.eqb 10) s with
  | S (S n) => Some (S (S n))
  | _ => None
  end.

(** ** cleanSrtText *)

Definition stripTags (s : jsstring) : jsstring := replaceAll matchTag [] s.
Definition stripBraces (s : jsstring) : jsstring := replaceAll matchBraces [] s.
Definition stripZeroWidth (s : jsstring) : jsstring :=
  replaceAll matchZeroWidth [] s.
Definition stripTrailingSpace (s : jsstring) : jsstring :=
  replaceAll matchTrailingSpace [] s.
Definition collapseTabs (s : jsstring) : jsstring :=
  replaceAll matchTabs [32] s.
Definition collapseNewlines (s : jsstring) : jsstring :=
  replaceAll matchNewlines [10] s.

Definition cleanSrtText (s : jsstring) : jsstring :=
  let out := s in
  let out := stripTags out in
  let out := stripBraces out in
  let out := stripZeroWidth out in
  let out := stripTrailingSpace out in
  let out := collapseTabs out in
  let out := collapseNewlines out in
  trim out.

(** ** parseSrtToBlocks *)

(** What running a piece of the program gives: a value, an exception, or
    a loop cut off by the step bound of the model. *)
Inductive outcome (A : Type) : Type :=
  | Returned (a : A)
  | Thrown
  | OutOfFuel.
Arguments Returned {A} a.
Arguments Thrown {A}.
Arguments OutOfFuel {A}.

#[global] Instance outcome_ret : MRet outcome := fun A a => Returned a.

#[global] Instance outcome_bind : MBind outcome := fun A B k o =>
  match o with
  | Returned a => k a
  | Thrown => Thrown
  | OutOfFuel => OutOfFuel
  end.

Record Block := mkBlock { blockStartMs : Z; blockText : jsstring }.

(** [/\r\n/] and [/\r/] *)
Definition matchCRLF : matcher := fun s =>
  match s with
  | c :: d :: _ => if (c =? 13) && (d =? 10) then Some 2%nat else None
  | _ => None
  end.

Definition matchCR : matcher := fun s =>
  match s with
  | c :: _ => if c =? 13 then Some 1%nat else None
  | [] => None
  end.

Definition normalizeLineEndings (s : jsstring) : jsstring :=
  replaceAll matchCR [10] (replaceAll matchCRLF [10] s).

(** [/^\d+$/.test(l)] *)
Definition isIndexLine (l : jsstring) : bool :=
  nonEmpty l && forallb isDigit l.

(** [\d{n}] as a capture group: the digits and what follows them. *)
Fixpoint digitsN (n : nat) (s : jsstring) : option (jsstring * jsstring) :=
  match n with
  | O => Some ([], s)
  | S n' =>
      match s with
      | c :: r =>
          if isDigit c then
            match digitsN n' r with
            | Some (ds, rest) => Some (c :: ds, rest)
            | None => None
            end
          else None
      | [] => None
      end
  end.

(** One literal code unit. *)
Definition lit (x : Z) (s : jsstring) : option jsstring :=
  match s with
  | c :: r => if c =? x then Some r else None
  | [] => None
  end.

(** [\s*] before something that is not white space: the whole run. *)
Definition skipSpace (s : jsstring) : jsstring := trimStart s.

(** [HH:MM:SS,mmm] with its four groups. *)
Definition timecode (s : jsstring)
  : option ((jsstring * jsstring * jsstring * jsstring) * jsstring) :=
  hr ← digitsN 2 s;
  r ← lit 58 hr.2;
  mr ← digitsN 2 r;
  r ← lit 58 mr.2;
  sr ← digitsN 2 r;
  r ← lit 44 sr.2;
  msr ← digitsN 3 r;
  Some ((hr.1, mr.1, sr.1, msr.1), msr.2).

(** The time code expression tried at the start of [s]; groups 1 to 4. *)
Definition matchTimecodeAt (s : jsstring)
  : option (jsstring * jsstring * jsstring * jsstring) :=
  t1 ← timecode s;
  r ← lit 45 (skipSpace t1.2);
  r ← lit 45 r;
  r ← lit 62 r;
  t2 ← timecode (skipSpace r);
  Some t1.1.

(** [timecodeRegex.exec(s)]: the leftmost match. *)
Fixpoint execTimecode (s : jsstring)
  : option (jsstring * jsstring * jsstring * jsstring) :=
  match matchTimecodeAt s with
  | Some g => Some g
  | None =>
      match s with
      | _ :: r => execTimecode r
      | [] => None
      end
  end.

(** [parseInt(ds, 10)] on a string of digits. *)
Definition parseInt (ds : jsstring) : Z :=
  fold_left (fun acc c => acc * 10 + (c - 48)) ds 0.

Definition hhmmssToMs (h m s ms : jsstring) : Z :=
  let hh := parseInt h in
  let mm := parseInt m in
  let ss := parseInt s in
  let mss := parseInt ms in
  ((hh * 60 + mm) * 60 + ss) * 1000 + mss.

(** The lines collected as cue text: up to the first blank one. *)
Fixpoint textRun (ls : list jsstring) : list jsstring :=
  match ls with
  | l :: r => if nonEmpty (trim l) then l :: textRun r else []
  | [] => []
  end.

(** The number of blank separator lines skipped. *)
Fixpoint blankRun (ls : list jsstring) : nat :=
  match ls with
  | l :: r => if nonEmpty (trim l) then O else S (blankRun r)
  | [] => O
  end.

(** The [while (i < lines.length)] loop.  [lines[i].trim()] on a missing
    line would be a TypeError, hence [Thrown]; [lines[i] || ""] is the
    lookup with a default. *)
Fixpoint parseLoop (fuel : nat) (lines : list jsstring) (i : nat)
    (blocks : list Block) : outcome (list Block) :=
  match fuel with
  | O => OutOfFuel
  | S fuel' =>
      if (i <? length lines)%nat then
        match lines !! i with
        | None => Thrown
        | Some line =>
            let i := if isIndexLine (trim line) then S i else i in
            match execTimecode (default [] (lines !! i)) with
            | None => parseLoop fuel' lines (S i) blocks
            | Some (h, m, s, ms) =>
                let startMs := hhmmssToMs h m s ms in
                let i := S i in
                let textLines := textRun (drop i lines) in
                let i := (i + length textLines)%nat in
                let i := (i + blankRun (drop i lines))%nat in
                let text := cleanSrtText (join [10] textLines) in
                parseLoop fuel' lines i
                  (if nonEmpty (trim text)
                   then blocks ++ [mkBlock startMs text]
                   else blocks)
            end
        end
      else Returned blocks
  end.

Definition srtLines (srtString : jsstring) : list jsstring :=
  splitNewline (normalizeLineEndings srtString).

Definition parseSrtToBlocks (srtString : jsstring) : outcome (list Block) :=
  let lines := srtLines srtString in
  parseLoop (S (length lines)) lines 0 [].

(** ** Taggers *)

(** The role strings of the source, ["Description"], ["On-screen text"]
    and ["Speaker"]; the taggers produce no other. *)
Inductive Role := Description | OnScreenText | Speaker.

#[global] Instance Role_eq_dec : EqDecision Role.
Proof. solve_decision. Defined.

Definition roleLabel (r : Role) : jsstring :=
  match r with
  | Description => js "Description"
  | OnScreenText => js "On-screen text"
  | Speaker => js "Speaker"
  end.

Record Entry := mkEntry { startMs : Z; role : Role; text : jsstring }.

(** A literal word under the [i] flag. *)
Fixpoint litCI (w s : jsstring) : option jsstring :=
  match w with
  | [] => Some s
  | x :: w' =>
      match s with
      | c :: r => if foldCase c =? foldCase x then litCI w' r else None
      | [] => None
      end
  end.

(** [screen\s*text\s*:\s*] *)
Definition markerTail (s : jsstring) : option jsstring :=
  r ← litCI (js "screen") s;
  r ← litCI (js "text") (skipSpace r);
  r ← lit 58 (skipSpace r);
  Some (skipSpace r).

(** [on[-\s]?screen\s*text\s*:\s*] under the [i] flag; gives what follows
    the match.  The optional separator is tried first with, then without
    the code unit. *)
Definition markerRest (s : jsstring) : option jsstring :=
  r ← litCI (js "on") s;
  match r with
  | c :: r' =>
      if (c =? 45) || isSpace c then
        match markerTail r' with
        | Some rest => Some rest
        | None => markerTail r
        end
      else markerTail r
  | [] => markerTail r
  end.

Definition matchMarker : matcher := fun s =>
  match markerRest s with
  | Some rest => Some (length s - length rest)%nat
  | None => None
  end.

(** [onScreenRegex], anchored: [^\s*] and then the marker. *)
Definition onScreenRest (s : jsstring) : option jsstring :=
  markerRest (skipSpace s).

Definition cueLines (t : jsstring) : list jsstring :=
  filterBoolean (map trim (splitNewlineRuns t)).

Definition tagDescriptiveBlock (b : Block) : Entry :=
  let lines := cueLines (blockText b) in
  let first := default [] (head lines) in
  match onScreenRest first with
  | Some rest =>
      let lines := trim rest :: tail lines in
      mkEntry (blockStartMs b) OnScreenText (join [32] lines)
  | None => mkEntry (blockStartMs b) Description (join [32] lines)
  end.

Definition tagDescriptiveBlocks (blocks : list Block) : list Entry :=
  map tagDescriptiveBlock blocks.

Definition joinLinesPreservingSentence (s : jsstring) : jsstring :=
  join [32] (cueLines s).

Definition tagSpokenBlocks (blocks : list Block) : list Entry :=
  map (fun b => mkEntry (blockStartMs b) Speaker
                  (joinLinesPreservingSentence (blockText b))) blocks.

(** ** Merge engine *)

(** [/[^a-z0-9]+/] *)
Definition isKeyChar (c : Z) : bool := isLowerAZ c || isDigit c.

Definition matchNonKey : matcher := fun s =>
  match runLength (fun c => negb (isKeyChar c)) s with
  | O => None
  | n => Some n
  end.

(** [/\s+/] *)
Definition matchSpaces : matcher := fun s =>
  match runLength isSpace s with
  | O => None
  | n => Some n
  end.

(** [toLowerCase] restricted to what it does on ASCII text; the concrete
    scenarios below use it.  The merge engine itself is stated for every
    lower-casing function. *)
Definition asciiToLowerCase (s : jsstring) : jsstring := map asciiLower s.

Definition momentOrderValue (r : Role) : Z :=
  match r with
  | Description => 0
  | OnScreenText => 1
  | Speaker => 2
  end.

(** The comparator of the sort in [combineTranscripts]. *)
Definition compareEntries (a b : Entry) : Z :=
  if bool_decide (startMs a ≠ startMs b) then startMs a - startMs b
  else momentOrderValue (role a) - momentOrderValue (role b).

(** [Array.prototype.sort] is stable: insertion keeps an element before
    the ones it does not compare greater than. *)
Fixpoint insertSorted (cmp : Entry -> Entry -> Z) (x : Entry)
    (l : list Entry) : list Entry :=
  match l with
  | [] => [x]
  | y :: l' =>
      if cmp x y <=? 0 then x :: l else y :: insertSorted cmp x l'
  end.

Definition sortEntries (cmp : Entry -> Entry -> Z) (l : list Entry)
  : list Entry :=
  foldr (insertSorted cmp) [] l.

(** The merged text of two adjacent speaker entries. *)
Definition mergedText (a b : jsstring) : jsstring :=
  trim (replaceAll matchSpaces [32] (a ++ [32] ++ b)).

Definition mergeStep (merged : list Entry) (item : Entry) : list Entry :=
  match last merged with
  | Some l =>
      if bool_decide (role l = Speaker) && bool_decide (role item = Speaker)
      then <[pred (length merged) :=
               mkEntry (startMs l) (role l) (mergedText (text l) (text item))]>
             merged
      else merged ++ [item]
  | None => merged ++ [item]
  end.

Definition mergeAdjacentSpeakers (items : list Entry) : list Entry :=
  fold_left mergeStep items [].

Definition renderEntry (item : Entry) : jsstring :=
  roleLabel (role item) ++ js ": " ++ text item.

Section MergeEngine.

(** [String.prototype.toLowerCase], whose Unicode case tables belong to
    the platform. *)
Variable toLowerCase : jsstring -> jsstring.

Definition normalizeForCompare (s : jsstring) : jsstring :=
  trim (replaceAll matchNonKey []
          (replaceAll matchMarker [] (toLowerCase s))).

(** The backward scan of the accumulator, [j] running from [k - 1] down
    to [0]: the index of the first element with the candidate's key, or
    nothing when the scan runs out or breaks on the time gap. *)
Fixpoint scanBack (windowMs : Z) (result : list Entry) (current : Entry)
    (norm : jsstring) (k : nat) : option nat :=
  match k with
  | O => None
  | S j =>
      match result !! j with
      | None => None
      | Some prev =>
          if startMs current - startMs prev >? windowMs then None
          else if jseqb (normalizeForCompare (text prev)) norm then Some j
          else scanBack windowMs result current norm j
      end
  end.

(** One turn of the outer loop of [dedupeNearDuplicates]. *)
Definition dedupeStep (windowMs : Z) (result : list Entry)
    (current : Entry) : list Entry :=
  let norm := normalizeForCompare (text current) in
  match scanBack windowMs result current norm (length result) with
  | Some j =>
      match result !! j with
      | Some prev =>
          if bool_decide (role prev ≠ Speaker)
             && bool_decide (role current = Speaker)
          then <[j := current]> result
          else result
      | None => result
      end
  | None => result ++ [current]
  end.

Definition dedupeNearDuplicates (items : list Entry) (windowMs : Z)
  : list Entry :=
  fold_left (dedupeStep windowMs) items [].

Definition mergeEntries (spoken desc : list Entry) : list Entry :=
  let combined := sortEntries compareEntries (spoken ++ desc) in
  let deduped := dedupeNearDuplicates combined 750 in
  mergeAdjacentSpeakers deduped.

Definition combineTranscripts (spokenSrt descriptiveSrt : jsstring)
  : outcome jsstring :=
  sb ← parseSrtToBlocks spokenSrt;
  db ← parseSrtToBlocks descriptiveSrt;
  let spoken := tagSpokenBlocks sb in
  let desc := tagDescriptiveBlocks db in
  let mergedSpeakers := mergeEntries spoken desc in
  let paragraphs := map renderEntry mergedSpeakers in
  mret (join [10; 10] paragraphs).

End MergeEngine.

(** ** Identifier extraction *)

(** [/YTP26-(\d{3})([a-zA-Z])?/i] tried at the start of [s]: the digits
    and the optional letter. *)
Definition matchYtpAt (s : jsstring) : option (jsstring * option Z) :=
  r ← litCI (js "YTP26-") s;
  dr ← digitsN 3 r;
  Some (dr.1, match dr.2 with
              | c :: _ => if isLetter c then Some c else None
              | [] => None
              end).

(** [s.match(re)]: the leftmost match. *)
Fixpoint searchYtp (s : jsstring) : option (jsstring * option Z) :=
  match matchYtpAt s with
  | Some g => Some g
  | None =>
      match s with
      | _ :: r => searchYtp r
      | [] => None
      end
  end.

(** [null] is [None]. *)
Definition extractYtpId (s : jsstring) : option jsstring :=
  if nonEmpty s then
    match searchYtp s with
    | None => None
    | Some (digits, l) =>
        let letter := match l with
                      | Some c => [asciiLower c]
                      | None => []
                      end in
        Some (js "YTP26-" ++ digits ++ letter)
    end
  else None.

(** ** ZIP writer *)

Definition toUint32 (x : Z) : Z := x mod 2 ^ 32.
Definition toInt32 (x : Z) : Z := (x + 2 ^ 31) mod 2 ^ 32 - 2 ^ 31.

(** [(c & 1) ? (0xEDB88320 ^ (c >>> 1)) : (c >>> 1)] on 32-bit integers. *)
Definition crcBit (c : Z) : Z :=
  if Z.land c 1 =? 0 then Z.shiftr (toUint32 c) 1
  else toInt32 (Z.lxor 3988292384 (Z.shiftr (toUint32 c) 1)).

Definition crcByte (c b : Z) : Z :=
  Nat.iter 8 crcBit (toInt32 (Z.lxor c b)).

Definition crc32 (buf : list Z) : Z :=
  toUint32 (Z.lnot (fold_left crcByte buf (-1))).

(** [new TextEncoder().encode(s)]: UTF-8, a lone surrogate encoded as
    U+FFFD. *)
Definition isHighSurrogate (c : Z) : bool := (55296 <=? c) && (c <=? 56319).
Definition isLowSurrogate (c : Z) : bool := (56320 <=? c) && (c <=? 57343).

Definition utf8Three (c : Z) : list Z :=
  [Z.lor 224 (Z.shiftr c 12);
   Z.lor 128 (Z.land (Z.shiftr c 6) 63);
   Z.lor 128 (Z.land c 63)].

Definition utf8Four (cp : Z) : list Z :=
  [Z.lor 240 (Z.shiftr cp 18);
   Z.lor 128 (Z.land (Z.shiftr cp 12) 63);
   Z.lor 128 (Z.land (Z.shiftr cp 6) 63);
   Z.lor 128 (Z.land cp 63)].

Fixpoint utf8Encode (s : jsstring) : list Z :=
  match s with
  | [] => []
  | c :: r =>
      if c <? 128 then c :: utf8Encode r
      else if c <? 2048 then
        Z.lor 192 (Z.shiftr c 6) :: Z.lor 128 (Z.land c 63) :: utf8Encode r
      else if isHighSurrogate c then
        match r with
        | d :: r' =>
            if isLowSurrogate d then
              utf8Four (65536 + Z.shiftl (c - 55296) 10 + (d - 56320))
                ++ utf8Encode r'
            else utf8Three 65533 ++ utf8Encode r
        | [] => utf8Three 65533
        end
      else if isLowSurrogate c then utf8Three 65533 ++ utf8Encode r
      else utf8Three c ++ utf8Encode r
  end.

(** What the writer reads off a [Date]. *)
Record Date := mkDate {
  getHours : Z; getMinutes : Z; getSeconds : Z;
  getFullYear : Z; getMonth : Z; getDate : Z
}.

Definition _dosTime (d : Date) : Z :=
  Z.lor (Z.lor (Z.shiftl (getHours d) 11) (Z.shiftl (getMinutes d) 5))
        (Z.land (Z.quot (getSeconds d) 2) 31).

Definition _dosDate (d : Date) : Z :=
  Z.lor (Z.lor (Z.shiftl (Z.land (getFullYear d - 1980) 127) 9)
               (Z.shiftl (getMonth d + 1) 5))
        (getDate d).

(** A [DataView] over a fresh buffer is a list of bytes, all zero; the
    setters store little-endian and reduce the value to the width of the
    field.  Every write of the source lies inside its buffer. *)
Definition newDataView (n : nat) : list Z := replicate n 0.

Definition byteOf (v : Z) (k : Z) : Z := (v / 256 ^ k) mod 256.

Definition setUint16 (buf : list Z) (p : nat) (v : Z) : list Z :=
  let v := v mod 2 ^ 16 in
  <[S p := byteOf v 1]> (<[p := byteOf v 0]> buf).

Definition setUint32 (buf : list Z) (p : nat) (v : Z) : list Z :=
  let v := toUint32 v in
  <[S (S (S p)) := byteOf v 3]>
    (<[S (S p) := byteOf v 2]>
       (<[S p := byteOf v 1]> (<[p := byteOf v 0]> buf))).

(** The reading of a little-endian field, for the statements about the
    finished archive. *)
Definition getUint32 (buf : list Z) (p : nat) : Z :=
  default 0 (buf !! p)
  + 256 * default 0 (buf !! S p)
  + 65536 * default 0 (buf !! S (S p))
  + 16777216 * default 0 (buf !! S (S (S p))).

(** A view with its cursor [p]: [view.setUintN(p, v, true); p += N/8]. *)
Definition putUint16 (v : Z) (st : list Z * nat) : list Z * nat :=
  let '(buf, p) := st in (setUint16 buf p v, (p + 2)%nat).

Definition putUint32 (v : Z) (st : list Z * nat) : list Z * nat :=
  let '(buf, p) := st in (setUint32 buf p v, (p + 4)%nat).

Notation "st |>> f" := (f st) (at level 45, left associativity, only parsing).

Definition localFileHeader (modTime modDate crc size nameLen : Z) : list Z :=
  ((newDataView 30, 0%nat)
     |>> putUint32 67324752
     |>> putUint16 20
     |>> putUint16 0
     |>> putUint16 0
     |>> putUint16 modTime
     |>> putUint16 modDate
     |>> putUint32 crc
     |>> putUint32 size
     |>> putUint32 size
     |>> putUint16 nameLen
     |>> putUint16 0).1.

Definition centralHeader (modTime modDate crc size nameLen
    localHeaderOffset : Z) : list Z :=
  ((newDataView 46, 0%nat)
     |>> putUint32 33639248
     |>> putUint16 20
     |>> putUint16 20
     |>> putUint16 0
     |>> putUint16 0
     |>> putUint16 modTime
     |>> putUint16 modDate
     |>> putUint32 crc
     |>> putUint32 size
     |>> putUint32 size
     |>> putUint16 nameLen
     |>> putUint16 0
     |>> putUint16 0
     |>> putUint16 0
     |>> putUint16 0
     |>> putUint32 0
     |>> putUint32 localHeaderOffset).1.

Definition endRecord (count centralSize centralStart : Z) : list Z :=
  ((newDataView 22, 0%nat)
     |>> putUint32 101010256
     |>> putUint16 0
     |>> putUint16 0
     |>> putUint16 count
     |>> putUint16 count
     |>> putUint32 centralSize
     |>> putUint32 centralStart
     |>> putUint16 0).1.

(** The writer's state.  (The field [files] of the source is never
    used.) *)
Record ZipWriter := mkZipWriter {
  centralDirectory : list (list Z * list Z);
  offset : Z;
  chunks : list (list Z)
}.

Definition newZipWriter : ZipWriter := mkZipWriter [] 0 [].

Definition _push (w : ZipWriter) (u8 : list Z) : ZipWriter :=
  mkZipWriter (centralDirectory w) (offset w) (chunks w ++ [u8]).

(** [addFile(name, data)]; [now] holds the two readings of the clock. *)
Definition addFile (w : ZipWriter) (name : jsstring) (data : list Z)
    (now : Date * Date) : ZipWriter :=
  let nameBytes := utf8Encode name in
  let crc := crc32 data in
  let size := Z.of_nat (length data) in
  let modTime := _dosTime now.1 in
  let modDate := _dosDate now.2 in
  let localHeader :=
    localFileHeader modTime modDate crc size (Z.of_nat (length nameBytes)) in
  let w := _push w localHeader in
  let w := _push w nameBytes in
  let w := _push w data in
  let localHeaderOffset := offset w in
  let newOffset :=
    offset w + Z.of_nat (length localHeader)
    + Z.of_nat (length nameBytes) + size in
  let central :=
    centralHeader modTime modDate crc size (Z.of_nat (length nameBytes))
      localHeaderOffset in
  mkZipWriter (centralDirectory w ++ [(central, nameBytes)]) newOffset
    (chunks w).

(** The first loop of [toUint8Array]. *)
Definition pushCentral (w : ZipWriter) (entry : list Z * list Z)
  : ZipWriter :=
  let w := _push w entry.1 in
  let w := _push w entry.2 in
  mkZipWriter (centralDirectory w)
    (offset w + Z.of_nat (length entry.1) + Z.of_nat (length entry.2))
    (chunks w).

(** The writer once [toUint8Array] has pushed the central directory and
    the end record. *)
Definition sealed (w : ZipWriter) : ZipWriter :=
  let centralStart := offset w in
  let w := fold_left pushCentral (centralDirectory w) w in
  let centralSize := offset w - centralStart in
  let count := Z.of_nat (length (centralDirectory w)) in
  _push w (endRecord count centralSize centralStart).

Definition toUint8Array (w : ZipWriter) : list Z :=
  concat (chunks (sealed w)).

Record OutputFile := mkOutputFile { name : jsstring; content : jsstring }.

(** The loop of [buildZip]; [clock k] gives the two clock readings taken
    while file [k] is added. *)
Fixpoint addFiles (w : ZipWriter) (clock : nat -> Date * Date) (k : nat)
    (files : list OutputFile) : ZipWriter :=
  match files with
  | [] => w
  | f :: rest =>
      let data := utf8Encode (content f) in
      addFiles (addFile w (name f) data (clock k)) clock (S k) rest
  end.

Definition buildZip (clock : nat -> Date * Date) (files : list OutputFile)
  : list Z :=
  toUint8Array (addFiles newZipWriter clock O files).

(** ** The combine handler (batch version) *)

Record UploadedFile := mkUploadedFile {
  fileName : jsstring;
  fileText : jsstring
}.

Record IdEntry := mkIdEntry {
  entryId : option jsstring;
  entryFile : UploadedFile;
  entryContent : jsstring
}.

(** [extractYtpId(f.name) || extractYtpId(content)] *)
Definition identify (f : UploadedFile) : IdEntry :=
  let id := match extractYtpId (fileName f) with
            | Some id => Some id
            | None => extractYtpId (fileText f)
            end in
  mkIdEntry id f (fileText f).

(** The [Map] from identifier to the descriptive entries that carry it,
    in upload order. *)
Definition indexDescriptive (descEntries : list IdEntry)
  : gmap (list Z) (list IdEntry) :=
  fold_left
    (fun idToDesc d =>
       match entryId d with
       | None => idToDesc
       | Some id => <[id := default [] (idToDesc !! id) ++ [d]]> idToDesc
       end)
    descEntries ∅.

(** [String(n)] for a length. *)
Definition decimal (n : nat) : jsstring :=
  js (NilEmpty.string_of_uint (Nat.to_uint n)).

Inductive Blob :=
  | TextBlob (text : jsstring)
  | ZipBlob (bytes : list Z).

(** The page elements the handler writes. *)
Record Page := mkPage {
  statusText : jsstring;
  downloadBtnDisabled : bool;
  downloadBtnText : jsstring;
  downloadHref : option Blob;
  downloadName : jsstring
}.

Section Orchestrator.

Variable toLowerCase : jsstring -> jsstring.
Variable clock : nat -> Date * Date.

(** The inner [for (const m of matches)] loop. *)
Fixpoint combineWith (id : jsstring) (spokenContent : jsstring)
    (matches : list IdEntry) : outcome (list OutputFile) :=
  match matches with
  | [] => mret []
  | m :: rest =>
      result ← combineTranscripts toLowerCase spokenContent (entryContent m);
      more ← combineWith id spokenContent rest;
      mret (mkOutputFile (id ++ js "_Descriptive_Transcript.txt") result
              :: more)
  end.

(** The loop over the spoken entries, filling [outputs]. *)
Fixpoint collectOutputs (idToDesc : gmap (list Z) (list IdEntry))
    (spokenEntries : list IdEntry) : outcome (list OutputFile) :=
  match spokenEntries with
  | [] => mret []
  | s :: rest =>
      here ← match entryId s with
             | None => mret []
             | Some id =>
                 combineWith id (entryContent s)
                   (default [] (idToDesc !! id))
             end;
      more ← collectOutputs idToDesc rest;
      mret (here ++ more)
  end.

Definition batchOutputs (spokenFiles descFiles : list UploadedFile)
  : outcome (list OutputFile) :=
  let spokenEntries := map identify spokenFiles in
  let descEntries := map identify descFiles in
  collectOutputs (indexDescriptive descEntries) spokenEntries.

(** The click handler of [combineBtn]: the page it leaves. *)
Definition combineClick (page : Page)
    (spokenFiles descFiles : list UploadedFile) : Page :=
  let page := mkPage (js "Combining...") (downloadBtnDisabled page)
                (downloadBtnText page) (downloadHref page)
                (downloadName page) in
  match batchOutputs spokenFiles descFiles with
  | Returned [] =>
      mkPage (js "No matching pairs by YTP ID.") true
        (downloadBtnText page) None (downloadName page)
  | Returned [out] =>
      mkPage (js "Ready: 1 file") false
        (js "Download " ++ name out)
        (Some (TextBlob (content out))) (name out)
  | Returned outputs =>
      let n := decimal (length outputs) in
      mkPage (js "Ready: " ++ n ++ js " files") false
        (js "Download " ++ n ++ js " files (ZIP)")
        (Some (ZipBlob (buildZip clock outputs)))
        (js "Narrava_Combined_" ++ n ++ js "_files.zip")
  | _ =>
      mkPage (js "Failed to combine.") (downloadBtnDisabled page)
        (downloadBtnText page) (downloadHref page) (downloadName page)
  end.

End Orchestrator.

(** ** Orderings used in the statements *)

(** Earlier start first; at equal start, the role order Description,
    On-screen text, Speaker. *)
Definition entryLe (a b : Entry) : Prop :=
  startMs a < startMs b
  \/ (startMs a = startMs b
      /\ momentOrderValue (role a) <= momentOrderValue (role b)).

Definition startLe (a b : Entry) : Prop := startMs a <= startMs b.

(** Every element stands in [R] to every later element of the list. *)
Definition orderedBy (R : Entry -> Entry -> Prop) (l : list Entry) : Prop :=
  forall (i j : nat) (a b : Entry),
    l !! i = Some a -> l !! j = Some b -> (i < j)%nat -> R a b.

(** The order that the de-duplicated output keeps: never more than the
    window out of start order, and in full order after an entry that is not
    a Speaker entry. *)
Definition orderUpToWindow (a b : Entry) : Prop :=
  startMs a <= startMs b + 750
  /\ (role a ≠ Speaker -> entryLe a b).

(** Same start and role; the texts may differ. *)
Definition sameMeta (a b : Entry) : Prop :=
  startMs a = startMs b /\ role a = role b.

(** An accumulator position against the entry first appended there: still
    that entry, or a Speaker entry that replaced it from at most the
    window later. *)
Definition slotRel (windowMs : Z) (o a : Entry) : Prop :=
  a = o
  \/ (role a = Speaker
      /\ startMs o <= startMs a /\ startMs a <= startMs o + windowMs).

(** ** Predicates on normalised text *)

(** The matcher [m] succeeds nowhere in [s]. *)
Fixpoint noMatch (m : matcher) (s : jsstring) : Prop :=
  match s with
  | [] => True
  | _ :: r => m s = None /\ noMatch m r
  end.

(** No white space stands right before a line end. *)
Fixpoint noTrailing (s : jsstring) : Prop :=
  match s with
  | [] => True
  | c :: r => (isSpace c = true -> atLineEnd r = false) /\ noTrailing r
  end.

(** ** The identifier pattern, stated on the text *)

(** [s] starts with "YTP26-" in any letter case followed by the three
    digits [ds]; [rest] is what follows them. *)
Definition ytpMatchAt (s ds rest : jsstring) : Prop :=
  exists p : jsstring,
    s = p ++ ds ++ rest
    /\ length p = 6%nat
    /\ map foldCase p = js "YTP26-"
    /\ length ds = 3%nat
    /\ Forall (fun c => isDigit c = true) ds.

(** The pattern occurs [k] code units into [s]. *)
Definition ytpOccursAt (k : nat) (s : jsstring) : Prop :=
  exists ds rest, ytpMatchAt (drop k s) ds rest.

(** The optional letter after the digits, lower-cased. *)
Definition optionalLetter (rest : jsstring) : jsstring :=
  match rest with
  | c :: _ => if isLetter c then [asciiLower c] else []
  | [] => []
  end.

(** "YTP26-", three digits, and at most one lower-case letter. *)
Definition canonicalId (id : jsstring) : Prop :=
  exists ds tl : jsstring,
    id = js "YTP26-" ++ ds ++ tl
    /\ length ds = 3%nat
    /\ Forall (fun c => isDigit c = true) ds
    /\ (tl = [] \/ exists c, tl = [c] /\ isLowerAZ c = true).

(** ** Positions in the finished archive *)

(** The byte position at which chunk [k] begins once the chunks are
    concatenated. *)
Definition chunkStart (cs : list (list Z)) (k : nat) : nat :=
  length (concat (take k cs)).

(** The writer after [buildZip] has added the files. *)
Definition zipWriterOf (clock : nat -> Date * Date)
    (files : list OutputFile) : ZipWriter :=
  addFiles newZipWriter clock O files.

(** The chunks that the central directory contributes. *)
Definition centralChunks (entries : list (list Z * list Z))
  : list (list Z) :=
  flat_map (fun e => [e.1; e.2]) entries.

(** What the writer holds once [files] have been added: three chunks per
    file, the running offset equal to the bytes pushed, and for file [i] a
    central record whose last field is the start of chunk [3 * i]. *)
Definition writerInv (files : list OutputFile) (w : ZipWriter) : Prop :=
  length (centralDirectory w) = length files
  /\ length (chunks w) = (3 * length files)%nat
  /\ offset w = Z.of_nat (length (concat (chunks w)))
  /\ forall (i : nat) (f : OutputFile),
       files !! i = Some f ->
       (exists lh, chunks w !! (3 * i)%nat = Some lh
                   /\ length lh = 30%nat
                   /\ getUint32 lh 0 = 67324752)
       /\ chunks w !! (3 * i + 1)%nat = Some (utf8Encode (name f))
       /\ chunks w !! (3 * i + 2)%nat = Some (utf8Encode (content f))
       /\ exists cd,
            centralDirectory w !! i = Some (cd, utf8Encode (name f))
            /\ length cd = 46%nat
            /\ getUint32 cd 0 = 33639248
            /\ getUint32 cd 42
               = toUint32 (Z.of_nat (chunkStart (chunks w) (3 * i))).

(** ** Notions used in the further statements *)

(** The entries with start [t] and role [r]. *)
Definition sameSlot (t : Z) (r : Role) (e : Entry) : bool :=
  bool_decide (startMs e = t /\ role e = r).

(** An entry [o] that stands for the input entry [e] after the
    de-duplication: same key, start within the window of [e]'s, and a
    Speaker entry is stood for by a Speaker entry. *)
Definition standsFor (toLowerCase : jsstring -> jsstring) (w : Z)
    (e o : Entry) : Prop :=
  normalizeForCompare toLowerCase (text o)
  = normalizeForCompare toLowerCase (text e)
  /\ - w <= startMs o - startMs e <= w
  /\ (role e = Speaker -> role o = Speaker).

(** [e] is stood for in the accumulator, by a Speaker entry or by one
    that does not start later. *)
Definition represented (toLowerCase : jsstring -> jsstring) (w : Z)
    (acc : list Entry) (e : Entry) : Prop :=
  exists o, o ∈ acc /\ standsFor toLowerCase w e o
            /\ (role o = Speaker \/ startMs o <= startMs e).

(** Each entry starts more than [w] after the one before. *)
Fixpoint gapsOver (w : Z) (items : list Entry) : Prop :=
  match items with
  | a :: ((b :: _) as rest) => startMs b - startMs a > w /\ gapsOver w rest
  | _ => True
  end.

(** The role test of [mergeAdjacentSpeakers]. *)
Definition isSpeaker (e : Entry) : bool := bool_decide (role e = Speaker).

(** No Speaker entry directly follows a Speaker entry. *)
Definition noAdjacentSpeakers (l : list Entry) : Prop :=
  forall (i : nat) (a b : Entry),
    l !! i = Some a -> l !! S i = Some b ->
    isSpeaker a && isSpeaker b = false.

(** A text without line feed. *)
Definition noLineFeed (s : jsstring) : Prop := Forall (fun c => c ≠ 10) s.

(** Paragraphs as lines, with one empty line between two of them; no
    paragraph at all reads as one empty line. *)
Fixpoint blankSeparated (ps : list jsstring) : list jsstring :=
  match ps with
  | [] => [[]]
  | [p] => [p]
  | p :: rest => p :: [] :: blankSeparated rest
  end.

(** What every block of the parser satisfies. *)
Definition wellFormedBlock (b : Block) : Prop :=
  blockText b ≠ []
  /\ trim (blockText b) = blockText b
  /\ cleanSrtText (blockText b) = blockText b
  /\ 0 <= blockStartMs b <= 362439999.

(** ** The download name and the single-pair handler *)

Definition buildOutputFilename (spokenFilename spokenContent : jsstring)
  : jsstring :=
  let id := match extractYtpId spokenFilename with
            | Some id => Some id
            | None => extractYtpId spokenContent
            end in
  match id with
  | Some id => id ++ js "_Descriptive_Transcript.txt"
  | None => js "combined_transcript.txt"
  end.

(** The combine handler of the single-pair version of the page. *)
Module SinglePair.

Record Page := mkPage {
  outputValue : jsstring;
  statusText : jsstring;
  downloadHref : option Blob;
  downloadName : jsstring;
  downloadBtnText : jsstring;
  downloadBtnDisabled : bool;
  copyBtnDisabled : bool
}.

(** The click handler of [combineBtn].  A missing [files[0]] makes
    [files[0].text()] a TypeError, caught like any other failure. *)
Definition combineClick (toLowerCase : jsstring -> jsstring) (page : Page)
    (spokenFile descFile : option UploadedFile) : Page :=
  let failed :=
    mkPage (outputValue page) (js "Failed to combine.") (downloadHref page)
      (downloadName page) (downloadBtnText page) (downloadBtnDisabled page)
      (copyBtnDisabled page) in
  match spokenFile, descFile with
  | Some sf, Some df =>
      match combineTranscripts toLowerCase (fileText sf) (fileText df) with
      | Returned result =>
          let suggestedName :=
            buildOutputFilename (fileName sf) (fileText sf) in
          mkPage result
            (js "Done (" ++ decimal (length (utf8Encode result))
             ++ js " bytes)")
            (Some (TextBlob result)) suggestedName
            (js "Download " ++ suggestedName)
            (negb (nonEmpty result)) (negb (nonEmpty result))
      | _ => failed
      end
  | _, _ => failed
  end.

End SinglePair.

(** ** Pairs of the batch *)

Definition hasId (id : jsstring) (d : IdEntry) : bool :=
  bool_decide (entryId d = Some id).

(** The pairs of a spoken and a descriptive entry with the same
    identifier: spoken entries in upload order, and for each the
    descriptive entries in upload order. *)
Definition matchingPairs (spokenEntries descEntries : list IdEntry)
  : list (jsstring * IdEntry * IdEntry) :=
  flat_map (fun s =>
              match entryId s with
              | Some id =>
                  map (fun d => (id, s, d)) (List.filter (hasId id) descEntries)
              | None => []
              end) spokenEntries.

(** An output of the batch against the pair it was made from. *)
Definition pairOutput (toLowerCase : jsstring -> jsstring)
    (out : OutputFile) (p : jsstring * IdEntry * IdEntry) : Prop :=
  let '(id, s, d) := p in
  name out = id ++ js "_Descriptive_Transcript.txt"
  /\ combineTranscripts toLowerCase (entryContent s) (entryContent d)
     = Returned (content out)
  /\ extractYtpId (name out) = Some id.

(** ** Reading an archive *)

(** The reading of a little-endian 16-bit field. *)
Definition getUint16 (buf : list Z) (p : nat) : Z :=
  default 0 (buf !! p) + 256 * default 0 (buf !! S p).

(** The local header that [addFile] writes for [f]. *)
Definition localHeaderOf (now : Date * Date) (f : OutputFile) : list Z :=
  localFileHeader (_dosTime now.1) (_dosDate now.2)
    (crc32 (utf8Encode (content f)))
    (Z.of_nat (length (utf8Encode (content f))))
    (Z.of_nat (length (utf8Encode (name f)))).

(** The local entries of [files], the first one added at clock reading
    [k]. *)
Fixpoint localEntries (clock : nat -> Date * Date) (k : nat)
    (files : list OutputFile) : list Z :=
  match files with
  | [] => []
  | f :: rest =>
      localHeaderOf (clock k) f ++ utf8Encode (name f)
      ++ utf8Encode (content f) ++ localEntries clock (S k) rest
  end.

(** A reader of one local entry at the head of a byte stream, after the
    ZIP format: signature, method 0 (stored), the lengths of name and
    extra field, the size, the CRC-32 of the data.  It gives the name,
    the data and the rest of the stream. *)
Definition readLocalEntry (s : list Z)
  : option (list Z * list Z * list Z) :=
  if (getUint32 s 0 =? 67324752) && (getUint16 s 8 =? 0) then
    let nameLen := Z.to_nat (getUint16 s 26) in
    let extraLen := Z.to_nat (getUint16 s 28) in
    let size := Z.to_nat (getUint32 s 18) in
    let nameBytes := take nameLen (drop 30 s) in
    let data := take size (drop (30 + nameLen + extraLen) s) in
    if getUint32 s 14 =? crc32 data
    then Some (nameBytes, data, drop (30 + nameLen + extraLen + size) s)
    else None
  else None.

Fixpoint readLocalEntries (fuel : nat) (s : list Z)
  : list (list Z * list Z) :=
  match fuel with
  | O => []
  | S fuel' =>
      match readLocalEntry s with
      | Some (nameBytes, data, rest) =>
          (nameBytes, data) :: readLocalEntries fuel' rest
      | None => []
      end
  end.

(** The central directory that the writer holds after [files], the first
    one added at clock reading [k] with the running offset [off]. *)
Fixpoint centralEntries (clock : nat -> Date * Date) (k : nat) (off : Z)
    (files : list OutputFile) : list (list Z * list Z) :=
  match files with
  | [] => []
  | f :: rest =>
      let nameBytes := utf8Encode (name f) in
      let data := utf8Encode (content f) in
      (centralHeader (_dosTime (clock k).1) (_dosDate (clock k).2)
         (crc32 data) (Z.of_nat (length data))
         (Z.of_nat (length nameBytes)) off, nameBytes)
      :: centralEntries clock (S k)
           (off + 30 + Z.of_nat (length nameBytes) + Z.of_nat (length data))
           rest
  end.

(** A reader of one central directory record at the head of a byte
    stream: the name, the offset of the local header, and the rest of the
    stream. *)
Definition readCentralEntry (s : list Z) : option (list Z * nat * list Z) :=
  if getUint32 s 0 =? 33639248 then
    let nameLen := Z.to_nat (getUint16 s 28) in
    let extraLen := Z.to_nat (getUint16 s 30) in
    let commentLen := Z.to_nat (getUint16 s 32) in
    Some (take nameLen (drop 46 s), Z.to_nat (getUint32 s 42),
          drop (46 + nameLen + extraLen + commentLen) s)
  else None.

Fixpoint readCentralEntries (n : nat) (s : list Z)
  : option (list (list Z * nat)) :=
  match n with
  | O => Some []
  | S n' =>
      match readCentralEntry s with
      | Some (nameBytes, off, rest) =>
          match readCentralEntries n' rest with
          | Some es => Some ((nameBytes, off) :: es)
          | None => None
          end
      | None => None
      end
  end.

(** The member that a central record points to: the local entry at its
    offset, which must carry the same name. *)
Definition readMember (buf : list Z) (e : list Z * nat)
  : option (list Z * list Z) :=
  match readLocalEntry (drop e.2 buf) with
  | Some (nameBytes, data, _) =>
      if bool_decide (nameBytes = e.1) then Some (nameBytes, data) else None
  | None => None
  end.

Fixpoint readMembers (buf : list Z) (es : list (list Z * nat))
  : option (list (list Z * list Z)) :=
  match es with
  | [] => Some []
  | e :: rest =>
      match readMember buf e with
      | Some m =>
          match readMembers buf rest with
          | Some ms => Some (m :: ms)
          | None => None
          end
      | None => None
      end
  end.

(** A reader of the whole archive, the way an unpacker goes about it:
    the end record in the last 22 bytes, from it the number of entries and
    the start of the central directory, from each central record the
    local entry. *)
Definition readArchive (buf : list Z) : option (list (list Z * list Z)) :=
  let e := drop (length buf - 22) buf in
  if getUint32 e 0 =? 101010256 then
    match readCentralEntries (Z.to_nat (getUint16 e 10))
            (drop (Z.to_nat (getUint32 e 16)) buf) with
    | Some es => readMembers buf es
    | None => None
    end
  else None.

(** The bytes that one file adds to the archive: a local header of 30
    bytes and a central record of 46, the name twice, the data once. *)
Definition storedSize (f : OutputFile) : Z :=
  76 + 2 * Z.of_nat (length (utf8Encode (name f)))
  + Z.of_nat (length (utf8Encode (content f))).

(** ** Forms of the on-screen marker *)

(** White space inside a line. *)
Definition isBlank (c : Z) : Prop := isSpace c = true /\ c ≠ 10.

(** The forms of the marker: "on", at most one hyphen or blank,
    "screen", blanks, "text", blanks, a colon, blanks; the words in any
    letter case. *)
Definition markerForm (m : jsstring) : Prop :=
  exists p1 sep p2 ws1 p3 ws2 ws3 : jsstring,
    m = p1 ++ sep ++ p2 ++ ws1 ++ p3 ++ ws2 ++ [58] ++ ws3
    /\ map foldCase p1 = js "ON"
    /\ (sep = [] \/ exists c, sep = [c] /\ (c = 45 \/ isBlank c))
    /\ map foldCase p2 = js "SCREEN"
    /\ Forall isBlank ws1
    /\ map foldCase p3 = js "TEXT"
    /\ Forall isBlank ws2
    /\ Forall isBlank ws3.


(** ** Well-formed SRT text *)

(** A time code as its four digit groups. *)
Record TimeCode := mkTimeCode {
  tcHours : jsstring;
  tcMinutes : jsstring;
  tcSeconds : jsstring;
  tcMillis : jsstring
}.

Definition renderTimeCode (tc : TimeCode) : jsstring :=
  tcHours tc ++ [58] ++ tcMinutes tc ++ [58] ++ tcSeconds tc ++ [44]
  ++ tcMillis tc.

Definition digitGroup (n : nat) (ds : jsstring) : Prop :=
  length ds = n /\ Forall (fun c => isDigit c = true) ds.

Definition wellFormedTimeCode (tc : TimeCode) : Prop :=
  digitGroup 2 (tcHours tc) /\ digitGroup 2 (tcMinutes tc)
  /\ digitGroup 2 (tcSeconds tc) /\ digitGroup 3 (tcMillis tc).

(** A cue: its index line, its two time codes and its text lines. *)
Record Cue := mkCue {
  cueIndex : jsstring;
  cueStart : TimeCode;
  cueEnd : TimeCode;
  cueText : list jsstring
}.

(** The lines of a cue in the file, the empty separator line included. *)
Definition cueFileLines (c : Cue) : list jsstring :=
  [cueIndex c;
   renderTimeCode (cueStart c) ++ js " --> " ++ renderTimeCode (cueEnd c)]
  ++ cueText c ++ [[]].

(** The file: every line ended by a line feed. *)
Definition renderSrt (cues : list Cue) : jsstring :=
  join [10] (concat (map cueFileLines cues) ++ [[]]).

(** A text line: no line break inside, and not blank. *)
Definition textLine (l : jsstring) : Prop :=
  Forall (fun c => c ≠ 10 /\ c ≠ 13) l /\ trim l ≠ [].

Definition wellFormedCue (c : Cue) : Prop :=
  cueIndex c ≠ []
  /\ Forall (fun d => isDigit d = true) (cueIndex c)
  /\ wellFormedTimeCode (cueStart c)
  /\ wellFormedTimeCode (cueEnd c)
  /\ Forall textLine (cueText c).

(** The block that the parser makes of a cue, if any. *)
Definition cueBlock (c : Cue) : option Block :=
  let t := cleanSrtText (join [10] (cueText c)) in
  if nonEmpty (trim t)
  then Some (mkBlock (hhmmssToMs (tcHours (cueStart c))
                        (tcMinutes (cueStart c)) (tcSeconds (cueStart c))
                        (tcMillis (cueStart c))) t)
  else None.

(** ** Scenarios *)

Definition srtCue (index timecodes body : string) : jsstring :=
  js index ++ [10] ++ js timecodes ++ [10] ++ js body ++ [10].

(** The end-to-end scenario: one spoken cue at 00:00:01,000 and one
    descriptive cue at 00:00:01,500. *)
Definition scenarioSpokenSrt : jsstring :=
  srtCue "1" "00:00:01,000 --> 00:00:02,000" "Hi there".

Definition scenarioDescSrt : jsstring :=
  srtCue "1" "00:00:01,500 --> 00:00:02,500" "On-screen text: WELCOME".

(** A Speaker line that repeats a description heard 700 ms earlier, with
    another description in between, and a later repetition. *)
Definition upgradeDescription : Entry := mkEntry 0 Description (js "x").
Definition upgradeBetween : Entry := mkEntry 100 Description (js "y").
Definition upgradeSpeaker : Entry := mkEntry 700 Speaker (js "x").
Definition upgradeLate : Entry := mkEntry 900 Description (js "x").

Definition upgradeSpokenSrt : jsstring :=
  srtCue "1" "00:00:00,700 --> 00:00:01,000" "x".

Definition upgradeDescSrt : jsstring :=
  srtCue "1" "00:00:00,000 --> 00:00:00,050" "x" ++ [10]
  ++ srtCue "2" "00:00:00,100 --> 00:00:00,150" "y".

(** A batch of two pairs. *)
Definition batchSpoken : list UploadedFile :=
  [mkUploadedFile (js "YTP26-001.srt") scenarioSpokenSrt;
   mkUploadedFile (js "ytp26-002B.srt") scenarioSpokenSrt].

Definition batchDesc : list UploadedFile :=
  [mkUploadedFile (js "YTP26-001_desc.srt") scenarioDescSrt;
   mkUploadedFile (js "YTP26-002b_desc.srt") scenarioDescSrt].

(** Ten output files of 500 000 000 ASCII characters each. *)
Definition bigBody : jsstring := replicate (Z.to_nat 500000000) 97.

Definition bigFiles : list OutputFile :=
  replicate 10 (mkOutputFile (js "a.txt") bigBody).

(** A batch of two small output files. *)
Definition smallFiles : list OutputFile :=
  [mkOutputFile (js "a.txt") (js "hello"); mkOutputFile (js "b.txt") (js "yo")].

Definition noon : Date := mkDate 12 0 0 2024 0 1.

Definition blankPage : Page :=
  mkPage [] true (js "Download") None (js "combined_transcript.txt").

(** * Properties *)

(** ** The text normaliser *)

(** More steps than code units change nothing. *)
Lemma replaceAllFrom_enough (m : matcher) (repl : jsstring) (f1 : nat) :
  forall (f2 : nat) (s : jsstring),
    (length s <= f1)%nat -> (length s <= f2)%nat ->
    replaceAllFrom f1 m repl s = replaceAllFrom f2 m repl s.
Proof.
  induction f1 as [|f1 IH]; intros f2 s H1 H2.
  - destruct s; [by destruct f2|simpl in H1; lia].
  - destruct s as [|c r]; [by destruct f2|].
    simpl in H1, H2. destruct f2 as [|f2]; [lia|]. simpl.
    destruct (m (c :: r)) as [[|n]|].
    + by rewrite (IH f2) by lia.
    + by rewrite (IH f2) by (rewrite length_drop; lia).
    + by rewrite (IH f2) by lia.
Qed.

Lemma replaceAllFrom_fuel (m : matcher) (repl : jsstring) (fuel : nat)
    (s : jsstring) :
  (length s <= fuel)%nat ->
  replaceAllFrom fuel m repl s = replaceAllFrom (length s) m repl s.
Proof. intros Hs. by apply replaceAllFrom_enough. Qed.

(** The scan, one position at a time. *)
Lemma replaceAll_nil (m : matcher) (repl : jsstring) :
  replaceAll m repl [] = [].
Proof. reflexivity. Qed.

Lemma replaceAll_cons (m : matcher) (repl : jsstring) (c : Z) (r : jsstring) :
  replaceAll m repl (c :: r)
  = match m (c :: r) with
    | Some (S n) => repl ++ replaceAll m repl (drop n r)
    | Some O => repl ++ c :: replaceAll m repl r
    | None => c :: replaceAll m repl r
    end.
Proof.
  unfold replaceAll. simpl.
  destruct (m (c :: r)) as [[|n]|]; try done.
  by rewrite replaceAllFrom_fuel by (rewrite length_drop; lia).
Qed.

(** Induction along the scan. *)
Lemma replaceAll_ind (m : matcher) (repl : jsstring)
    (P : jsstring -> jsstring -> Prop) :
  P [] [] ->
  (forall c r, m (c :: r) = None ->
     P r (replaceAll m repl r) -> P (c :: r) (c :: replaceAll m repl r)) ->
  (forall c r, m (c :: r) = Some O ->
     P r (replaceAll m repl r) ->
     P (c :: r) (repl ++ c :: replaceAll m repl r)) ->
  (forall c r n, m (c :: r) = Some (S n) ->
     P (drop n r) (replaceAll m repl (drop n r)) ->
     P (c :: r) (repl ++ replaceAll m repl (drop n r))) ->
  forall s, P s (replaceAll m repl s).
Proof.
  intros Hnil Hnone Hzero Hsome s.
  remember (length s) as k eqn:Hk. revert s Hk.
  induction k as [k IH] using lt_wf_ind. intros s Hk.
  destruct s as [|c r]; [done|]. simpl in Hk.
  rewrite replaceAll_cons.
  destruct (m (c :: r)) as [[|n]|] eqn:Hm.
  - apply Hzero; [done|]. apply (IH (length r)); [lia|done].
  - apply Hsome; [done|].
    apply (IH (length (drop n r))); [rewrite length_drop; lia|done].
  - apply Hnone; [done|]. apply (IH (length r)); [lia|done].
Qed.

Lemma noMatch_drop (m : matcher) (s : jsstring) (k : nat) :
  noMatch m s -> noMatch m (drop k s).
Proof.
  revert s. induction k as [|k IH]; intros s Hs; [by rewrite drop_0|].
  destruct s as [|c r]; [done|]. simpl. apply IH. by destruct Hs.
Qed.

(** Where nothing matches, nothing is replaced. *)
Lemma replaceAll_noMatch (m : matcher) (repl s : jsstring) :
  noMatch m s -> replaceAll m repl s = s.
Proof.
  induction s as [|c r IH]; intros Hs; [done|].
  destruct Hs as [Hm Hr]. rewrite replaceAll_cons, Hm. by rewrite IH.
Qed.

(** A code unit that is not in the input nor in the replacement is not in
    the output. *)
Lemma replaceAll_not_elem_of (m : matcher) (repl : jsstring) (x : Z) :
  x ∉ repl -> forall s, x ∉ s -> x ∉ replaceAll m repl s.
Proof.
  intros Hrepl s.
  apply (replaceAll_ind m repl (fun s out => x ∉ s -> x ∉ out)).
  - done.
  - intros c r _ IH Hx. apply not_elem_of_cons in Hx as [? ?].
    apply not_elem_of_cons. auto.
  - intros c r _ IH Hx. apply not_elem_of_cons in Hx as [? ?].
    apply not_elem_of_app. split; [done|]. apply not_elem_of_cons. auto.
  - intros c r n _ IH Hx. apply not_elem_of_cons in Hx as [? Hr].
    apply not_elem_of_app. split; [done|]. apply IH.
    intros Hd. apply Hr. eapply elem_of_suffix; [exact Hd|apply suffix_drop].
Qed.

Lemma indexOf_None (x : Z) (s : jsstring) : indexOf x s = None <-> x ∉ s.
Proof.
  induction s as [|c r IH]; simpl.
  - split; [intros _; apply not_elem_of_nil|done].
  - destruct (Z.eqb_spec c x) as [->|Hne].
    + split; [done|]. intros H. exfalso. apply H. by left.
    + rewrite not_elem_of_cons. destruct (indexOf x r); simpl.
      * split; [done|]. intros [_ H]. by apply IH in H.
      * split; [|done]. intros _. split; [done|]. by apply IH.
Qed.

Lemma indexOf_zero (x : Z) (s : jsstring) :
  indexOf x s = Some O <-> exists r, s = x :: r.
Proof.
  destruct s as [|c r]; simpl.
  - split; [done|]. by intros [? ?].
  - destruct (Z.eqb_spec c x) as [->|Hne].
    + split; [by exists r|done].
    + split.
      * by destruct (indexOf x r).
      * intros [r' [= -> _]]. done.
Qed.

(** Code units of a replacement that is empty or white space. *)
Lemma space_not_special (d : Z) :
  isSpace d = true ->
  d ≠ 60 /\ d ≠ 62 /\ d ≠ 123 /\ d ≠ 125 /\ d ≠ 8203.
Proof.
  intros H. repeat split; intros ->; vm_compute in H; discriminate.
Qed.

Lemma spaces_not_elem_of (repl : jsstring) (x : Z) :
  Forall (fun d => isSpace d = true) repl -> isSpace x = false -> x ∉ repl.
Proof.
  intros Hrepl Hx Hin. eapply Forall_forall in Hrepl; eauto. congruence.
Qed.

(** *** Tags *)

Lemma matchTag_None (c : Z) (r : jsstring) :
  matchTag (c :: r) = None <-> c ≠ 60 \/ 62 ∉ r \/ exists r', r = 62 :: r'.
Proof.
  simpl. destruct (Z.eqb_spec c 60) as [->|Hne].
  - destruct (indexOf 62 r) as [[|i]|] eqn:Hi.
    + apply indexOf_zero in Hi. split; [auto|done].
    + split; [done|]. intros [?|[Hn|[r' ->]]]; [done| |].
      * apply indexOf_None in Hn. congruence.
      * simpl in Hi. done.
    + apply indexOf_None in Hi. split; [auto|done].
  - split; [auto|done].
Qed.

(** A code unit kept by a scan still starts no tag afterwards. *)
Lemma matchTag_kept (m : matcher) (repl : jsstring) (c : Z) (r : jsstring) :
  (forall t, m (62 :: t) = None) ->
  62 ∉ repl ->
  matchTag (c :: r) = None ->
  matchTag (c :: replaceAll m repl r) = None.
Proof.
  intros Hm Hrepl Hc. apply matchTag_None.
  apply matchTag_None in Hc as [?|[Hn|[r' ->]]]; [by left| |].
  - right. left. by apply replaceAll_not_elem_of.
  - right. right. rewrite replaceAll_cons, Hm. by eexists.
Qed.

Lemma noMatch_tag_app (repl s : jsstring) :
  Forall (fun d => isSpace d = true) repl ->
  noMatch matchTag s -> noMatch matchTag (repl ++ s).
Proof.
  intros Hrepl Hs. induction Hrepl as [|d repl Hd _ IH]; [done|].
  simpl app. split; [|done].
  apply matchTag_None. left. by apply space_not_special.
Qed.

Lemma stripTags_noMatch (s : jsstring) : noMatch matchTag (stripTags s).
Proof.
  unfold stripTags.
  apply (replaceAll_ind matchTag [] (fun _ out => noMatch matchTag out)).
  - done.
  - intros c r Hc IH. split; [|done].
    apply matchTag_kept; [done|apply not_elem_of_nil|done].
  - intros c r Hc _. simpl in Hc.
    destruct (c =? 60); [|done]. by destruct (indexOf 62 r) as [[|i]|].
  - intros c r n _ IH. done.
Qed.

(** A later scan that leaves [>] alone and writes only white space starts
    no tag. *)
Lemma noMatch_tag_preserved (m : matcher) (repl s : jsstring) :
  (forall t, m (62 :: t) = None) ->
  Forall (fun d => isSpace d = true) repl ->
  noMatch matchTag s -> noMatch matchTag (replaceAll m repl s).
Proof.
  intros Hm Hrepl.
  assert (H62 : 62 ∉ repl) by (by apply spaces_not_elem_of).
  apply (replaceAll_ind m repl
           (fun s out => noMatch matchTag s -> noMatch matchTag out)).
  - done.
  - intros c r _ IH [Hc Hr]. split; [|by apply IH].
    by apply matchTag_kept.
  - intros c r _ IH [Hc Hr]. apply noMatch_tag_app; [done|].
    split; [|by apply IH]. by apply matchTag_kept.
  - intros c r n _ IH [Hc Hr]. apply noMatch_tag_app; [done|].
    apply IH. by apply noMatch_drop.
Qed.

(** *** Braces *)

Lemma matchBraces_None (c : Z) (r : jsstring) :
  matchBraces (c :: r) = None <-> c ≠ 123 \/ 125 ∉ r.
Proof.
  simpl. destruct (Z.eqb_spec c 123) as [->|Hne].
  - destruct (indexOf 125 r) as [i|] eqn:Hi.
    + split; [done|]. intros [?|Hn]; [done|].
      apply indexOf_None in Hn. congruence.
    + apply indexOf_None in Hi. split; [auto|done].
  - split; [auto|done].
Qed.

Lemma matchBraces_kept (m : matcher) (repl : jsstring) (c : Z)
    (r : jsstring) :
  125 ∉ repl ->
  matchBraces (c :: r) = None ->
  matchBraces (c :: replaceAll m repl r) = None.
Proof.
  intros Hrepl Hc. apply matchBraces_None.
  apply matchBraces_None in Hc as [?|Hn]; [by left|].
  right. by apply replaceAll_not_elem_of.
Qed.

Lemma noMatch_braces_app (repl s : jsstring) :
  Forall (fun d => isSpace d = true) repl ->
  noMatch matchBraces s -> noMatch matchBraces (repl ++ s).
Proof.
  intros Hrepl Hs. induction Hrepl as [|d repl Hd _ IH]; [done|].
  simpl app. split; [|done].
  apply matchBraces_None. left. by apply space_not_special.
Qed.

Lemma stripBraces_noMatch (s : jsstring) :
  noMatch matchBraces (stripBraces s).
Proof.
  unfold stripBraces.
  apply (replaceAll_ind matchBraces [] (fun _ out => noMatch matchBraces out)).
  - done.
  - intros c r Hc IH. split; [|done].
    apply matchBraces_kept; [apply not_elem_of_nil|done].
  - intros c r Hc _. simpl in Hc.
    destruct (c =? 123); [|done]. by destruct (indexOf 125 r).
  - intros c r n _ IH. done.
Qed.

Lemma noMatch_braces_preserved (m : matcher) (repl s : jsstring) :
  Forall (fun d => isSpace d = true) repl ->
  noMatch matchBraces s -> noMatch matchBraces (replaceAll m repl s).
Proof.
  intros Hrepl.
  assert (H125 : 125 ∉ repl) by (by apply spaces_not_elem_of).
  apply (replaceAll_ind m repl
           (fun s out => noMatch matchBraces s -> noMatch matchBraces out)).
  - done.
  - intros c r _ IH [Hc Hr]. split; [|by apply IH].
    by apply matchBraces_kept.
  - intros c r _ IH [Hc Hr]. apply noMatch_braces_app; [done|].
    split; [|by apply IH]. by apply matchBraces_kept.
  - intros c r n _ IH [Hc Hr]. apply noMatch_braces_app; [done|].
    apply IH. by apply noMatch_drop.
Qed.

(** *** Zero-width spaces *)

Lemma noMatch_zeroWidth (s : jsstring) :
  noMatch matchZeroWidth s <-> 8203 ∉ s.
Proof.
  induction s as [|c r IH]; simpl.
  - split; [intros _; apply not_elem_of_nil|done].
  - rewrite not_elem_of_cons, IH.
    destruct (Z.eqb_spec c 8203) as [->|Hne]; split.
    + by intros [? _].
    + by intros [? _].
    + intros [_ ?]. split; [congruence|done].
    + by intros [_ ?].
Qed.

Lemma stripZeroWidth_not_elem_of (s : jsstring) : 8203 ∉ stripZeroWidth s.
Proof.
  unfold stripZeroWidth.
  apply (replaceAll_ind matchZeroWidth [] (fun _ out => 8203 ∉ out)).
  - apply not_elem_of_nil.
  - intros c r Hc IH. apply not_elem_of_cons. split; [|done].
    simpl in Hc. by destruct (Z.eqb_spec c 8203).
  - intros c r Hc _. simpl in Hc. by destruct (c =? 8203).
  - intros c r n _ IH. done.
Qed.

(** *** White space at line ends *)

Lemma noTrailing_drop (s : jsstring) (k : nat) :
  noTrailing s -> noTrailing (drop k s).
Proof.
  revert s. induction k as [|k IH]; intros s Hs; [by rewrite drop_0|].
  destruct s as [|c r]; [done|]. simpl. apply IH. by destruct Hs.
Qed.

Lemma noTrailing_lookup (s : jsstring) (k : nat) (d : Z) :
  noTrailing s -> s !! k = Some d -> isSpace d = true ->
  atLineEnd (drop (S k) s) = false.
Proof.
  revert s. induction k as [|k IH]; intros s Hs Hk Hd.
  - destruct s as [|c r]; [done|]. simpl in Hk. injection Hk as ->.
    destruct Hs as [Hc _]. simpl. rewrite drop_0. by apply Hc.
  - destruct s as [|c r]; [done|]. simpl in Hk. destruct Hs as [_ Hr].
    by apply (IH r).
Qed.

Lemma matchTrailingSpace_positive (s : jsstring) (k : nat) :
  matchTrailingSpace s = Some k -> (0 < k)%nat.
Proof.
  destruct s as [|c r]; simpl; [done|].
  destruct (isSpace c); [|done].
  destruct (matchTrailingSpace r); [intros [= <-]; lia|].
  destruct (atLineEnd r); [intros [= <-]; lia|done].
Qed.

Lemma matchTrailingSpace_None_space (c : Z) (r : jsstring) :
  matchTrailingSpace (c :: r) = None -> isSpace c = true ->
  matchTrailingSpace r = None /\ atLineEnd r = false.
Proof.
  simpl. intros H Hc. rewrite Hc in H.
  destruct (matchTrailingSpace r); [done|].
  by destruct (atLineEnd r).
Qed.

Lemma noTrailing_matchTrailingSpace (s : jsstring) :
  noTrailing s -> matchTrailingSpace s = None.
Proof.
  induction s as [|c r IH]; intros Hs; [done|]. destruct Hs as [Hc Hr].
  simpl. destruct (isSpace c); [|done].
  rewrite (IH Hr). by rewrite Hc.
Qed.

Lemma noTrailing_noMatch (s : jsstring) :
  noTrailing s -> noMatch matchTrailingSpace s.
Proof.
  induction s as [|c r IH]; intros Hs; [done|].
  split; [by apply noTrailing_matchTrailingSpace|].
  apply IH. by destruct Hs.
Qed.

Lemma stripTrailingSpace_noTrailing (s : jsstring) :
  noTrailing (stripTrailingSpace s).
Proof.
  unfold stripTrailingSpace.
  apply (replaceAll_ind matchTrailingSpace []
           (fun _ out => noTrailing out)).
  - done.
  - intros c r Hc IH. split; [|done]. intros Hsp.
    destruct (matchTrailingSpace_None_space c r Hc Hsp) as [Hr Hend].
    destruct r as [|d r']; [done|].
    rewrite replaceAll_cons, Hr. done.
  - intros c r Hc _. apply matchTrailingSpace_positive in Hc. lia.
  - intros c r n _ IH. done.
Qed.

(** *** Tabs *)

Lemma isTabLike_isSpace (c : Z) : isTabLike c = true -> isSpace c = true.
Proof.
  unfold isTabLike. intros H.
  destruct (Z.eqb_spec c 9), (Z.eqb_spec c 12), (Z.eqb_spec c 11);
    simpl in H; try done; by subst.
Qed.

Lemma isTabLike_not_terminator (c : Z) :
  isTabLike c = true -> isLineTerminator c = false.
Proof.
  unfold isTabLike. intros H.
  destruct (Z.eqb_spec c 9), (Z.eqb_spec c 12), (Z.eqb_spec c 11);
    simpl in H; try done; by subst.
Qed.

Lemma runLength_lookup (p : Z -> bool) (s : jsstring) (k : nat) :
  (k < runLength p s)%nat -> exists d, s !! k = Some d /\ p d = true.
Proof.
  revert k. induction s as [|c r IH]; intros k Hk; simpl in Hk; [lia|].
  destruct (p c) eqn:Hc; [|lia].
  destruct k as [|k]; [by exists c|].
  apply IH. lia.
Qed.

Lemma matchTabs_Some (s : jsstring) (n : nat) :
  matchTabs s = Some n -> runLength isTabLike s = n /\ (0 < n)%nat.
Proof.
  unfold matchTabs. destruct (runLength isTabLike s); [done|].
  intros [= <-]. split; [done|lia].
Qed.

Lemma matchTabs_None (c : Z) (r : jsstring) :
  matchTabs (c :: r) = None <-> isTabLike c = false.
Proof.
  unfold matchTabs. simpl. destruct (isTabLike c); split; done.
Qed.

Lemma collapseTabs_atLineEnd (s : jsstring) :
  atLineEnd (collapseTabs s) = atLineEnd s.
Proof.
  destruct s as [|c r]; [done|].
  unfold collapseTabs. rewrite replaceAll_cons.
  destruct (matchTabs (c :: r)) as [[|n]|] eqn:Hm.
  - apply matchTabs_Some in Hm. lia.
  - apply matchTabs_Some in Hm as [Hrun _]. simpl in Hrun.
    destruct (isTabLike c) eqn:Hc; [|done].
    cbn [app atLineEnd]. by rewrite (isTabLike_not_terminator c Hc).
  - done.
Qed.

Lemma collapseTabs_noTrailing (s : jsstring) :
  noTrailing s -> noTrailing (collapseTabs s).
Proof.
  unfold collapseTabs.
  apply (replaceAll_ind matchTabs [32]
           (fun s out => noTrailing s -> noTrailing out)).
  - done.
  - intros c r _ IH [Hc Hr]. split; [|by apply IH].
    intros Hsp. fold (collapseTabs r). rewrite collapseTabs_atLineEnd.
    by apply Hc.
  - intros c r Hm _. apply matchTabs_Some in Hm. lia.
  - intros c r n Hm IH Hs.
    apply matchTabs_Some in Hm as [Hrun _].
    destruct (runLength_lookup isTabLike (c :: r) n ltac:(lia))
      as (d & Hd & Htab).
    pose proof (noTrailing_lookup (c :: r) n d Hs Hd
                  (isTabLike_isSpace d Htab)) as Hend.
    simpl in Hend. simpl app. split.
    + intros _. fold (collapseTabs (drop n r)).
      by rewrite collapseTabs_atLineEnd.
    + apply IH. apply (noTrailing_drop (c :: r) (S n) Hs).
Qed.

Lemma collapseTabs_no_tabs (s : jsstring) :
  Forall (fun c => isTabLike c = false) (collapseTabs s).
Proof.
  unfold collapseTabs.
  apply (replaceAll_ind matchTabs [32]
           (fun _ out => Forall (fun c => isTabLike c = false) out)).
  - constructor.
  - intros c r Hm IH. constructor; [|done].
    by apply (matchTabs_None c r).
  - intros c r Hm _. apply matchTabs_Some in Hm. lia.
  - intros c r n _ IH. by constructor.
Qed.

Lemma no_tabs_noMatch (s : jsstring) :
  Forall (fun c => isTabLike c = false) s -> noMatch matchTabs s.
Proof.
  induction 1 as [|c r Hc _ IH]; [done|].
  split; [by apply (matchTabs_None c r)|done].
Qed.

(** *** Blank lines and trimming *)

Lemma noTrailing_noMatch_newlines (s : jsstring) :
  noTrailing s -> noMatch matchNewlines s.
Proof.
  induction s as [|c r IH]; intros Hs; [done|]. destruct Hs as [Hc Hr].
  split; [|by apply IH].
  unfold matchNewlines. cbn [runLength].
  destruct (Z.eqb_spec 10 c) as [Hc10|]; [|done].
  destruct r as [|d r']; [done|]. cbn [runLength].
  destruct (Z.eqb_spec 10 d) as [Hd10|]; [|done].
  subst c d. specialize (Hc eq_refl). done.
Qed.

Lemma noTrailing_trimEnd (s : jsstring) : noTrailing s -> trimEnd s = s.
Proof.
  induction s as [|c r IH]; intros Hs; [done|]. destruct Hs as [Hc Hr].
  simpl. rewrite (IH Hr). destruct r as [|d r']; [|done].
  destruct (isSpace c); [|done]. specialize (Hc eq_refl). done.
Qed.

Lemma trimStart_drop (s : jsstring) : exists k, trimStart s = drop k s.
Proof.
  induction s as [|c r [k IH]]; [by exists O|]. simpl.
  destruct (isSpace c); [by exists (S k)|by exists O].
Qed.

Lemma trimStart_idempotent (s : jsstring) :
  trimStart (trimStart s) = trimStart s.
Proof.
  induction s as [|c r IH]; [done|]. simpl.
  destruct (isSpace c) eqn:Hc; [done|]. simpl. by rewrite Hc.
Qed.

(** *** Idempotence *)

(** A text on which every step of the normaliser is the identity. *)
Lemma cleanSrtText_fixed (y : jsstring) :
  noMatch matchTag y ->
  noMatch matchBraces y ->
  8203 ∉ y ->
  noTrailing y ->
  Forall (fun c => isTabLike c = false) y ->
  trimStart y = y ->
  cleanSrtText y = y.
Proof.
  intros Htag Hbr Hzw Htr Htab Hts. unfold cleanSrtText.
  unfold stripTags. rewrite (replaceAll_noMatch matchTag [] y Htag).
  unfold stripBraces. rewrite (replaceAll_noMatch matchBraces [] y Hbr).
  unfold stripZeroWidth.
  rewrite (replaceAll_noMatch matchZeroWidth [] y)
    by (by apply noMatch_zeroWidth).
  unfold stripTrailingSpace.
  rewrite (replaceAll_noMatch matchTrailingSpace [] y)
    by (by apply noTrailing_noMatch).
  unfold collapseTabs.
  rewrite (replaceAll_noMatch matchTabs [32] y)
    by (by apply no_tabs_noMatch).
  unfold collapseNewlines.
  rewrite (replaceAll_noMatch matchNewlines [10] y)
    by (by apply noTrailing_noMatch_newlines).
  unfold trim. rewrite Hts. by apply noTrailing_trimEnd.
Qed.

(** What the normaliser establishes. *)
Lemma cleanSrtText_normal (s : jsstring) :
  let y := cleanSrtText s in
  noMatch matchTag y
  /\ noMatch matchBraces y
  /\ (8203 ∉ y)
  /\ noTrailing y
  /\ Forall (fun c => isTabLike c = false) y
  /\ trimStart y = y.
Proof.
  set (s1 := stripTags s). set (s2 := stripBraces s1).
  set (s3 := stripZeroWidth s2). set (s4 := stripTrailingSpace s3).
  set (s5 := collapseTabs s4).
  assert (Hsp0 : Forall (fun d => isSpace d = true) []) by constructor.
  assert (Hsp1 : Forall (fun d => isSpace d = true) [32])
    by (by repeat constructor).
  assert (Htag : noMatch matchTag s5).
  { apply noMatch_tag_preserved; [done|done|].
    apply noMatch_tag_preserved; [done|done|].
    apply noMatch_tag_preserved; [intros t; reflexivity|done|].
    apply noMatch_tag_preserved; [intros t; reflexivity|done|].
    apply stripTags_noMatch. }
  assert (Hbr : noMatch matchBraces s5).
  { do 3 (apply noMatch_braces_preserved; [done|]).
    apply stripBraces_noMatch. }
  assert (Hzw : 8203 ∉ s5).
  { apply replaceAll_not_elem_of; [by apply spaces_not_elem_of|].
    apply replaceAll_not_elem_of; [apply not_elem_of_nil|].
    apply stripZeroWidth_not_elem_of. }
  assert (Htr : noTrailing s5).
  { apply collapseTabs_noTrailing, stripTrailingSpace_noTrailing. }
  assert (Htab : Forall (fun c => isTabLike c = false) s5)
    by apply collapseTabs_no_tabs.
  assert (Hy : cleanSrtText s = trimStart s5).
  { unfold cleanSrtText. fold s1 s2 s3 s4 s5. unfold collapseNewlines.
    rewrite (replaceAll_noMatch matchNewlines [10] s5)
      by (by apply noTrailing_noMatch_newlines).
    unfold trim. destruct (trimStart_drop s5) as [k Hk].
    rewrite Hk. apply noTrailing_trimEnd. by apply noTrailing_drop. }
  intros y. unfold y. rewrite Hy.
  destruct (trimStart_drop s5) as [k Hk].
  split_and!.
  - rewrite Hk. by apply noMatch_drop.
  - rewrite Hk. by apply noMatch_drop.
  - rewrite Hk. intros Hin. apply Hzw.
    eapply elem_of_suffix; [exact Hin|apply suffix_drop].
  - rewrite Hk. by apply noTrailing_drop.
  - rewrite Hk. by apply Forall_drop.
  - apply trimStart_idempotent.
Qed.

(** C7.  The text normaliser is idempotent. *)
Theorem cleanSrtText_idempotent (x : jsstring) :
  cleanSrtText (cleanSrtText x) = cleanSrtText x.
Proof.
  destruct (cleanSrtText_normal x) as (H1 & H2 & H3 & H4 & H5 & H6).
  by apply cleanSrtText_fixed.
Qed.


(** ** The de-duplication scan *)

Section DedupeFacts.

Variable toLowerCase : jsstring -> jsstring.

Abbreviation key e := (normalizeForCompare toLowerCase (text e)).

Lemma jseqb_true (a b : jsstring) : jseqb a b = true <-> a = b.
Proof. unfold jseqb. apply bool_decide_eq_true. Qed.

Lemma jseqb_false (a b : jsstring) : jseqb a b = false <-> a ≠ b.
Proof. unfold jseqb. apply bool_decide_eq_false. Qed.

(** What a successful scan found. *)
Lemma scanBack_Some w (result : list Entry) current norm k j :
  scanBack toLowerCase w result current norm k = Some j ->
  (j < k)%nat /\
  exists prev, result !! j = Some prev
               /\ startMs current - startMs prev <= w
               /\ key prev = norm.
Proof.
  induction k as [|k IH]; simpl; [discriminate|].
  destruct (result !! k) as [prev|] eqn:Hk; [|discriminate].
  destruct (Z.gtb_spec (startMs current - startMs prev) w); [discriminate|].
  destruct (jseqb (key prev) norm) eqn:Hn.
  - intros [= <-]. split; [lia|]. exists prev.
    apply jseqb_true in Hn. auto.
  - intros Hs. destruct (IH Hs) as [? ?]. split; [lia|auto].
Qed.

(** The scan steps over elements inside the window with another key. *)
Lemma scanBack_skip w (pre post : list Entry) current norm :
  Forall (fun e => startMs current - startMs e <= w /\ key e ≠ norm) post ->
  scanBack toLowerCase w (pre ++ post) current norm
    (length pre + length post)
  = scanBack toLowerCase w (pre ++ post) current norm (length pre).
Proof.
  intros Hpost.
  assert (G : forall k, (k <= length post)%nat ->
    scanBack toLowerCase w (pre ++ post) current norm (length pre + k)
    = scanBack toLowerCase w (pre ++ post) current norm (length pre)).
  { induction k as [|k IH]; intros Hk.
    - by rewrite Nat.add_0_r.
    - replace (length pre + S k)%nat with (S (length pre + k)) by lia.
      simpl. rewrite lookup_app_r by lia.
      replace (length pre + k - length pre)%nat with k by lia.
      destruct (post !! k) as [e|] eqn:He.
      + destruct (Forall_lookup_1 _ _ _ _ Hpost He) as [Hgap Hkey].
        destruct (Z.gtb_spec (startMs current - startMs e) w); [lia|].
        apply jseqb_false in Hkey. rewrite Hkey. apply IH. lia.
      + apply lookup_ge_None in He. lia. }
  apply G. lia.
Qed.

Lemma scanBack_hit w (result : list Entry) current norm j prev :
  result !! j = Some prev ->
  startMs current - startMs prev <= w ->
  key prev = norm ->
  scanBack toLowerCase w result current norm (S j) = Some j.
Proof.
  intros Hj Hgap Hkey. simpl. rewrite Hj.
  destruct (Z.gtb_spec (startMs current - startMs prev) w); [lia|].
  apply jseqb_true in Hkey. by rewrite Hkey.
Qed.

Lemma scanBack_break w (result : list Entry) current norm j prev :
  result !! j = Some prev ->
  startMs current - startMs prev > w ->
  scanBack toLowerCase w result current norm (S j) = None.
Proof.
  intros Hj Hgap. simpl. rewrite Hj.
  destruct (Z.gtb_spec (startMs current - startMs prev) w); [done|lia].
Qed.

(** The scan finds nothing among elements with another key. *)
Lemma scanBack_miss w (pre post : list Entry) current norm :
  Forall (fun e => key e ≠ norm) post ->
  scanBack toLowerCase w (pre ++ post) current norm
    (length pre + length post) = None
  \/ scanBack toLowerCase w (pre ++ post) current norm
       (length pre + length post)
     = scanBack toLowerCase w (pre ++ post) current norm (length pre).
Proof.
  intros H.
  assert (G : forall k, (k <= length post)%nat ->
    scanBack toLowerCase w (pre ++ post) current norm (length pre + k) = None
    \/ scanBack toLowerCase w (pre ++ post) current norm (length pre + k)
       = scanBack toLowerCase w (pre ++ post) current norm (length pre)).
  { induction k as [|k IH]; intros Hk.
    - right. by rewrite Nat.add_0_r.
    - replace (length pre + S k)%nat with (S (length pre + k)) by lia.
      simpl. rewrite lookup_app_r by lia.
      replace (length pre + k - length pre)%nat with k by lia.
      destruct (post !! k) as [e|] eqn:He; [|by left].
      destruct (startMs current - startMs e >? w); [by left|].
      assert (key e ≠ norm) as Hne.
      { eapply Forall_lookup_1 in H; eauto. }
      apply jseqb_false in Hne. rewrite Hne. apply IH. lia. }
  apply G. lia.
Qed.

(** A candidate that collides with [a], the elements after [a] being in
    the window with other keys. *)
Lemma dedupeStep_collide w (pre post : list Entry) a current :
  key a = key current ->
  startMs current - startMs a <= w ->
  Forall (fun e => startMs current - startMs e <= w
                   /\ key e ≠ key current) post ->
  dedupeStep toLowerCase w (pre ++ a :: post) current
  = pre ++ (if bool_decide (role a ≠ Speaker)
               && bool_decide (role current = Speaker)
            then current else a) :: post.
Proof.
  intros Hkey Hgap Hpost. unfold dedupeStep.
  replace (length (pre ++ a :: post))
    with (length (pre ++ [a]) + length post)%nat
    by (rewrite !length_app; simpl; lia).
  replace (pre ++ a :: post) with ((pre ++ [a]) ++ post)
    by (by rewrite <- app_assoc).
  rewrite scanBack_skip by done.
  rewrite length_app. simpl.
  replace (length pre + 1)%nat with (S (length pre)) by lia.
  assert (Hlk : ((pre ++ [a]) ++ post) !! length pre = Some a).
  { rewrite <- app_assoc. simpl. by rewrite list_lookup_middle. }
  rewrite (scanBack_hit _ _ _ _ _ a) by done.
  rewrite Hlk.
  destruct (bool_decide (role a ≠ Speaker)
            && bool_decide (role current = Speaker)).
  - rewrite <- app_assoc. simpl.
    replace (length pre) with (length pre + 0)%nat at 1 by lia.
    by rewrite insert_app_r.
  - by rewrite <- app_assoc.
Qed.

(** A candidate whose only key-mate [a] is outside the window. *)
Lemma dedupeStep_outside w (pre post : list Entry) a current :
  startMs current - startMs a > w ->
  Forall (fun e => key e ≠ key current) post ->
  dedupeStep toLowerCase w (pre ++ a :: post) current
  = pre ++ a :: post ++ [current].
Proof.
  intros Hgap Hpost. unfold dedupeStep.
  replace (length (pre ++ a :: post))
    with (length (pre ++ [a]) + length post)%nat
    by (rewrite !length_app; simpl; lia).
  replace (pre ++ a :: post) with ((pre ++ [a]) ++ post)
    by (by rewrite <- app_assoc).
  destruct (scanBack_miss w (pre ++ [a]) post current (key current) Hpost)
    as [-> | ->].
  - by rewrite <- !app_assoc.
  - rewrite length_app. simpl.
    replace (length pre + 1)%nat with (S (length pre)) by lia.
    rewrite (scanBack_break _ _ _ _ _ a); [by rewrite <- !app_assoc| |done].
    rewrite <- app_assoc. simpl. by rewrite list_lookup_middle.
Qed.

End DedupeFacts.

(** ** Sorting *)

Lemma compareEntries_le (a b : Entry) :
  compareEntries a b <= 0 <-> entryLe a b.
Proof.
  unfold compareEntries, entryLe.
  case_bool_decide; lia.
Qed.

Lemma entryLe_total (a b : Entry) : entryLe a b \/ entryLe b a.
Proof. unfold entryLe. lia. Qed.

Lemma entryLe_trans (a b c : Entry) : entryLe a b -> entryLe b c -> entryLe a c.
Proof. unfold entryLe. lia. Qed.

Lemma entryLe_startLe (a b : Entry) : entryLe a b -> startLe a b.
Proof. unfold entryLe, startLe. lia. Qed.

Lemma insertSorted_elem_of (x y : Entry) (l : list Entry) :
  y ∈ insertSorted compareEntries x l -> y = x \/ y ∈ l.
Proof.
  induction l as [|z l IH]; simpl.
  - intros ->%list_elem_of_singleton. by left.
  - destruct (compareEntries x z <=? 0).
    + intros [->|H]%elem_of_cons; auto.
    + intros [->|H]%elem_of_cons; [right; left|].
      destruct (IH H) as [->|?]; [by left|right; by right].
Qed.

Lemma insertSorted_sorted (x : Entry) (l : list Entry) :
  StronglySorted entryLe l ->
  StronglySorted entryLe (insertSorted compareEntries x l).
Proof.
  induction 1 as [|y l Hs IH Hall]; simpl.
  - repeat constructor.
  - destruct (Z.leb_spec (compareEntries x y) 0) as [Hle|Hgt].
    + apply compareEntries_le in Hle.
      constructor; [by constructor|].
      constructor; [done|].
      eapply Forall_impl; [exact Hall|].
      intros z Hz. by eapply entryLe_trans.
    + constructor; [done|].
      apply Forall_forall. intros z [->|Hz]%insertSorted_elem_of.
      * destruct (entryLe_total y x) as [?|Hxy]; [done|].
        apply compareEntries_le in Hxy. lia.
      * eapply Forall_forall in Hall; eauto.
Qed.

Lemma sortEntries_sorted (l : list Entry) :
  StronglySorted entryLe (sortEntries compareEntries l).
Proof.
  induction l as [|x l IH]; simpl; [constructor|].
  by apply insertSorted_sorted.
Qed.

Lemma insertSorted_perm (x : Entry) (l : list Entry) :
  insertSorted compareEntries x l ≡ₚ x :: l.
Proof.
  induction l as [|y l IH]; simpl; [done|].
  destruct (compareEntries x y <=? 0); [done|].
  rewrite IH. apply Permutation_swap.
Qed.

Lemma sortEntries_perm (l : list Entry) :
  sortEntries compareEntries l ≡ₚ l.
Proof.
  induction l as [|x l IH]; simpl; [done|].
  rewrite insertSorted_perm. by rewrite IH.
Qed.

Lemma StronglySorted_lookup {A} (R : A -> A -> Prop) (l : list A) i j x y :
  StronglySorted R l ->
  l !! i = Some x -> l !! j = Some y -> (i < j)%nat -> R x y.
Proof.
  intros Hs. revert i j.
  induction Hs as [|z l Hs IH Hall]; intros i j Hi Hj Hij.
  - by rewrite lookup_nil in Hi.
  - destruct j as [|j]; [lia|]. simpl in Hj.
    destruct i as [|i]; simpl in Hi.
    + injection Hi as <-. eapply Forall_lookup_1 in Hall; eauto.
    + eapply IH; eauto. lia.
Qed.

Lemma StronglySorted_mono {A} (R S : A -> A -> Prop) (l : list A) :
  (forall a b, R a b -> S a b) -> StronglySorted R l -> StronglySorted S l.
Proof.
  intros HRS. induction 1 as [|z l Hs IH Hall]; constructor; [done|].
  eapply Forall_impl; eauto.
Qed.

Lemma StronglySorted_delete_middle {A} (R : A -> A -> Prop)
    (l1 l2 : list A) x :
  StronglySorted R (l1 ++ x :: l2) -> StronglySorted R (l1 ++ l2).
Proof.
  intros H. apply StronglySorted_app in H as (H12 & H1 & H2).
  apply StronglySorted_app. split_and!; [|done|by inversion H2].
  intros a b Ha Hb. apply H12; [done|]. by right.
Qed.

Lemma StronglySorted_sublist {A} (R : A -> A -> Prop) (l1 l2 : list A) :
  l1 `sublist_of` l2 -> StronglySorted R l2 -> StronglySorted R l1.
Proof.
  induction 1 as [|x l1 l2 Hsub IH|x l1 l2 Hsub IH]; intros Hs.
  - constructor.
  - inversion Hs as [|? ? Hs2 Hall]; subst. constructor; [by apply IH|].
    apply Forall_forall. intros y Hy.
    eapply Forall_forall in Hall; [exact Hall|].
    by eapply elem_of_sublist.
  - inversion Hs; subst. by apply IH.
Qed.

Lemma orderedBy_StronglySorted (R : Entry -> Entry -> Prop)
    (l : list Entry) :
  orderedBy R l <-> StronglySorted R l.
Proof.
  split.
  - induction l as [|x l IH]; intros Ho; constructor.
    + apply IH. intros i j a b Ha Hb Hij.
      apply (Ho (S i) (S j) a b); [done|done|lia].
    + apply Forall_forall. intros y Hy.
      apply list_elem_of_lookup in Hy as [k Hk].
      apply (Ho O (S k) x y); [done|done|lia].
  - intros Hs i j a b Ha Hb Hij. by eapply StronglySorted_lookup.
Qed.

(** ** Merging adjacent Speaker entries *)

(** One turn either appends the item or rewrites the text of the last
    entry. *)
Lemma mergeStep_meta (acc0 acc : list Entry) (item : Entry) :
  Forall2 sameMeta acc0 acc ->
  Forall2 sameMeta acc0 (mergeStep acc item)
  \/ Forall2 sameMeta (acc0 ++ [item]) (mergeStep acc item).
Proof.
  intros Hacc. unfold mergeStep.
  assert (Happ : Forall2 sameMeta (acc0 ++ [item]) (acc ++ [item])).
  { apply Forall2_app; [done|]. by repeat constructor. }
  destruct (last acc) as [l|] eqn:Hlast; [|by right].
  destruct (bool_decide (role l = Speaker)
            && bool_decide (role item = Speaker)); [|by right].
  left. rewrite last_lookup in Hlast.
  destruct (Forall2_lookup_r _ _ _ _ _ Hacc Hlast) as (o & Ho & Hol).
  rewrite <- (list_insert_id acc0 _ o Ho).
  apply Forall2_insert; [done|]. exact Hol.
Qed.

(** The entries that survive the merge, up to their texts. *)
Lemma mergeAdjacentSpeakers_kept (items : list Entry) :
  forall acc0 acc : list Entry,
    Forall2 sameMeta acc0 acc ->
    exists kept,
      kept `sublist_of` items
      /\ Forall2 sameMeta (acc0 ++ kept) (fold_left mergeStep items acc).
Proof.
  induction items as [|item items IH]; intros acc0 acc Hacc.
  - exists []. split; [done|]. by rewrite app_nil_r.
  - simpl. destruct (mergeStep_meta acc0 acc item Hacc) as [H|H].
    + destruct (IH acc0 _ H) as (kept & Hsub & Hk).
      exists kept. split; [by apply sublist_cons|done].
    + destruct (IH (acc0 ++ [item]) _ H) as (kept & Hsub & Hk).
      exists (item :: kept). split; [by apply sublist_skip|].
      by rewrite <- app_assoc in Hk.
Qed.

Lemma orderUpToWindow_sameMeta (a a' b b' : Entry) :
  sameMeta a a' -> sameMeta b b' ->
  orderUpToWindow a b -> orderUpToWindow a' b'.
Proof.
  unfold sameMeta, orderUpToWindow, entryLe.
  intros [Ha1 Ha2] [Hb1 Hb2]. rewrite <- Ha1, <- Ha2, <- Hb1, <- Hb2. done.
Qed.

(** Merging keeps the order of the entries that remain. *)
Lemma mergeAdjacentSpeakers_order (items : list Entry) :
  orderedBy orderUpToWindow items ->
  orderedBy orderUpToWindow (mergeAdjacentSpeakers items).
Proof.
  intros Ho.
  destruct (mergeAdjacentSpeakers_kept items [] [] (List.Forall2_nil _))
    as (kept & Hsub & Hk).
  simpl in Hk. fold (mergeAdjacentSpeakers items) in Hk.
  assert (Hkept : orderedBy orderUpToWindow kept).
  { apply orderedBy_StronglySorted.
    eapply StronglySorted_sublist; [exact Hsub|].
    by apply orderedBy_StronglySorted. }
  intros i j a b Ha Hb Hij.
  destruct (Forall2_lookup_r _ _ _ _ _ Hk Ha) as (a0 & Ha0 & Hsa).
  destruct (Forall2_lookup_r _ _ _ _ _ Hk Hb) as (b0 & Hb0 & Hsb).
  eapply orderUpToWindow_sameMeta; [exact Hsa|exact Hsb|].
  exact (Hkept i j a0 b0 Ha0 Hb0 Hij).
Qed.

(** ** The accumulator of the de-duplication *)

Section DedupeInvariant.

Variable toLowerCase : jsstring -> jsstring.
Variable R : Entry -> Entry -> Prop.
Hypothesis R_start : forall a b, R a b -> startMs a <= startMs b.

Lemma slotRel_refl w (e : Entry) : slotRel w e e.
Proof. by left. Qed.

(** One turn keeps every position tied to the entry first appended
    there, and those first entries stay in input order. *)
Lemma dedupeStep_slots w (orig acc : list Entry) (current : Entry) :
  Forall (fun o => R o current) orig ->
  Forall2 (slotRel w) orig acc ->
  let acc' := dedupeStep toLowerCase w acc current in
  Forall2 (slotRel w) orig acc'
  \/ Forall2 (slotRel w) (orig ++ [current]) acc'.
Proof.
  intros Hle Hslots. simpl. unfold dedupeStep.
  destruct (scanBack toLowerCase w acc current _ (length acc))
    as [j|] eqn:Hscan.
  - left.
    apply scanBack_Some in Hscan as (Hj & prev & Hprev & Hgap & _).
    rewrite Hprev.
    destruct (bool_decide (role prev ≠ Speaker)
              && bool_decide (role current = Speaker)) eqn:Hup; [|done].
    apply andb_true_iff in Hup as [Hp Hc].
    apply bool_decide_eq_true in Hp. apply bool_decide_eq_true in Hc.
    destruct (Forall2_lookup_r _ _ _ _ _ Hslots Hprev) as (o & Ho & Hrel).
    rewrite <- (list_insert_id orig j o Ho).
    apply Forall2_insert; [done|].
    destruct Hrel as [->|[Hsp _]]; [|congruence].
    right. split; [done|].
    eapply Forall_lookup_1 in Hle; eauto.
    apply R_start in Hle. lia.
  - right. apply Forall2_app; [done|].
    constructor; [apply slotRel_refl|constructor].
Qed.

(** The loop, from any state that satisfies the invariant. *)
Lemma dedupe_slots w (items orig acc : list Entry) :
  StronglySorted R (orig ++ items) ->
  Forall2 (slotRel w) orig acc ->
  exists orig',
    StronglySorted R orig'
    /\ Forall2 (slotRel w) orig'
         (fold_left (dedupeStep toLowerCase w) items acc).
Proof.
  revert orig acc.
  induction items as [|current items IH]; intros orig acc Hs Hslots.
  - exists orig. rewrite app_nil_r in Hs. done.
  - simpl.
    assert (Hle : Forall (fun o => R o current) orig).
    { apply Forall_forall. intros o Ho.
      eapply StronglySorted_app_1_elem_of; eauto. by left. }
    destruct (dedupeStep_slots w orig acc current Hle Hslots) as [H|H].
    + eapply IH; [|exact H].
      by eapply StronglySorted_delete_middle.
    + eapply IH; [|exact H]. by rewrite <- app_assoc.
Qed.

Lemma dedupeNearDuplicates_slots w (items : list Entry) :
  StronglySorted R items ->
  exists orig,
    StronglySorted R orig
    /\ Forall2 (slotRel w) orig
         (dedupeNearDuplicates toLowerCase items w).
Proof.
  intros Hs. unfold dedupeNearDuplicates.
  by apply (dedupe_slots w items [] []).
Qed.

End DedupeInvariant.

Section DedupeClaims.

Variable toLowerCase : jsstring -> jsstring.

Abbreviation key e := (normalizeForCompare toLowerCase (text e)).
Abbreviation dedupe items := (dedupeNearDuplicates toLowerCase items 750).

Lemma dedupe_pair (a b : Entry) :
  dedupe [a; b] = dedupeStep toLowerCase 750 [a] b.
Proof. reflexivity. Qed.

Lemma dedupe_pair_collide (a b : Entry) :
  key a = key b ->
  startMs b - startMs a <= 750 ->
  dedupe [a; b]
  = [if bool_decide (role a ≠ Speaker) && bool_decide (role b = Speaker)
     then b else a].
Proof.
  intros Hkey Hgap. rewrite dedupe_pair.
  apply (dedupeStep_collide toLowerCase 750 [] [] a b); [done|done|].
  constructor.
Qed.

Lemma dedupe_pair_outside (a b : Entry) :
  startMs b - startMs a > 750 -> dedupe [a; b] = [a; b].
Proof.
  intros Hgap. rewrite dedupe_pair.
  apply (dedupeStep_outside toLowerCase 750 [] [] a b); [done|].
  constructor.
Qed.

(** C5.  A Description entry and a Speaker entry at most 750 ms apart
    with equal comparison keys leave only the Speaker entry, in either
    order of arrival; and in an accumulator where the Description entry
    is the first key-mate met by the backward scan, the Speaker entry
    takes exactly its position, the other positions unchanged. *)
Theorem speaker_replaces_description_in_place (d s : Entry) :
  role d = Description ->
  role s = Speaker ->
  -750 <= startMs s - startMs d <= 750 ->
  key d = key s ->
  dedupe [d; s] = [s]
  /\ dedupe [s; d] = [s]
  /\ forall pre post : list Entry,
       Forall (fun e => startMs s - startMs e <= 750 /\ key e ≠ key s) post ->
       dedupeStep toLowerCase 750 (pre ++ d :: post) s = pre ++ s :: post.
Proof.
  intros Hd Hs Hgap Hkey. split_and!.
  - rewrite dedupe_pair_collide by (done || lia).
    rewrite Hd, Hs. done.
  - rewrite dedupe_pair_collide by (done || lia).
    rewrite Hd, Hs. done.
  - intros pre post Hpost.
    rewrite dedupeStep_collide; [|done|lia|done].
    rewrite Hd, Hs. done.
Qed.

(** C6.  Between two entries with the same comparison key, a start
    difference of exactly 750 ms makes the later one a duplicate (it is
    dropped, or takes the earlier one's place by role upgrade); at
    751 ms both are kept.  The same holds inside an accumulator whose
    later elements have other keys. *)
Theorem window_boundary_is_inclusive (a b : Entry) :
  key a = key b ->
  let kept := if bool_decide (role a ≠ Speaker)
                 && bool_decide (role b = Speaker) then b else a in
  (startMs b - startMs a = 750 -> dedupe [a; b] = [kept])
  /\ (startMs b - startMs a = 751 -> dedupe [a; b] = [a; b])
  /\ forall pre post : list Entry,
       Forall (fun e => key e ≠ key b) post ->
       (startMs b - startMs a = 750 ->
        Forall (fun e => startMs b - startMs e <= 750) post ->
        dedupeStep toLowerCase 750 (pre ++ a :: post) b
        = pre ++ kept :: post)
       /\ (startMs b - startMs a = 751 ->
           dedupeStep toLowerCase 750 (pre ++ a :: post) b
           = pre ++ a :: post ++ [b]).
Proof.
  intros Hkey kept. split_and!.
  - intros Hgap. apply dedupe_pair_collide; [done|lia].
  - intros Hgap. apply dedupe_pair_outside. lia.
  - intros pre post Hpost. split.
    + intros Hgap Hwin. rewrite dedupeStep_collide; [done|done|lia|].
      apply Forall_forall. intros e He. split.
      * eapply Forall_forall in Hwin; eauto.
      * eapply Forall_forall in Hpost; eauto.
    + intros Hgap. rewrite dedupeStep_outside; [done|lia|done].
Qed.

(** Without a role upgrade the accumulator stays in input order. *)
Lemma dedupe_sorted_without_upgrade (R : Entry -> Entry -> Prop)
    (items acc : list Entry) :
  (forall a b, a ∈ acc ++ items -> b ∈ items ->
               role a ≠ Speaker -> role b = Speaker -> key a ≠ key b) ->
  StronglySorted R (acc ++ items) ->
  StronglySorted R (fold_left (dedupeStep toLowerCase 750) items acc).
Proof.
  revert acc. induction items as [|current items IH]; intros acc Hno Hs.
  - by rewrite app_nil_r in Hs.
  - simpl.
    assert (Hcase : dedupeStep toLowerCase 750 acc current = acc
                    \/ dedupeStep toLowerCase 750 acc current
                       = acc ++ [current]).
    { unfold dedupeStep.
      destruct (scanBack toLowerCase 750 acc current _ (length acc))
        as [j|] eqn:Hscan; [|by right].
      left.
      apply scanBack_Some in Hscan as (_ & prev & Hprev & _ & Hk).
      rewrite Hprev.
      destruct (bool_decide (role prev ≠ Speaker)
                && bool_decide (role current = Speaker)) eqn:Hup; [|done].
      apply andb_true_iff in Hup as [Hp Hc].
      apply bool_decide_eq_true in Hp. apply bool_decide_eq_true in Hc.
      exfalso. apply (Hno prev current); [|by left|done|done|done].
      apply elem_of_app. left. by eapply list_elem_of_lookup_2. }
    destruct Hcase as [-> | ->].
    + apply IH.
      * intros a b Ha Hb. apply Hno; [|by right].
        apply elem_of_app in Ha as [?|?]; apply elem_of_app;
          [by left|right; by right].
      * by eapply StronglySorted_delete_middle.
    + apply IH.
      * intros a b Ha Hb. apply Hno; [|by right].
        by rewrite <- app_assoc in Ha.
      * by rewrite <- app_assoc.
Qed.

(** The de-duplicated output of the sorted entries. *)
Lemma dedupe_sorted_order (combined : list Entry) :
  orderedBy orderUpToWindow (dedupe (sortEntries compareEntries combined)).
Proof.
  intros i j a b Ha Hb Hij.
  destruct (dedupeNearDuplicates_slots toLowerCase entryLe
              (fun x y H => entryLe_startLe x y H) 750
              (sortEntries compareEntries combined)
              (sortEntries_sorted combined)) as (orig & Hs & Hslots).
  destruct (Forall2_lookup_r _ _ _ _ _ Hslots Ha) as (oa & Hoa & Hra).
  destruct (Forall2_lookup_r _ _ _ _ _ Hslots Hb) as (ob & Hob & Hrb).
  pose proof (StronglySorted_lookup _ _ _ _ _ _ Hs Hoa Hob Hij) as Hle.
  unfold orderUpToWindow, entryLe in *. unfold slotRel in *.
  split.
  - destruct Hra as [->|(_ & ? & ?)], Hrb as [->|(_ & ? & ?)]; lia.
  - intros Hna. destruct Hra as [->|(? & _)]; [|done].
    destruct Hrb as [->|(Hsp & ? & ?)]; [done|].
    rewrite Hsp. destruct (role oa); simpl in *; try done; lia.
Qed.

(** C2, as the code has it.  In the de-duplicated output of the sorted
    entries, and likewise after the adjacent Speaker entries are merged,
    an entry never precedes one that starts more than 750 ms before it;
    and an entry that is not a Speaker entry precedes only entries that
    start later, or at the same time with a role not earlier in the order
    Description, On-screen text, Speaker. *)
Theorem merge_output_order_up_to_window (combined out : list Entry)
    (i j : nat) (a b : Entry) :
  let deduped := dedupe (sortEntries compareEntries combined) in
  out = deduped \/ out = mergeAdjacentSpeakers deduped ->
  out !! i = Some a ->
  out !! j = Some b ->
  (i < j)%nat ->
  startMs a <= startMs b + 750
  /\ (role a ≠ Speaker -> entryLe a b).
Proof.
  intros deduped Hout Ha Hb Hij.
  pose proof (dedupe_sorted_order combined) as Hd. fold deduped in Hd.
  destruct Hout as [-> | ->].
  - exact (Hd i j a b Ha Hb Hij).
  - exact (mergeAdjacentSpeakers_order deduped Hd i j a b Ha Hb Hij).
Qed.

(** C3, as the code has it.  On an input in non-decreasing start order,
    after any number of turns of the loop: an accumulator element that
    is not a Speaker entry starts no later than every element after it,
    so a scan that stops at an element outside the window leaves no
    non-Speaker element inside the window unvisited; and when no Speaker
    entry of the input shares its key with a non-Speaker entry (no role
    upgrade can occur), the whole accumulator is in non-decreasing start
    order and the scan leaves no element inside the window unvisited. *)
Theorem accumulator_order_at_every_step (items : list Entry) (n : nat) :
  StronglySorted startLe items ->
  let acc := dedupe (take n items) in
  (forall i j a b, acc !! i = Some a -> acc !! j = Some b -> (i < j)%nat ->
     role a ≠ Speaker -> startMs a <= startMs b)
  /\ (forall current i j p q,
        acc !! j = Some p -> startMs current - startMs p > 750 ->
        (i < j)%nat -> acc !! i = Some q -> role q ≠ Speaker ->
        startMs current - startMs q > 750)
  /\ ((forall a b, a ∈ items -> b ∈ items ->
         role a ≠ Speaker -> role b = Speaker -> key a ≠ key b) ->
      orderedBy startLe acc
      /\ forall current i j p q,
           acc !! j = Some p -> startMs current - startMs p > 750 ->
           (i < j)%nat -> acc !! i = Some q ->
           startMs current - startMs q > 750).
Proof.
  intros Hsorted acc.
  assert (Hpre : StronglySorted startLe (take n items)).
  { rewrite <- (take_drop n items) in Hsorted.
    by apply StronglySorted_app_1_l in Hsorted. }
  assert (H1 : forall i j a b, acc !! i = Some a -> acc !! j = Some b ->
    (i < j)%nat -> role a ≠ Speaker -> startMs a <= startMs b).
  { intros i j a b Ha Hb Hij Hna.
    destruct (dedupeNearDuplicates_slots toLowerCase startLe
                (fun x y H => H) 750 (take n items) Hpre)
      as (orig & Hs & Hslots).
    destruct (Forall2_lookup_r _ _ _ _ _ Hslots Ha) as (oa & Hoa & Hra).
    destruct (Forall2_lookup_r _ _ _ _ _ Hslots Hb) as (ob & Hob & Hrb).
    pose proof (StronglySorted_lookup _ _ _ _ _ _ Hs Hoa Hob Hij) as Hle.
    unfold startLe in Hle.
    destruct Hra as [->|(? & _)]; [|done].
    destruct Hrb as [->|(_ & ? & ?)]; lia. }
  split_and!.
  - exact H1.
  - intros current i j p q Hp Hgap Hij Hq Hnq.
    pose proof (H1 i j q p Hq Hp Hij Hnq). lia.
  - intros Hno.
    assert (H3 : orderedBy startLe acc).
    { intros i j a b Ha Hb Hij.
      eapply StronglySorted_lookup; [|exact Ha|exact Hb|exact Hij].
      apply dedupe_sorted_without_upgrade; [|done].
      intros x y Hx Hy. simpl in Hx.
      apply Hno; eapply elem_of_sublist; eauto using sublist_take. }
    split; [done|].
    intros current i j p q Hp Hgap Hij Hq.
    pose proof (H3 i j q p Hq Hp Hij) as Hle. unfold startLe in Hle. lia.
Qed.

End DedupeClaims.

(** ** The merge engine on the scenarios *)

(** Witness of C5: a description at 1.0 s and the same words spoken at
    1.4 s. *)
Lemma speaker_replaces_description_in_place_witness :
  let d := mkEntry 1000 Description (js "Door slams.") in
  let s := mkEntry 1400 Speaker (js "door slams") in
  role d = Description
  /\ role s = Speaker
  /\ -750 <= startMs s - startMs d <= 750
  /\ normalizeForCompare asciiToLowerCase (text d)
     = normalizeForCompare asciiToLowerCase (text s)
  /\ dedupeNearDuplicates asciiToLowerCase [d; s] 750 = [s].
Proof.
  intros d s.
  assert (Hk : normalizeForCompare asciiToLowerCase (text d)
               = normalizeForCompare asciiToLowerCase (text s))
    by (vm_compute; reflexivity).
  assert (Hg : -750 <= startMs s - startMs d <= 750) by (simpl; lia).
  refine (conj eq_refl (conj eq_refl (conj Hg (conj Hk _)))).
  exact (proj1 (speaker_replaces_description_in_place asciiToLowerCase d s
                  eq_refl eq_refl Hg Hk)).
Defined.

(** Witness of C6: the same key 750 ms apart. *)
Lemma window_boundary_is_inclusive_witness :
  let a := mkEntry 1000 Description (js "Rain.") in
  let b := mkEntry 1750 Description (js "rain") in
  normalizeForCompare asciiToLowerCase (text a)
  = normalizeForCompare asciiToLowerCase (text b)
  /\ startMs b - startMs a = 750
  /\ dedupeNearDuplicates asciiToLowerCase [a; b] 750 = [a].
Proof.
  intros a b.
  assert (Hk : normalizeForCompare asciiToLowerCase (text a)
               = normalizeForCompare asciiToLowerCase (text b))
    by (vm_compute; reflexivity).
  split_and!; [exact Hk|reflexivity|].
  exact (proj1 (window_boundary_is_inclusive asciiToLowerCase a b Hk)
           eq_refl).
Defined.

(** C2 fails: the Speaker entry of 700 ms takes the place of the
    description of 0 ms and so precedes the description of 100 ms. *)
Lemma merge_output_order_counterexample :
  let combined := [upgradeSpeaker; upgradeDescription; upgradeBetween] in
  let out := dedupeNearDuplicates asciiToLowerCase
               (sortEntries compareEntries combined) 750 in
  out = [upgradeSpeaker; upgradeBetween]
  /\ mergeEntries asciiToLowerCase [upgradeSpeaker]
       [upgradeDescription; upgradeBetween]
     = [upgradeSpeaker; upgradeBetween]
  /\ combineTranscripts asciiToLowerCase upgradeSpokenSrt upgradeDescSrt
     = Returned (js "Speaker: x" ++ [10; 10] ++ js "Description: y")
  /\ ~ orderedBy entryLe out.
Proof.
  intros combined out.
  assert (Hout : out = [upgradeSpeaker; upgradeBetween])
    by (vm_compute; reflexivity).
  split_and!; [exact Hout|vm_compute; reflexivity|vm_compute; reflexivity|].
  rewrite Hout. intros H.
  specialize (H 0%nat 1%nat upgradeSpeaker upgradeBetween eq_refl eq_refl).
  unfold entryLe in H. simpl in H. lia.
Qed.

(** Witness of the amended C2 on the same entries. *)
Lemma merge_output_order_up_to_window_witness :
  let combined := [upgradeSpeaker; upgradeDescription; upgradeBetween] in
  let out := dedupeNearDuplicates asciiToLowerCase
               (sortEntries compareEntries combined) 750 in
  (out = out \/ out = mergeAdjacentSpeakers out)
  /\ out !! 0%nat = Some upgradeSpeaker
  /\ out !! 1%nat = Some upgradeBetween
  /\ (0 < 1)%nat
  /\ startMs upgradeSpeaker <= startMs upgradeBetween + 750.
Proof.
  intros combined out.
  assert (Ho : out = out \/ out = mergeAdjacentSpeakers out) by (by left).
  assert (Ha : out !! 0%nat = Some upgradeSpeaker) by (vm_compute; reflexivity).
  assert (Hb : out !! 1%nat = Some upgradeBetween) by (vm_compute; reflexivity).
  assert (Hij : (0 < 1)%nat) by lia.
  refine (conj Ho (conj Ha (conj Hb (conj Hij _)))).
  exact (proj1 (merge_output_order_up_to_window asciiToLowerCase combined out
                  0%nat 1%nat upgradeSpeaker upgradeBetween Ho Ha Hb Hij)).
Defined.

(** C3 fails: after the third turn the accumulator is out of start order,
    and on the fourth turn the scan stops at the description of 100 ms
    without visiting the Speaker entry of 700 ms, 200 ms before the
    candidate and with its key; the repetition is kept. *)
Lemma accumulator_order_counterexample :
  let items := [upgradeDescription; upgradeBetween; upgradeSpeaker;
                upgradeLate] in
  let acc := dedupeNearDuplicates asciiToLowerCase (take 3 items) 750 in
  StronglySorted startLe items
  /\ acc = [upgradeSpeaker; upgradeBetween]
  /\ ~ orderedBy startLe acc
  /\ scanBack asciiToLowerCase 750 acc upgradeLate
       (normalizeForCompare asciiToLowerCase (text upgradeLate))
       (length acc) = None
  /\ startMs upgradeLate - startMs upgradeSpeaker <= 750
  /\ normalizeForCompare asciiToLowerCase (text upgradeSpeaker)
     = normalizeForCompare asciiToLowerCase (text upgradeLate)
  /\ dedupeNearDuplicates asciiToLowerCase items 750
     = [upgradeSpeaker; upgradeBetween; upgradeLate].
Proof.
  intros items acc.
  assert (Hacc : acc = [upgradeSpeaker; upgradeBetween])
    by (vm_compute; reflexivity).
  split_and!.
  - repeat constructor; unfold startLe; simpl; lia.
  - exact Hacc.
  - rewrite Hacc. intros H.
    specialize (H 0%nat 1%nat upgradeSpeaker upgradeBetween eq_refl eq_refl).
    unfold startLe in H. simpl in H. lia.
  - vm_compute; reflexivity.
  - simpl; lia.
  - vm_compute; reflexivity.
  - vm_compute; reflexivity.
Qed.

(** Witness of the amended C3 on the same input. *)
Lemma accumulator_order_at_every_step_witness :
  let items := [upgradeDescription; upgradeBetween; upgradeSpeaker;
                upgradeLate] in
  let acc := dedupeNearDuplicates asciiToLowerCase (take 2 items) 750 in
  StronglySorted startLe items
  /\ forall i j a b, acc !! i = Some a -> acc !! j = Some b -> (i < j)%nat ->
       role a ≠ Speaker -> startMs a <= startMs b.
Proof.
  intros items acc.
  assert (Hs : StronglySorted startLe items)
    by (repeat constructor; unfold startLe; simpl; lia).
  split; [exact Hs|].
  exact (proj1 (accumulator_order_at_every_step asciiToLowerCase items 2 Hs)).
Defined.

(** An accumulator without the candidate's key gets the candidate
    appended. *)
Lemma dedupeStep_fresh (toLowerCase : jsstring -> jsstring) w
    (acc : list Entry) (current : Entry) :
  Forall (fun e => normalizeForCompare toLowerCase (text e)
                   ≠ normalizeForCompare toLowerCase (text current)) acc ->
  dedupeStep toLowerCase w acc current = acc ++ [current].
Proof.
  intros Hacc. unfold dedupeStep.
  destruct (scanBack_miss toLowerCase w [] acc current _ Hacc) as [H|H];
    simpl in H; rewrite H; done.
Qed.

Lemma combineTranscripts_blocks (toLowerCase : jsstring -> jsstring)
    (spokenSrt descriptiveSrt : jsstring) (sb db : list Block) :
  parseSrtToBlocks spokenSrt = Returned sb ->
  parseSrtToBlocks descriptiveSrt = Returned db ->
  combineTranscripts toLowerCase spokenSrt descriptiveSrt
  = Returned (join [10; 10]
                (map renderEntry
                   (mergeEntries toLowerCase (tagSpokenBlocks sb)
                      (tagDescriptiveBlocks db)))).
Proof. intros Hs Hd. unfold combineTranscripts. by rewrite Hs, Hd. Qed.

(** C4, as the code has it.  Whatever the layout of the two SRT texts,
    when the spoken track parses to the one cue at 1000 ms with text
    "Hi there" and the descriptive track to the one cue at 1500 ms with text
    "On-screen text: WELCOME", the output is the line "Speaker: Hi there",
    one blank line, then the line "On-screen text: WELCOME": the earlier
    start comes first. *)
Theorem scenario_output_speaker_first (toLowerCase : jsstring -> jsstring)
    (spokenSrt descriptiveSrt : jsstring) :
  toLowerCase (js "Hi there") = js "hi there" ->
  toLowerCase (js "WELCOME") = js "welcome" ->
  parseSrtToBlocks spokenSrt = Returned [mkBlock 1000 (js "Hi there")] ->
  parseSrtToBlocks descriptiveSrt
  = Returned [mkBlock 1500 (js "On-screen text: WELCOME")] ->
  combineTranscripts toLowerCase spokenSrt descriptiveSrt
  = Returned (js "Speaker: Hi there" ++ [10; 10]
              ++ js "On-screen text: WELCOME").
Proof.
  intros Hl1 Hl2 Hs Hd.
  rewrite (combineTranscripts_blocks toLowerCase _ _ _ _ Hs Hd).
  set (a := mkEntry 1000 Speaker (js "Hi there")).
  set (b := mkEntry 1500 OnScreenText (js "WELCOME")).
  assert (Ht1 : tagSpokenBlocks [mkBlock 1000 (js "Hi there")] = [a])
    by (vm_compute; reflexivity).
  assert (Ht2 : tagDescriptiveBlocks
                  [mkBlock 1500 (js "On-screen text: WELCOME")] = [b])
    by (vm_compute; reflexivity).
  assert (Hsort : sortEntries compareEntries ([a] ++ [b]) = [a; b])
    by (vm_compute; reflexivity).
  assert (Hkeys : normalizeForCompare toLowerCase (text a)
                  ≠ normalizeForCompare toLowerCase (text b)).
  { unfold normalizeForCompare, a, b, text. rewrite Hl1, Hl2.
    vm_compute. discriminate. }
  rewrite Ht1, Ht2. unfold mergeEntries. rewrite Hsort.
  rewrite dedupe_pair, dedupeStep_fresh by (by repeat constructor).
  vm_compute. reflexivity.
Qed.

(** Witness of C4: the two one-cue SRT texts. *)
Lemma scenario_output_speaker_first_witness :
  asciiToLowerCase (js "Hi there") = js "hi there"
  /\ asciiToLowerCase (js "WELCOME") = js "welcome"
  /\ parseSrtToBlocks scenarioSpokenSrt
     = Returned [mkBlock 1000 (js "Hi there")]
  /\ parseSrtToBlocks scenarioDescSrt
     = Returned [mkBlock 1500 (js "On-screen text: WELCOME")]
  /\ combineTranscripts asciiToLowerCase scenarioSpokenSrt scenarioDescSrt
     = Returned (js "Speaker: Hi there" ++ [10; 10]
                 ++ js "On-screen text: WELCOME").
Proof.
  assert (H1 : asciiToLowerCase (js "Hi there") = js "hi there")
    by (vm_compute; reflexivity).
  assert (H2 : asciiToLowerCase (js "WELCOME") = js "welcome")
    by (vm_compute; reflexivity).
  assert (H3 : parseSrtToBlocks scenarioSpokenSrt
               = Returned [mkBlock 1000 (js "Hi there")])
    by (vm_compute; reflexivity).
  assert (H4 : parseSrtToBlocks scenarioDescSrt
               = Returned [mkBlock 1500 (js "On-screen text: WELCOME")])
    by (vm_compute; reflexivity).
  split_and!; [exact H1|exact H2|exact H3|exact H4|].
  exact (scenario_output_speaker_first asciiToLowerCase scenarioSpokenSrt
           scenarioDescSrt H1 H2 H3 H4).
Defined.

(** C4 fails as written: the output does not start with the on-screen
    line. *)
Lemma scenario_output_counterexample :
  combineTranscripts asciiToLowerCase scenarioSpokenSrt scenarioDescSrt
  ≠ Returned (js "On-screen text: WELCOME" ++ [10; 10]
              ++ js "Speaker: Hi there").
Proof. vm_compute. discriminate. Qed.

(** ** The batch handler *)

(** C8, as the code has it.  When a batch yields more than one output
    file, the page offers the archive that [buildZip] makes of all of
    them, in order, under the name "Narrava_Combined_<count>_files.zip". *)
Theorem batch_archive_name (toLowerCase : jsstring -> jsstring)
    (clock : nat -> Date * Date) (page : Page)
    (spokenFiles descFiles : list UploadedFile)
    (outputs : list OutputFile) :
  batchOutputs toLowerCase spokenFiles descFiles = Returned outputs ->
  (1 < length outputs)%nat ->
  let page' := combineClick toLowerCase clock page spokenFiles descFiles in
  downloadHref page' = Some (ZipBlob (buildZip clock outputs))
  /\ downloadName page'
     = js "Narrava_Combined_" ++ decimal (length outputs) ++ js "_files.zip"
  /\ downloadBtnDisabled page' = false.
Proof.
  intros Hout Hlen. unfold combineClick. rewrite Hout.
  destruct outputs as [|o1 [|o2 rest]]; simpl in Hlen; [lia|lia|].
  done.
Qed.

Lemma batch_archive_name_witness :
  let clock := fun _ : nat => (noon, noon) in
  let outputs :=
    [mkOutputFile (js "YTP26-001_Descriptive_Transcript.txt")
       (js "Speaker: Hi there" ++ [10; 10] ++ js "On-screen text: WELCOME");
     mkOutputFile (js "YTP26-002b_Descriptive_Transcript.txt")
       (js "Speaker: Hi there" ++ [10; 10] ++ js "On-screen text: WELCOME")] in
  batchOutputs asciiToLowerCase batchSpoken batchDesc = Returned outputs
  /\ (1 < length outputs)%nat
  /\ downloadName
       (combineClick asciiToLowerCase clock blankPage batchSpoken batchDesc)
     = js "Narrava_Combined_2_files.zip".
Proof.
  intros clock outputs.
  assert (Hout : batchOutputs asciiToLowerCase batchSpoken batchDesc
                 = Returned outputs) by (vm_compute; reflexivity).
  assert (Hlen : (1 < length outputs)%nat) by (simpl; lia).
  refine (conj Hout (conj Hlen _)).
  exact (proj1 (proj2 (batch_archive_name asciiToLowerCase clock blankPage
                         batchSpoken batchDesc outputs Hout Hlen))).
Defined.

(** C8 fails as written: with two output files the download is not named
    "Combined_2_files.zip". *)
Lemma batch_archive_name_counterexample :
  let page' := combineClick asciiToLowerCase (fun _ => (noon, noon))
                 blankPage batchSpoken batchDesc in
  (exists outputs, batchOutputs asciiToLowerCase batchSpoken batchDesc
                   = Returned outputs /\ length outputs = 2%nat)
  /\ downloadName page' = js "Narrava_Combined_2_files.zip"
  /\ downloadName page' ≠ js "Combined_2_files.zip".
Proof.
  split_and!.
  - eexists. split; [vm_compute; reflexivity|reflexivity].
  - vm_compute. reflexivity.
  - vm_compute. discriminate.
Qed.

(** ** Identifier extraction *)

Lemma litCI_Some (w s r : jsstring) :
  litCI w s = Some r <->
  exists p, s = p ++ r /\ length p = length w
            /\ map foldCase p = map foldCase w.
Proof.
  revert s. induction w as [|x w IH]; intros s; simpl.
  - split.
    + intros [= ->]. by exists [].
    + intros (p & -> & Hp & _). by destruct p.
  - destruct s as [|c s].
    + split; [done|]. intros (p & Hs & Hp & _). by destruct p.
    + destruct (Z.eqb_spec (foldCase c) (foldCase x)) as [Heq|Hne].
      * rewrite IH. split.
        -- intros (p & -> & Hp & Hm). exists (c :: p). simpl.
           by rewrite Hp, Hm, Heq.
        -- intros (p & Hs & Hp & Hm). destruct p as [|c' p]; [done|].
           simpl in *. injection Hs as -> ->. injection Hm as _ Hm.
           exists p. split_and!; [done|lia|done].
      * split; [done|]. intros (p & Hs & Hp & Hm).
        destruct p as [|c' p]; [done|]. simpl in *.
        injection Hs as -> _. injection Hm as Hc _. done.
Qed.

Lemma digitsN_Some (n : nat) (s ds rest : jsstring) :
  digitsN n s = Some (ds, rest) <->
  s = ds ++ rest /\ length ds = n /\ Forall (fun c => isDigit c = true) ds.
Proof.
  revert s ds rest. induction n as [|n IH]; intros s ds rest; simpl.
  - split.
    + intros [= <- <-]. done.
    + intros (-> & Hl & _). by destruct ds.
  - destruct s as [|c s].
    + split; [done|]. intros (Hs & Hl & _). by destruct ds.
    + destruct (isDigit c) eqn:Hc.
      * destruct (digitsN n s) as [[ds' rest']|] eqn:Hd.
        -- apply IH in Hd as (-> & Hl & Hall). split.
           ++ intros [= <- <-]. split_and!; [done|simpl; lia|by constructor].
           ++ intros (Hs & Hl' & Hall'). destruct ds as [|d ds]; [done|].
              simpl in *. injection Hs as -> Hs.
              assert (Hlen : length ds = length ds') by lia.
              apply app_inj_1 in Hs as [-> ->]; done.
        -- split; [done|]. intros (Hs & Hl & Hall).
           destruct ds as [|d ds]; [done|]. simpl in *.
           injection Hs as -> ->. inversion Hall; subst.
           assert (digitsN n (ds ++ rest) = Some (ds, rest)) as Hx.
           { apply IH. split_and!; [done|lia|done]. }
           congruence.
      * split; [done|]. intros (Hs & Hl & Hall).
        destruct ds as [|d ds]; [done|]. simpl in *.
        injection Hs as -> _. inversion Hall; subst. congruence.
Qed.

Lemma foldCase_YTP26 : map foldCase (js "YTP26-") = js "YTP26-".
Proof. reflexivity. Qed.

(** The matcher at one position against the pattern on the text. *)
Lemma matchYtpAt_Some (s ds : jsstring) (l : option Z) :
  matchYtpAt s = Some (ds, l) <->
  exists rest, ytpMatchAt s ds rest
               /\ l = match rest with
                      | c :: _ => if isLetter c then Some c else None
                      | [] => None
                      end.
Proof.
  unfold matchYtpAt, ytpMatchAt. split.
  - destruct (litCI (js "YTP26-") s) as [r|] eqn:Hlit; [|done].
    cbn [mbind option_bind].
    destruct (digitsN 3 r) as [[ds' rest]|] eqn:Hd; [|done].
    cbn [mbind option_bind fst snd].
    intros [= <- <-].
    apply litCI_Some in Hlit as (p & -> & Hp & Hm).
    apply digitsN_Some in Hd as (-> & Hl & Hall).
    exists rest. split; [|done]. exists p.
    split_and!; done.
  - intros (rest & (p & -> & Hp & Hm & Hl & Hall) & ->).
    assert (Hlit : litCI (js "YTP26-") (p ++ ds ++ rest) = Some (ds ++ rest)).
    { apply litCI_Some. exists p. split_and!; [done|done|].
      by rewrite Hm, foldCase_YTP26. }
    rewrite Hlit. cbn [mbind option_bind].
    assert (Hd : digitsN 3 (ds ++ rest) = Some (ds, rest))
      by (by apply digitsN_Some).
    rewrite Hd. done.
Qed.

Lemma matchYtpAt_None (s : jsstring) :
  matchYtpAt s = None <-> forall ds rest, ~ ytpMatchAt s ds rest.
Proof.
  split.
  - intros Hn ds rest Hm.
    assert (matchYtpAt s = Some (ds, match rest with
                                     | c :: _ => if isLetter c then Some c
                                                 else None
                                     | [] => None
                                     end)) as Hx.
    { apply matchYtpAt_Some. by exists rest. }
    congruence.
  - intros Hn. destruct (matchYtpAt s) as [[ds l]|] eqn:Hm; [|done].
    apply matchYtpAt_Some in Hm as (rest & Hm & _). by destruct (Hn ds rest).
Qed.

(** The search returns the match at the first position that has one. *)
Lemma searchYtp_Some (s : jsstring) (g : jsstring * option Z) :
  searchYtp s = Some g <->
  exists k, matchYtpAt (drop k s) = Some g
            /\ forall k', (k' < k)%nat -> matchYtpAt (drop k' s) = None.
Proof.
  induction s as [|c s IH].
  - split; [done|].
    intros (k & Hk & _). rewrite drop_nil in Hk. done.
  - simpl. destruct (matchYtpAt (c :: s)) as [g'|] eqn:Hm.
    + split.
      * intros [= <-]. exists O. split; [done|lia].
      * intros (k & Hk & Hlt). destruct k as [|k]; [simpl in Hk; congruence|].
        specialize (Hlt O ltac:(lia)). simpl in Hlt. congruence.
    + rewrite IH. split.
      * intros (k & Hk & Hlt). exists (S k). split; [done|].
        intros [|k'] Hk'; [done|]. simpl. apply Hlt. lia.
      * intros (k & Hk & Hlt). destruct k as [|k]; [simpl in Hk; congruence|].
        exists k. split; [done|]. intros k' Hk'.
        apply (Hlt (S k')). lia.
Qed.

Lemma searchYtp_None (s : jsstring) :
  searchYtp s = None <-> forall k, matchYtpAt (drop k s) = None.
Proof.
  induction s as [|c s IH]; simpl.
  - split; [|done]. intros _ k. by rewrite drop_nil.
  - destruct (matchYtpAt (c :: s)) as [g'|] eqn:Hm.
    + split; [done|]. intros H. specialize (H O). simpl in H. congruence.
    + rewrite IH. split.
      * intros H [|k]; [done|]. apply H.
      * intros H k. apply (H (S k)).
Qed.

Lemma letter_lower (c : Z) : isLetter c = true -> isLowerAZ (asciiLower c) = true.
Proof.
  unfold isLetter, asciiLower, isLowerAZ, isUpperAZ. intros H.
  destruct (Z.leb_spec 65 c), (Z.leb_spec c 90), (Z.leb_spec 97 c),
    (Z.leb_spec c 122); simpl in *; try done; lia.
Qed.

(** The identifier returned for the leftmost occurrence. *)
Lemma extractYtpId_leftmost (s ds rest : jsstring) (k : nat) :
  ytpMatchAt (drop k s) ds rest ->
  (forall k', (k' < k)%nat -> ~ ytpOccursAt k' s) ->
  extractYtpId s = Some (js "YTP26-" ++ ds ++ optionalLetter rest).
Proof.
  intros Hm Hfirst. unfold extractYtpId.
  assert (Hne : nonEmpty s = true).
  { destruct s; [|done]. rewrite drop_nil in Hm.
    destruct Hm as (p & Hp & Hl & _). by destruct p. }
  rewrite Hne.
  assert (Hs : searchYtp s
               = Some (ds, match rest with
                           | c :: _ => if isLetter c then Some c else None
                           | [] => None
                           end)).
  { apply searchYtp_Some. exists k. split.
    - apply matchYtpAt_Some. by exists rest.
    - intros k' Hk'. apply matchYtpAt_None. intros ds' rest' Hm'.
      apply (Hfirst k' Hk'). by exists ds', rest'. }
  rewrite Hs. unfold optionalLetter.
  destruct rest as [|c rest]; [done|]. by destruct (isLetter c).
Qed.

(** Two texts that differ only in letter case. *)
Lemma foldCase_digit (c c' : Z) :
  foldCase c = foldCase c' -> isDigit c = true -> c' = c.
Proof.
  unfold foldCase, isLowerAZ, isDigit.
  destruct (Z.leb_spec 97 c), (Z.leb_spec c 122), (Z.leb_spec 97 c'),
    (Z.leb_spec c' 122), (Z.leb_spec 48 c), (Z.leb_spec c 57);
    simpl; intros; try done; lia.
Qed.

Lemma foldCase_letter (c c' : Z) :
  foldCase c = foldCase c' ->
  isLetter c = isLetter c'
  /\ (isLetter c = true -> asciiLower c = asciiLower c').
Proof.
  unfold foldCase, isLetter, asciiLower, isLowerAZ, isUpperAZ.
  destruct (Z.leb_spec 97 c), (Z.leb_spec c 122), (Z.leb_spec 97 c'),
    (Z.leb_spec c' 122), (Z.leb_spec 65 c), (Z.leb_spec c 90),
    (Z.leb_spec 65 c'), (Z.leb_spec c' 90);
    simpl; intros; split; intros; try done; lia.
Qed.

Lemma litCI_fold (w s t : jsstring) :
  map foldCase s = map foldCase t ->
  match litCI w s, litCI w t with
  | Some r, Some r' => map foldCase r = map foldCase r'
  | None, None => True
  | _, _ => False
  end.
Proof.
  revert s t. induction w as [|x w IH]; intros s t Hst; simpl; [done|].
  destruct s as [|c s], t as [|c' t]; simpl in Hst; try done.
  injection Hst as Hc Hst. rewrite Hc.
  destruct (foldCase c' =? foldCase x); [by apply IH|done].
Qed.

Lemma digitsN_fold (n : nat) (s t : jsstring) :
  map foldCase s = map foldCase t ->
  match digitsN n s, digitsN n t with
  | Some (ds, r), Some (ds', r') =>
      ds = ds' /\ map foldCase r = map foldCase r'
  | None, None => True
  | _, _ => False
  end.
Proof.
  revert s t. induction n as [|n IH]; intros s t Hst; simpl; [done|].
  destruct s as [|c s], t as [|c' t]; simpl in Hst; try done.
  injection Hst as Hc Hst.
  destruct (isDigit c) eqn:Hd.
  - rewrite (foldCase_digit c c' Hc Hd), Hd.
    specialize (IH s t Hst).
    destruct (digitsN n s) as [[ds r]|], (digitsN n t) as [[ds' r']|];
      try done.
    destruct IH as [-> ?]. done.
  - destruct (isDigit c') eqn:Hd'; [|done].
    symmetry in Hc. rewrite (foldCase_digit c' c Hc Hd') in Hd. congruence.
Qed.

(** The identifier built from a match. *)
Lemma matchYtpAt_fold (s t : jsstring) :
  map foldCase s = map foldCase t ->
  match matchYtpAt s, matchYtpAt t with
  | Some (ds, l), Some (ds', l') =>
      ds = ds' /\ (asciiLower <$> l) = (asciiLower <$> l')
  | None, None => True
  | _, _ => False
  end.
Proof.
  intros Hst. unfold matchYtpAt.
  pose proof (litCI_fold (js "YTP26-") s t Hst) as Hl.
  destruct (litCI (js "YTP26-") s) as [r|], (litCI (js "YTP26-") t) as [r'|];
    try done.
  cbn [mbind option_bind].
  pose proof (digitsN_fold 3 r r' Hl) as Hd.
  destruct (digitsN 3 r) as [[ds q]|], (digitsN 3 r') as [[ds' q']|];
    try done.
  cbn [mbind option_bind fst snd]. destruct Hd as [-> Hq]. split; [done|].
  destruct q as [|c q], q' as [|c' q']; simpl in Hq; try done.
  injection Hq as Hc _.
  destruct (foldCase_letter c c' Hc) as [Hiff Hlow]. rewrite <- Hiff.
  destruct (isLetter c); [|done]. simpl. by rewrite Hlow.
Qed.

Lemma searchYtp_fold (s t : jsstring) :
  map foldCase s = map foldCase t ->
  match searchYtp s, searchYtp t with
  | Some (ds, l), Some (ds', l') =>
      ds = ds' /\ (asciiLower <$> l) = (asciiLower <$> l')
  | None, None => True
  | _, _ => False
  end.
Proof.
  revert t. induction s as [|c s IH]; intros t Hst.
  - destruct t; [|done]. done.
  - destruct t as [|c' t]; [done|].
    pose proof (matchYtpAt_fold _ _ Hst) as Hm. simpl.
    destruct (matchYtpAt (c :: s)) as [[ds l]|],
      (matchYtpAt (c' :: t)) as [[ds' l']|]; try done.
    apply IH. simpl in Hst. by injection Hst.
Qed.

Lemma extractYtpId_fold (s t : jsstring) :
  map foldCase t = map foldCase s -> extractYtpId t = extractYtpId s.
Proof.
  intros Hst. unfold extractYtpId.
  assert (Hne : nonEmpty t = nonEmpty s).
  { destruct s, t; done. }
  rewrite Hne. destruct (nonEmpty s); [|done].
  pose proof (searchYtp_fold t s Hst) as Hs.
  destruct (searchYtp t) as [[ds l]|], (searchYtp s) as [[ds' l']|];
    try done.
  destruct Hs as [-> Hl].
  destruct l as [c|], l' as [c'|]; simpl in Hl; try done.
  by injection Hl as ->.
Qed.

(** C10.  The identifier is that of the leftmost occurrence of "YTP26-"
    (in any letter case) and three digits: the literal prefix "YTP26-", the
    digits, and the letter that follows them, if any, in lower case.  A
    text with an occurrence always yields an identifier of this canonical
    form, a text without one yields null, and two texts that differ only
    in letter case yield the same identifier. *)
Theorem extractYtpId_canonical (s : jsstring) :
  (forall (k : nat) (ds rest : jsstring),
     ytpMatchAt (drop k s) ds rest ->
     (forall k', (k' < k)%nat -> ~ ytpOccursAt k' s) ->
     extractYtpId s = Some (js "YTP26-" ++ ds ++ optionalLetter rest))
  /\ ((exists k, ytpOccursAt k s) ->
      exists id, extractYtpId s = Some id /\ canonicalId id)
  /\ ((forall k, ~ ytpOccursAt k s) -> extractYtpId s = None)
  /\ (forall t, map foldCase t = map foldCase s ->
                extractYtpId t = extractYtpId s).
Proof.
  split_and!.
  - intros k ds rest. apply extractYtpId_leftmost.
  - intros (k & ds & rest & Hm).
    destruct (searchYtp s) as [[ds' l]|] eqn:Hs.
    + apply searchYtp_Some in Hs as (k0 & Hk0 & Hfirst).
      apply matchYtpAt_Some in Hk0 as (rest' & Hm' & _).
      exists (js "YTP26-" ++ ds' ++ optionalLetter rest'). split.
      * apply (extractYtpId_leftmost s ds' rest' k0 Hm').
        intros k' Hk' (ds2 & rest2 & H2).
        specialize (Hfirst k' Hk').
        by apply (proj1 (matchYtpAt_None _) Hfirst ds2 rest2).
      * destruct Hm' as (p & _ & _ & _ & Hl & Hall).
        exists ds', (optionalLetter rest'). split_and!; try done.
        unfold optionalLetter. destruct rest' as [|c r]; [by left|].
        destruct (isLetter c) eqn:Hc; [|by left].
        right. exists (asciiLower c). split; [done|]. by apply letter_lower.
    + exfalso.
      pose proof (proj1 (searchYtp_None s) Hs k) as Hn.
      by apply (proj1 (matchYtpAt_None _) Hn ds rest).
  - intros Hno. unfold extractYtpId.
    assert (Hs : searchYtp s = None).
    { apply searchYtp_None. intros k. apply matchYtpAt_None.
      intros ds rest Hm. apply (Hno k). by exists ds, rest. }
    rewrite Hs. by destruct (nonEmpty s).
  - intros t. apply extractYtpId_fold.
Qed.

(** Witness of C10: the example of the claim. *)
Lemma extractYtpId_canonical_witness :
  let s := js "ytp26-042A" in
  ytpMatchAt (drop 0 s) (js "042") (js "A")
  /\ (forall k', (k' < 0)%nat -> ~ ytpOccursAt k' s)
  /\ extractYtpId s = Some (js "YTP26-042a").
Proof.
  intros s.
  assert (Hm : ytpMatchAt (drop 0 s) (js "042") (js "A")).
  { exists (js "ytp26-"). split_and!; try reflexivity.
    repeat constructor. }
  assert (Hf : forall k', (k' < 0)%nat -> ~ ytpOccursAt k' s) by lia.
  refine (conj Hm (conj Hf _)).
  exact (proj1 (extractYtpId_canonical s) 0%nat (js "042") (js "A") Hm Hf).
Defined.

(** ** The parser *)

(** The loop returns whenever the step bound exceeds the lines left; it
    never reaches the failing lookup. *)
Lemma parseLoop_returns (fuel : nat) (lines : list jsstring) (i : nat)
    (blocks : list Block) :
  (length lines - i < fuel)%nat ->
  exists bs, parseLoop fuel lines i blocks = Returned bs.
Proof.
  revert i blocks. induction fuel as [|fuel IH]; intros i blocks Hfuel;
    [lia|].
  simpl. destruct (Nat.ltb_spec i (length lines)) as [Hi|Hi]; [|by eexists].
  destruct (lookup_lt_is_Some_2 lines i Hi) as [line Hline]. rewrite Hline.
  destruct (execTimecode _) as [[[[h m] s] ms]|]; apply IH;
    destruct (isIndexLine (trim line)); lia.
Qed.

(** Lines without a time code produce no block. *)
Lemma parseLoop_no_timecode (fuel : nat) (lines : list jsstring) (i : nat)
    (blocks : list Block) :
  Forall (fun l => execTimecode l = None) lines ->
  (length lines - i < fuel)%nat ->
  parseLoop fuel lines i blocks = Returned blocks.
Proof.
  intros Hnone. revert i.
  induction fuel as [|fuel IH]; intros i Hfuel; [lia|].
  simpl. destruct (Nat.ltb_spec i (length lines)) as [Hi|Hi]; [|done].
  destruct (lookup_lt_is_Some_2 lines i Hi) as [line Hline]. rewrite Hline.
  set (i' := if isIndexLine (trim line) then S i else i).
  assert (Hex : execTimecode (default [] (lines !! i')) = None).
  { destruct (lines !! i') as [l|] eqn:Hl; simpl; [|done].
    eapply Forall_lookup_1 in Hnone; eauto. }
  rewrite Hex. apply IH. unfold i'.
  destruct (isIndexLine (trim line)); lia.
Qed.

(** C9.  [parseSrtToBlocks] returns a block sequence for every input: it
    neither throws nor runs on.  The empty input gives the empty
    sequence, and so does every input none of whose lines holds a time
    code pair. *)
Theorem parseSrtToBlocks_total (srtString : jsstring) :
  (exists blocks, parseSrtToBlocks srtString = Returned blocks)
  /\ parseSrtToBlocks [] = Returned []
  /\ (Forall (fun l => execTimecode l = None) (srtLines srtString) ->
      parseSrtToBlocks srtString = Returned []).
Proof.
  split_and!.
  - apply parseLoop_returns. lia.
  - reflexivity.
  - intros Hnone. apply parseLoop_no_timecode; [done|lia].
Qed.

(** Witness of C9: an index line, a time code cut short and stray text. *)
Lemma parseSrtToBlocks_total_witness :
  let s := js "7" ++ [13; 10] ++ js "00:00:01,000 -->" ++ [10]
           ++ js "stray line" in
  Forall (fun l => execTimecode l = None) (srtLines s)
  /\ parseSrtToBlocks s = Returned [].
Proof.
  intros s.
  assert (Hnone : Forall (fun l => execTimecode l = None) (srtLines s)).
  { vm_compute srtLines. repeat constructor. }
  refine (conj Hnone _).
  exact (proj2 (proj2 (parseSrtToBlocks_total s)) Hnone).
Defined.

(** ** The ZIP writer *)

Lemma byteOf_range (v k : Z) : 0 <= byteOf v k < 256.
Proof. unfold byteOf. apply Z.mod_pos_bound. lia. Qed.

(** The four bytes of a 32-bit value put it together again. *)
Lemma bytes_of_uint32 (v : Z) :
  0 <= v < 2 ^ 32 ->
  byteOf v 0 + 256 * byteOf v 1 + 65536 * byteOf v 2
  + 16777216 * byteOf v 3 = v.
Proof.
  intros Hv. unfold byteOf.
  change (256 ^ 0) with 1. change (256 ^ 1) with 256.
  change (256 ^ 2) with (256 * 256).
  change (256 ^ 3) with (256 * 256 * 256).
  rewrite Z.div_1_r.
  rewrite <- !Z.div_div by lia.
  pose proof (Z.div_mod v 256 ltac:(lia)) as H0.
  pose proof (Z.div_mod (v / 256) 256 ltac:(lia)) as H1.
  pose proof (Z.div_mod (v / 256 / 256) 256 ltac:(lia)) as H2.
  pose proof (Z.div_mod (v / 256 / 256 / 256) 256 ltac:(lia)) as H3.
  assert (v / 256 / 256 / 256 / 256 = 0) as H4.
  { rewrite !Z.div_div by lia. apply Z.div_small. lia. }
  lia.
Qed.

Lemma toUint32_range (v : Z) : 0 <= toUint32 v < 2 ^ 32.
Proof. unfold toUint32. apply Z.mod_pos_bound. lia. Qed.

Lemma toUint32_small (v : Z) : 0 <= v < 2 ^ 32 -> toUint32 v = v.
Proof. intros H. unfold toUint32. by apply Z.mod_small. Qed.

Lemma length_setUint16 (b : list Z) (p : nat) (v : Z) :
  length (setUint16 b p v) = length b.
Proof. unfold setUint16. by rewrite !length_insert. Qed.

Lemma length_setUint32 (b : list Z) (p : nat) (v : Z) :
  length (setUint32 b p v) = length b.
Proof. unfold setUint32. by rewrite !length_insert. Qed.

(** A field reads back what was stored in it. *)
Lemma getUint32_setUint32 (b : list Z) (p : nat) (v : Z) :
  (p + 4 <= length b)%nat ->
  getUint32 (setUint32 b p v) p = toUint32 v.
Proof.
  intros Hp. unfold getUint32, setUint32.
  rewrite list_lookup_insert_ne by lia.
  rewrite list_lookup_insert_ne by lia.
  rewrite list_lookup_insert_ne by lia.
  rewrite list_lookup_insert_eq by lia.
  rewrite list_lookup_insert_ne by lia.
  rewrite list_lookup_insert_ne by lia.
  rewrite list_lookup_insert_eq by (rewrite length_insert; lia).
  rewrite list_lookup_insert_ne by lia.
  rewrite list_lookup_insert_eq by (rewrite !length_insert; lia).
  rewrite list_lookup_insert_eq by (rewrite !length_insert; lia).
  simpl. apply bytes_of_uint32, toUint32_range.
Qed.

(** Writes elsewhere leave a field alone. *)
Lemma getUint32_setUint32_other (b : list Z) (p q : nat) (v : Z) :
  (q + 4 <= p \/ p + 4 <= q)%nat ->
  getUint32 (setUint32 b q v) p = getUint32 b p.
Proof.
  intros Hpq. unfold getUint32, setUint32.
  by rewrite !list_lookup_insert_ne by lia.
Qed.

Lemma getUint32_setUint16_other (b : list Z) (p q : nat) (v : Z) :
  (q + 2 <= p \/ p + 4 <= q)%nat ->
  getUint32 (setUint16 b q v) p = getUint32 b p.
Proof.
  intros Hpq. unfold getUint32, setUint16.
  by rewrite !list_lookup_insert_ne by lia.
Qed.

Lemma length_localFileHeader (t d crc size n : Z) :
  length (localFileHeader t d crc size n) = 30%nat.
Proof.
  unfold localFileHeader. cbn [putUint32 putUint16 fst Nat.add].
  by rewrite ?length_setUint16, ?length_setUint32.
Qed.

Lemma length_centralHeader (t d crc size n off : Z) :
  length (centralHeader t d crc size n off) = 46%nat.
Proof.
  unfold centralHeader. cbn [putUint32 putUint16 fst Nat.add].
  by rewrite ?length_setUint16, ?length_setUint32.
Qed.

Lemma length_endRecord (count size start : Z) :
  length (endRecord count size start) = 22%nat.
Proof.
  unfold endRecord. cbn [putUint32 putUint16 fst Nat.add].
  by rewrite ?length_setUint16, ?length_setUint32.
Qed.

(** The local header opens with its signature. *)
Lemma localFileHeader_signature (t d crc size n : Z) :
  getUint32 (localFileHeader t d crc size n) 0 = 67324752.
Proof.
  unfold localFileHeader. cbn [putUint32 putUint16 fst Nat.add].
  rewrite !getUint32_setUint16_other by lia.
  rewrite !getUint32_setUint32_other by lia.
  rewrite !getUint32_setUint16_other by lia.
  by rewrite getUint32_setUint32 by (simpl; lia).
Qed.

(** The central record opens with its signature and ends with the
    recorded local header offset, reduced to 32 bits. *)
Lemma centralHeader_signature (t d crc size n off : Z) :
  getUint32 (centralHeader t d crc size n off) 0 = 33639248.
Proof.
  unfold centralHeader. cbn [putUint32 putUint16 fst Nat.add].
  rewrite !getUint32_setUint32_other by lia.
  rewrite !getUint32_setUint16_other by lia.
  rewrite !getUint32_setUint32_other by lia.
  rewrite !getUint32_setUint16_other by lia.
  by rewrite getUint32_setUint32 by (simpl; lia).
Qed.

Lemma centralHeader_offset (t d crc size n off : Z) :
  getUint32 (centralHeader t d crc size n off) 42 = toUint32 off.
Proof.
  unfold centralHeader. cbn [putUint32 putUint16 fst Nat.add].
  apply getUint32_setUint32.
  rewrite ?length_setUint16, ?length_setUint32. simpl. lia.
Qed.

(** The end record holds the size and the start of the central
    directory, each reduced to 32 bits. *)
Lemma endRecord_size (count size start : Z) :
  getUint32 (endRecord count size start) 12 = toUint32 size.
Proof.
  unfold endRecord. cbn [putUint32 putUint16 fst Nat.add].
  rewrite getUint32_setUint16_other by lia.
  rewrite getUint32_setUint32_other by lia.
  apply getUint32_setUint32.
  rewrite ?length_setUint16, ?length_setUint32. simpl. lia.
Qed.

Lemma endRecord_start (count size start : Z) :
  getUint32 (endRecord count size start) 16 = toUint32 start.
Proof.
  unfold endRecord. cbn [putUint32 putUint16 fst Nat.add].
  rewrite getUint32_setUint16_other by lia.
  apply getUint32_setUint32.
  rewrite ?length_setUint16, ?length_setUint32. simpl. lia.
Qed.

(** Positions of chunks. *)
Lemma chunkStart_app_le (cs cs' : list (list Z)) (k : nat) :
  (k <= length cs)%nat -> chunkStart (cs ++ cs') k = chunkStart cs k.
Proof. intros Hk. unfold chunkStart. by rewrite take_app_le. Qed.

Lemma chunkStart_app_length (cs cs' : list (list Z)) (k : nat) :
  chunkStart (cs ++ cs') (length cs + k)
  = (length (concat cs) + chunkStart cs' k)%nat.
Proof.
  unfold chunkStart. rewrite take_app_add.
  by rewrite concat_app, length_app.
Qed.

Lemma chunkStart_length (cs : list (list Z)) :
  chunkStart cs (length cs) = length (concat cs).
Proof. unfold chunkStart. by rewrite firstn_all. Qed.

Lemma chunkStart_le (cs : list (list Z)) (k : nat) :
  (chunkStart cs k <= length (concat cs))%nat.
Proof.
  unfold chunkStart. rewrite <- (take_drop k cs) at 2.
  rewrite concat_app, length_app. lia.
Qed.

Lemma chunkStart_mono (cs : list (list Z)) (j k : nat) :
  (j <= k)%nat -> (chunkStart cs j <= chunkStart cs k)%nat.
Proof.
  intros Hjk. unfold chunkStart.
  replace (take j cs) with (take j (take k cs))
    by (rewrite take_take; f_equal; lia).
  apply chunkStart_le.
Qed.

(** A field that lies inside chunk [k] reads the same in the chunk and in
    the concatenation. *)
Lemma lookup_concat_chunk (cs : list (list Z)) (k q : nat) (c : list Z) :
  cs !! k = Some c ->
  (q < length c)%nat ->
  concat cs !! (chunkStart cs k + q)%nat = c !! q.
Proof.
  revert k. induction cs as [|c0 cs IH]; intros k Hk Hq; [done|].
  destruct k as [|k]; simpl in Hk.
  - injection Hk as ->. simpl. by rewrite lookup_app_l.
  - unfold chunkStart. simpl. rewrite length_app.
    rewrite lookup_app_r by lia.
    replace (length c0 + length (concat (take k cs)) + q - length c0)%nat
      with (chunkStart cs k + q)%nat by (unfold chunkStart; lia).
    by apply IH.
Qed.

Lemma getUint32_concat (cs : list (list Z)) (k p : nat) (c : list Z) :
  cs !! k = Some c ->
  (p + 4 <= length c)%nat ->
  getUint32 (concat cs) (chunkStart cs k + p) = getUint32 c p.
Proof.
  intros Hk Hp. unfold getUint32.
  replace (S (chunkStart cs k + p)) with (chunkStart cs k + S p)%nat by lia.
  replace (S (chunkStart cs k + S p))
    with (chunkStart cs k + S (S p))%nat by lia.
  replace (S (chunkStart cs k + S (S p)))
    with (chunkStart cs k + S (S (S p)))%nat by lia.
  by rewrite !(lookup_concat_chunk cs k _ c Hk) by lia.
Qed.

Lemma centralChunks_length (es : list (list Z * list Z)) :
  length (centralChunks es) = (2 * length es)%nat.
Proof. induction es as [|e es IH]; simpl; [done|]. rewrite IH. lia. Qed.

Lemma centralChunks_lookup (es : list (list Z * list Z)) (i : nat)
    (e : list Z * list Z) :
  es !! i = Some e ->
  centralChunks es !! (2 * i)%nat = Some e.1
  /\ centralChunks es !! (2 * i + 1)%nat = Some e.2.
Proof.
  revert i. induction es as [|e' es IH]; intros i Hi; [done|].
  destruct i as [|i]; simpl in Hi.
  - injection Hi as ->. done.
  - destruct (IH i Hi) as [H1 H2].
    replace (2 * S i)%nat with (S (S (2 * i))) by lia.
    replace (S (S (2 * i)) + 1)%nat with (S (S (2 * i + 1))) by lia.
    done.
Qed.

(** The first loop of [toUint8Array]. *)
Lemma fold_pushCentral (es : list (list Z * list Z)) (w : ZipWriter) :
  fold_left pushCentral es w
  = mkZipWriter (centralDirectory w)
      (offset w + Z.of_nat (length (concat (centralChunks es))))
      (chunks w ++ centralChunks es).
Proof.
  revert w. induction es as [|e es IH]; intros w.
  - simpl. rewrite Z.add_0_r, app_nil_r. by destruct w.
  - simpl. rewrite IH. unfold pushCentral, _push. simpl.
    f_equal.
    + rewrite !length_app. lia.
    + by rewrite <- !app_assoc.
Qed.

Lemma chunks_sealed (w : ZipWriter) :
  chunks (sealed w)
  = chunks w ++ centralChunks (centralDirectory w)
    ++ [endRecord (Z.of_nat (length (centralDirectory w)))
          (Z.of_nat (length (concat (centralChunks (centralDirectory w)))))
          (offset w)].
Proof.
  unfold sealed. rewrite fold_pushCentral. unfold _push. simpl.
  rewrite <- app_assoc. do 2 f_equal. f_equal. f_equal. lia.
Qed.

(** The invariant of the writer. *)
Lemma newZipWriter_inv : writerInv [] newZipWriter.
Proof. split_and!; try done. Qed.

Lemma addFile_inv (files : list OutputFile) (w : ZipWriter)
    (f : OutputFile) (now : Date * Date) :
  writerInv files w ->
  writerInv (files ++ [f]) (addFile w (name f) (utf8Encode (content f)) now).
Proof.
  intros (Hcd & Hch & Hoff & Hfiles).
  unfold addFile, _push, writerInv. cbn [centralDirectory offset chunks].
  set (lh := localFileHeader _ _ _ _ _).
  set (cd := centralHeader _ _ _ _ _ _).
  split_and!.
  - rewrite !length_app, Hcd. simpl. lia.
  - rewrite !length_app, Hch. simpl. lia.
  - rewrite Hoff, !concat_app, !length_app. simpl.
    rewrite ?app_nil_r. lia.
  - intros i g Hi.
    rewrite <- !app_assoc. cbn [app].
    destruct (decide (i < length files)%nat) as [Hlt|Hge].
    + rewrite lookup_app_l in Hi by done.
      destruct (Hfiles i g Hi) as ((lh' & H1 & H2 & H3) & Hn & Hd & cd'
                                   & Hc1 & Hc2 & Hc3 & Hc4).
      rewrite !lookup_app_l by lia.
      split_and!; [by exists lh'|done|done|].
      exists cd'. split_and!; try done.
      rewrite Hc4. by rewrite chunkStart_app_le by lia.
    + rewrite lookup_app_r in Hi by lia.
      assert (i = length files) as ->.
      { apply lookup_lt_Some in Hi. simpl in Hi. lia. }
      rewrite Nat.sub_diag in Hi. injection Hi as <-.
      rewrite !lookup_app_r by lia.
      rewrite <- Hch, <- Hcd.
      replace (length (chunks w) - length (chunks w))%nat with O by lia.
      replace (length (chunks w) + 1 - length (chunks w))%nat with 1%nat
        by lia.
      replace (length (chunks w) + 2 - length (chunks w))%nat with 2%nat
        by lia.
      replace (length (centralDirectory w) - length (centralDirectory w))%nat
        with O by lia.
      split_and!; [|done|done|].
      * exists lh. split_and!; [done|apply length_localFileHeader|
                                 apply localFileHeader_signature].
      * exists cd. split_and!; [done|apply length_centralHeader|
                                 apply centralHeader_signature|].
        unfold cd. rewrite centralHeader_offset. f_equal.
        replace (length (chunks w)) with (length (chunks w) + 0)%nat at 1
          by lia.
        rewrite chunkStart_app_length. unfold chunkStart. simpl. lia.
Qed.

Lemma addFiles_inv (clock : nat -> Date * Date) (files : list OutputFile) :
  forall (done : list OutputFile) (w : ZipWriter) (k : nat),
    writerInv done w -> writerInv (done ++ files) (addFiles w clock k files).
Proof.
  induction files as [|f files IH]; intros done w k Hinv; simpl.
  - by rewrite app_nil_r.
  - replace (done ++ f :: files) with ((done ++ [f]) ++ files)
      by (by rewrite <- app_assoc).
    apply IH. by apply addFile_inv.
Qed.

Lemma zipWriterOf_inv (clock : nat -> Date * Date) (files : list OutputFile) :
  writerInv files (zipWriterOf clock files).
Proof. apply (addFiles_inv clock files [] newZipWriter O newZipWriter_inv). Qed.

Lemma chunkStart_app_at (cs cs' : list (list Z)) :
  chunkStart (cs ++ cs') (length cs) = length (concat cs).
Proof. rewrite chunkStart_app_le by lia. apply chunkStart_length. Qed.

(** The fields of the finished archive, as stored: every offset reduced
    to 32 bits. *)
Lemma archive_fields (clock : nat -> Date * Date) (files : list OutputFile) :
  let w := zipWriterOf clock files in
  let cs := chunks (sealed w) in
  let n := length files in
  (forall (i : nat) (f : OutputFile),
     files !! i = Some f ->
     (exists lh, cs !! (3 * i)%nat = Some lh /\ length lh = 30%nat
                 /\ getUint32 lh 0 = 67324752)
     /\ cs !! (3 * i + 1)%nat = Some (utf8Encode (name f))
     /\ cs !! (3 * i + 2)%nat = Some (utf8Encode (content f))
     /\ exists cd, cs !! (3 * n + 2 * i)%nat = Some cd /\ length cd = 46%nat
                   /\ getUint32 cd 0 = 33639248
                   /\ getUint32 cd 42
                      = toUint32 (Z.of_nat (chunkStart cs (3 * i))))
  /\ exists e, cs !! (5 * n)%nat = Some e /\ length e = 22%nat
               /\ getUint32 e 16 = toUint32 (Z.of_nat (chunkStart cs (3 * n)))
               /\ getUint32 e 12
                  = toUint32 (Z.of_nat (chunkStart cs (5 * n))
                              - Z.of_nat (chunkStart cs (3 * n))).
Proof.
  intros w cs n.
  destruct (zipWriterOf_inv clock files) as (Hcd & Hch & Hoff & Hfiles).
  fold w in Hcd, Hch, Hoff, Hfiles.
  assert (Hcs : cs = chunks w ++ centralChunks (centralDirectory w)
                     ++ [endRecord (Z.of_nat (length (centralDirectory w)))
                           (Z.of_nat (length (concat (centralChunks
                                                        (centralDirectory w)))))
                           (offset w)])
    by apply chunks_sealed.
  pose proof (centralChunks_length (centralDirectory w)) as Hcl.
  split.
  - intros i f Hi. pose proof (lookup_lt_Some _ _ _ Hi) as Hlt.
    destruct (Hfiles i f Hi) as ((lh & H1 & H2 & H3) & Hnm & Hdt & cd
                                 & Hc1 & Hc2 & Hc3 & Hc4).
    rewrite Hcs. split_and!.
    + exists lh. rewrite lookup_app_l by lia. done.
    + by rewrite lookup_app_l by lia.
    + by rewrite lookup_app_l by lia.
    + exists cd. split_and!; try done.
      * rewrite lookup_app_r by lia. rewrite lookup_app_l by lia.
        replace (3 * n + 2 * i - length (chunks w))%nat with (2 * i)%nat
          by lia.
        by destruct (centralChunks_lookup _ _ _ Hc1) as [-> _].
      * rewrite Hc4. by rewrite chunkStart_app_le by lia.
  - eexists. rewrite Hcs. split_and!.
    + rewrite app_assoc. rewrite lookup_app_r by (rewrite length_app; lia).
      rewrite length_app.
      replace (5 * n - (length (chunks w)
                        + length (centralChunks (centralDirectory w))))%nat
        with O by lia.
      reflexivity.
    + apply length_endRecord.
    + rewrite endRecord_start. f_equal.
      replace (3 * n)%nat with (length (chunks w)) by lia.
      rewrite chunkStart_app_at. lia.
    + rewrite endRecord_size. f_equal.
      replace (3 * n)%nat with (length (chunks w)) by lia.
      rewrite chunkStart_app_at.
      replace (5 * n)%nat
        with (length (chunks w ++ centralChunks (centralDirectory w)))
        by (rewrite length_app; lia).
      rewrite app_assoc, chunkStart_app_at, concat_app, length_app. lia.
Qed.

(** C1, as the code has it.  In an archive of fewer than 2^32 bytes, the
    local header of file [i] is the chunk that begins at byte
    [chunkStart cs (3 * i)], followed by the chunks of its name and its
    content; its central directory record is the chunk that begins at
    [chunkStart cs (3 * n + 2 * i)], and the end record the chunk that
    begins at [chunkStart cs (5 * n)]; the local-header-offset field
    of each central record, read from the finished buffer, is the byte
    position of that local header, and the end record's start and size
    fields are the byte position of the first central record and the
    length of all central records. *)
Theorem archive_offsets_match_positions (clock : nat -> Date * Date)
    (files : list OutputFile) :
  let cs := chunks (sealed (zipWriterOf clock files)) in
  let buf := buildZip clock files in
  let n := length files in
  Z.of_nat (length buf) < 2 ^ 32 ->
  buf = concat cs
  /\ (forall (i : nat) (f : OutputFile),
        files !! i = Some f ->
        getUint32 buf (chunkStart cs (3 * i)) = 67324752
        /\ cs !! (3 * i + 1)%nat = Some (utf8Encode (name f))
        /\ cs !! (3 * i + 2)%nat = Some (utf8Encode (content f))
        /\ getUint32 buf (chunkStart cs (3 * n + 2 * i)) = 33639248
        /\ getUint32 buf (chunkStart cs (3 * n + 2 * i) + 42)
           = Z.of_nat (chunkStart cs (3 * i)))
  /\ getUint32 buf (chunkStart cs (5 * n) + 16)
     = Z.of_nat (chunkStart cs (3 * n))
  /\ getUint32 buf (chunkStart cs (5 * n) + 12)
     = Z.of_nat (chunkStart cs (5 * n)) - Z.of_nat (chunkStart cs (3 * n)).
Proof.
  intros cs buf n Hlen.
  assert (Hbuf : buf = concat cs) by reflexivity.
  destruct (archive_fields clock files) as (Hfiles & e & He & Hel & He16 & He12).
  fold cs in Hfiles, He, He16, He12. fold n in Hfiles, He, He16, He12.
  assert (Hpos : forall k, 0 <= Z.of_nat (chunkStart cs k) < 2 ^ 32).
  { intros k. pose proof (chunkStart_le cs k). rewrite Hbuf in Hlen. lia. }
  split_and!; [done| | |].
  - intros i f Hi.
    destruct (Hfiles i f Hi) as ((lh & H1 & H2 & H3) & Hnm & Hdt & cd & Hc1
                                 & Hc2 & Hc3 & Hc4).
    rewrite Hbuf. split_and!; [|exact Hnm|exact Hdt| |].
    + replace (chunkStart cs (3 * i)) with (chunkStart cs (3 * i) + 0)%nat
        by lia.
      rewrite (getUint32_concat cs _ _ lh H1) by lia. exact H3.
    + replace (chunkStart cs (3 * n + 2 * i))
        with (chunkStart cs (3 * n + 2 * i) + 0)%nat by lia.
      rewrite (getUint32_concat cs _ _ cd Hc1) by lia. exact Hc3.
    + rewrite (getUint32_concat cs _ _ cd Hc1) by lia.
      rewrite Hc4. by apply toUint32_small.
  - rewrite Hbuf, (getUint32_concat cs _ _ e He) by lia.
    rewrite He16. by apply toUint32_small.
  - rewrite Hbuf, (getUint32_concat cs _ _ e He) by lia.
    rewrite He12. apply toUint32_small.
    pose proof (chunkStart_mono cs (3 * n) (5 * n) ltac:(lia)).
    pose proof (Hpos (5 * n)%nat). lia.
Qed.

(** Witness of C1: two small files. *)
Lemma archive_offsets_match_positions_witness :
  let clock := fun _ : nat => (noon, noon) in
  let cs := chunks (sealed (zipWriterOf clock smallFiles)) in
  let buf := buildZip clock smallFiles in
  Z.of_nat (length buf) < 2 ^ 32
  /\ getUint32 buf (chunkStart cs 10 + 16) = Z.of_nat (chunkStart cs 6).
Proof.
  intros clock cs buf.
  assert (Hlen : Z.of_nat (length buf) < 2 ^ 32) by (vm_compute; reflexivity).
  refine (conj Hlen _).
  exact (proj1 (proj2 (proj2 (archive_offsets_match_positions clock
                                smallFiles Hlen)))).
Defined.

(** ASCII text is its own UTF-8 encoding. *)
Lemma utf8Encode_ascii (s : jsstring) :
  Forall (fun c => c < 128) s -> utf8Encode s = s.
Proof.
  induction 1 as [|c s Hc Hs IH]; simpl; [done|].
  destruct (Z.ltb_spec c 128); [|lia]. by rewrite IH.
Qed.

(** The chunk lengths after adding files: 30, the name, the data. *)
Lemma addFiles_chunk_lengths (clock : nat -> Date * Date)
    (files : list OutputFile) (w : ZipWriter) (k : nat) :
  map length (chunks (addFiles w clock k files))
  = map length (chunks w)
    ++ flat_map (fun f => [30%nat; length (utf8Encode (name f));
                           length (utf8Encode (content f))]) files.
Proof.
  revert w k. induction files as [|f files IH]; intros w k; simpl.
  - by rewrite app_nil_r.
  - rewrite IH. unfold addFile, _push. cbn [chunks].
    rewrite !map_app. cbn [map]. rewrite length_localFileHeader.
    by rewrite <- !app_assoc.
Qed.

Lemma chunkStart_lengths (cs : list (list Z)) (k : nat) :
  chunkStart cs k = list_sum (take k (map length cs)).
Proof.
  unfold chunkStart. rewrite length_concat. by rewrite <- firstn_map.
Qed.

(** Ten files of 500 000 000 ASCII characters: the tenth local header and
    the central directory begin beyond 2^32, and the stored fields hold
    the remainders. *)
Lemma big_archive_fields (body : jsstring) :
  Forall (fun c => c < 128) body ->
  Z.of_nat (length body) = 500000000 ->
  let files := replicate 10 (mkOutputFile (js "a.txt") body) in
  let clock := fun _ : nat => (noon, noon) in
  let cs := chunks (sealed (zipWriterOf clock files)) in
  let buf := buildZip clock files in
  Z.of_nat (chunkStart cs 27) = 4500000315
  /\ getUint32 buf (chunkStart cs 27) = 67324752
  /\ getUint32 buf (chunkStart cs 48 + 42) = 205033019
  /\ Z.of_nat (chunkStart cs 30) = 5000000350
  /\ getUint32 buf (chunkStart cs 50 + 16) = 705033054.
Proof.
  intros Hascii Hlen files clock cs buf.
  assert (Hbuf : buf = concat cs) by reflexivity.
  assert (Hcs : cs = chunks (zipWriterOf clock files)
                     ++ centralChunks (centralDirectory (zipWriterOf clock files))
                     ++ [endRecord
                           (Z.of_nat (length (centralDirectory
                                                (zipWriterOf clock files))))
                           (Z.of_nat (length (concat (centralChunks
                              (centralDirectory (zipWriterOf clock files))))))
                           (offset (zipWriterOf clock files))])
    by apply chunks_sealed.
  destruct (zipWriterOf_inv clock files) as (_ & Hch & _ & _).
  assert (Hn : length files = 10%nat) by reflexivity.
  assert (Hlens : map length (chunks (zipWriterOf clock files))
                  = flat_map (fun _ => [30%nat; 5%nat; length body])
                      (replicate 10 ())).
  { unfold zipWriterOf. rewrite addFiles_chunk_lengths.
    unfold files. simpl. by rewrite (utf8Encode_ascii body Hascii). }
  assert (Hstart : forall k, (k <= 30)%nat ->
            chunkStart cs k
            = list_sum (take k (flat_map (fun _ => [30%nat; 5%nat; length body])
                                  (replicate 10 ())))).
  { intros k Hk. rewrite Hcs, chunkStart_app_le by lia.
    by rewrite chunkStart_lengths, Hlens. }
  assert (H27 : Z.of_nat (chunkStart cs 27) = 4500000315).
  { rewrite Hstart by lia. simpl. lia. }
  assert (H30 : Z.of_nat (chunkStart cs 30) = 5000000350).
  { rewrite Hstart by lia. simpl. lia. }
  destruct (archive_fields clock files) as (Hfiles & e & He & Hel & He16 & _).
  fold cs in Hfiles, He, He16.
  destruct (Hfiles 9%nat (mkOutputFile (js "a.txt") body) eq_refl)
    as ((lh & H1 & H2 & H3) & _ & _ & cd & Hc1 & Hc2 & _ & Hc4).
  rewrite Hn in Hc1, He, He16.
  change (3 * 10 + 2 * 9)%nat with 48%nat in Hc1.
  change (5 * 10)%nat with 50%nat in He.
  change (3 * 10)%nat with 30%nat in He16.
  change (3 * 9)%nat with 27%nat in H1, Hc4.
  split_and!; [done| | |done|].
  - rewrite Hbuf.
    replace (chunkStart cs 27) with (chunkStart cs 27 + 0)%nat by lia.
    rewrite (getUint32_concat cs _ _ lh H1) by lia. exact H3.
  - rewrite Hbuf, (getUint32_concat cs _ _ cd Hc1) by lia.
    rewrite Hc4, H27. reflexivity.
  - rewrite Hbuf, (getUint32_concat cs _ _ e He) by lia.
    rewrite He16, H30. reflexivity.
Qed.

(** C1 fails for an archive beyond 4 GiB: the tenth file's local header
    begins at byte 4 500 000 315 while its central record stores
    205 033 019, and the central directory begins at byte 5 000 000 350
    while the end record stores 705 033 054. *)
Lemma archive_offsets_counterexample :
  let clock := fun _ : nat => (noon, noon) in
  let cs := chunks (sealed (zipWriterOf clock bigFiles)) in
  let buf := buildZip clock bigFiles in
  Z.of_nat (chunkStart cs 27) = 4500000315
  /\ getUint32 buf (chunkStart cs 27) = 67324752
  /\ getUint32 buf (chunkStart cs 48 + 42) = 205033019
  /\ Z.of_nat (chunkStart cs 30) = 5000000350
  /\ getUint32 buf (chunkStart cs 50 + 16) = 705033054
  /\ getUint32 buf (chunkStart cs 48 + 42) ≠ Z.of_nat (chunkStart cs 27)
  /\ getUint32 buf (chunkStart cs 50 + 16) ≠ Z.of_nat (chunkStart cs 30).
Proof.
  assert (Hbig : Forall (fun c => c < 128) bigBody
                 /\ Z.of_nat (length bigBody) = 500000000).
  { unfold bigBody. split; [by apply Forall_replicate|].
    rewrite length_replicate. by apply Z2Nat.id. }
  destruct Hbig as [Hascii Hlen].
  destruct (big_archive_fields bigBody Hascii Hlen)
    as (H1 & H2 & H3 & H4 & H5).
  fold bigFiles in H1, H2, H3, H4, H5.
  intros clock cs buf.
  split_and!; [exact H1|exact H2|exact H3|exact H4|exact H5| |].
  - unfold buf, cs, clock. rewrite H3, H1. done.
  - unfold buf, cs, clock. rewrite H5, H4. done.
Qed.

(** ** The embedding on small inputs *)

Example cleanSrtText_markup :
  cleanSrtText (js "<i>Hello</i>  {\an8}there ") = js "Hello  there".
Proof. vm_compute. reflexivity. Qed.

Example cleanSrtText_blank_lines :
  cleanSrtText (js "a  " ++ [10; 10; 9] ++ js "b" ++ [10]) = js "a" ++ [10; 32] ++ js "b".
Proof. vm_compute. reflexivity. Qed.

Example parseSrtToBlocks_two_cues :
  parseSrtToBlocks
    (srtCue "1" "00:01:02,345 --> 00:01:03,000" "First" ++ [13; 10]
     ++ js "stray" ++ [10]
     ++ srtCue "2" "01:00:00,000 --> 01:00:01,000" "<b>Second</b>")
  = Returned [mkBlock 62345 (js "First"); mkBlock 3600000 (js "Second")].
Proof. vm_compute. reflexivity. Qed.

Example tagDescriptiveBlocks_marker :
  tagDescriptiveBlocks
    [mkBlock 0 (js "ON SCREEN TEXT :  Exit" ++ [10] ++ js "now");
     mkBlock 5 (js "A door closes.")]
  = [mkEntry 0 OnScreenText (js "Exit now");
     mkEntry 5 Description (js "A door closes.")].
Proof. vm_compute. reflexivity. Qed.

Example normalizeForCompare_key :
  normalizeForCompare asciiToLowerCase (js "On-screen text: Hello, World! 42")
  = js "helloworld42".
Proof. vm_compute. reflexivity. Qed.

Example sortEntries_stable :
  sortEntries compareEntries
    [mkEntry 5 Speaker (js "a"); mkEntry 5 Description (js "b");
     mkEntry 1 Speaker (js "c"); mkEntry 5 Description (js "d")]
  = [mkEntry 1 Speaker (js "c"); mkEntry 5 Description (js "b");
     mkEntry 5 Description (js "d"); mkEntry 5 Speaker (js "a")].
Proof. vm_compute. reflexivity. Qed.

Example mergeAdjacentSpeakers_hello :
  mergeAdjacentSpeakers
    [mkEntry 0 Speaker (js "Hello"); mkEntry 900 Speaker (js "world.")]
  = [mkEntry 0 Speaker (js "Hello world.")].
Proof. vm_compute. reflexivity. Qed.

Example extractYtpId_filename :
  extractYtpId (js "clip-YTP26-042a-final.srt") = Some (js "YTP26-042a")
  /\ extractYtpId (js "clip-YTP26-04-final.srt") = None.
Proof. split; vm_compute; reflexivity. Qed.

Example crc32_check_value : crc32 (js "123456789") = 3421780262.
Proof. vm_compute. reflexivity. Qed.

Example utf8Encode_mixed :
  utf8Encode [233; 8364; 55357; 56832; 55357]
  = [195; 169; 226; 130; 172; 240; 159; 152; 128; 239; 191; 189].
Proof. vm_compute. reflexivity. Qed.

Example buildZip_layout :
  let buf := buildZip (fun _ => (noon, noon)) smallFiles in
  length buf = 201%nat
  /\ getUint32 buf 40 = 67324752
  /\ getUint32 buf 77 = 33639248
  /\ getUint32 buf (128 + 42) = 40
  /\ getUint32 buf (179 + 12) = 102
  /\ getUint32 buf (179 + 16) = 77.
Proof. vm_compute. repeat split. Qed.

(** * Further properties *)

(** ** The sort *)

Lemma insertSorted_filter (t : Z) (r : Role) (x : Entry) (l : list Entry) :
  List.filter (sameSlot t r) (insertSorted compareEntries x l)
  = List.filter (sameSlot t r) (x :: l).
Proof.
  induction l as [|y l IH]; [done|]. simpl insertSorted.
  destruct (Z.leb_spec (compareEntries x y) 0) as [Hle|Hgt]; [done|].
  simpl. rewrite IH. simpl.
  destruct (sameSlot t r x) eqn:Hx, (sameSlot t r y) eqn:Hy; try done.
  exfalso. unfold sameSlot in *.
  apply bool_decide_eq_true in Hx as [Hx1 Hx2].
  apply bool_decide_eq_true in Hy as [Hy1 Hy2].
  unfold compareEntries in Hgt.
  case_bool_decide; [congruence|]. rewrite Hx2, Hy2 in Hgt. lia.
Qed.

(** X1.  The sort of [combineTranscripts] rearranges the entries into the
    order of start then role, and keeps the entries of one start and role
    in the order they came in. *)
Theorem sortEntries_sorted_stable (l : list Entry) :
  StronglySorted entryLe (sortEntries compareEntries l)
  /\ sortEntries compareEntries l ≡ₚ l
  /\ forall (t : Z) (r : Role),
       List.filter (sameSlot t r) (sortEntries compareEntries l)
       = List.filter (sameSlot t r) l.
Proof.
  split_and!; [apply sortEntries_sorted|apply sortEntries_perm|].
  intros t r. induction l as [|x l IH]; [done|].
  simpl sortEntries. rewrite insertSorted_filter. simpl. by rewrite IH.
Qed.

(** ** What the de-duplication keeps *)

Section DedupeCoverage.

Variable toLowerCase : jsstring -> jsstring.

Abbreviation key e := (normalizeForCompare toLowerCase (text e)).
Abbreviation step w := (dedupeStep toLowerCase w).

(** One turn appends the candidate, writes it over one element, or leaves
    the accumulator alone. *)
Lemma dedupeStep_cases w (acc : list Entry) (current : Entry) :
  step w acc current = acc ++ [current]
  \/ step w acc current = acc
  \/ exists j prev,
       acc !! j = Some prev
       /\ key prev = key current
       /\ startMs current - startMs prev <= w
       /\ role prev ≠ Speaker /\ role current = Speaker
       /\ step w acc current = <[j := current]> acc.
Proof.
  unfold dedupeStep.
  destruct (scanBack toLowerCase w acc current _ (length acc))
    as [j|] eqn:Hscan; [|by left].
  right.
  apply scanBack_Some in Hscan as (Hj & prev & Hprev & Hgap & Hkey).
  rewrite Hprev.
  destruct (bool_decide (role prev ≠ Speaker)
            && bool_decide (role current = Speaker)) eqn:Hup; [|by left].
  apply andb_true_iff in Hup as [Hp Hc].
  apply bool_decide_eq_true in Hp. apply bool_decide_eq_true in Hc.
  right. by exists j, prev.
Qed.

Lemma dedupeStep_elem_of w (acc : list Entry) (current e : Entry) :
  e ∈ step w acc current -> e ∈ acc \/ e = current.
Proof.
  destruct (dedupeStep_cases w acc current)
    as [-> | [-> | (j & prev & Hj & _ & _ & _ & _ & ->)]].
  - rewrite elem_of_app, list_elem_of_singleton. tauto.
  - tauto.
  - intros He. apply list_elem_of_lookup in He as [i Hi].
    destruct (decide (i = j)) as [->|Hne].
    + rewrite list_lookup_insert_eq in Hi by (by eapply lookup_lt_Some).
      right. congruence.
    + rewrite list_lookup_insert_ne in Hi by done.
      left. by eapply list_elem_of_lookup_2.
Qed.

Lemma dedupeStep_length w (acc : list Entry) (current : Entry) :
  (length acc <= length (step w acc current) <= S (length acc))%nat
  /\ (0 < length (step w acc current))%nat.
Proof.
  destruct (dedupeStep_cases w acc current)
    as [-> | [Heq | (j & prev & Hj & _ & _ & _ & _ & ->)]].
  - rewrite length_app. simpl. lia.
  - unfold dedupeStep in *.
    destruct (scanBack toLowerCase w acc current _ (length acc))
      as [j|] eqn:Hscan.
    + apply scanBack_Some in Hscan as (Hj & _). rewrite Heq. lia.
    + apply (f_equal length) in Heq. rewrite length_app in Heq.
      simpl in Heq. lia.
  - rewrite length_insert. apply lookup_lt_Some in Hj. lia.
Qed.

Lemma dedupe_fold_from_input w (items acc : list Entry) :
  Forall (fun e => e ∈ acc ++ items) (fold_left (step w) items acc)
  /\ (length acc <= length (fold_left (step w) items acc)
      <= length acc + length items)%nat.
Proof.
  revert acc. induction items as [|c items IH]; intros acc.
  - simpl. rewrite app_nil_r. split; [|lia].
    apply Forall_forall. auto.
  - simpl fold_left. destruct (IH (step w acc c)) as [H1 H2].
    pose proof (dedupeStep_length w acc c) as [Hl _].
    split; [|simpl; lia].
    eapply Forall_impl; [exact H1|]. intros e He. simpl in He.
    apply elem_of_app in He as [He|He].
    + apply dedupeStep_elem_of in He as [He| ->].
      * apply elem_of_app. by left.
      * apply elem_of_app. right. by left.
    + apply elem_of_app. right. by right.
Qed.

(** X2.  The de-duplication invents nothing: every entry it returns is one
    of its input, it returns no more entries than it was given, and it
    returns none only for an empty input. *)
Theorem dedupeNearDuplicates_from_input (items : list Entry) (w : Z) :
  Forall (fun e => e ∈ items) (dedupeNearDuplicates toLowerCase items w)
  /\ (length (dedupeNearDuplicates toLowerCase items w)
      <= length items)%nat
  /\ (dedupeNearDuplicates toLowerCase items w = [] <-> items = []).
Proof.
  unfold dedupeNearDuplicates.
  destruct (dedupe_fold_from_input w items []) as [H1 H2].
  split_and!; [done|simpl in H2; lia|].
  split; [|by intros ->].
  destruct items as [|c items]; [done|]. simpl fold_left. intros Hnil.
  destruct (dedupe_fold_from_input w items (step w [] c)) as [_ H3].
  pose proof (dedupeStep_length w [] c) as [_ H4].
  rewrite Hnil in H3. simpl in H3. lia.
Qed.

Lemma dedupeStep_represented_old w (acc : list Entry) (current e : Entry) :
  0 <= w ->
  startMs e <= startMs current ->
  Forall (fun a => startMs a <= startMs current) acc ->
  represented toLowerCase w acc e ->
  represented toLowerCase w (step w acc current) e.
Proof.
  intros Hw Hec Hacc (o & Ho & (Hk & Hgap & Hsp) & Hside).
  destruct (dedupeStep_cases w acc current)
    as [-> | [-> | (j & prev & Hj & Hkey & Hwin & Hprev & Hcur & ->)]].
  - exists o. split; [|done]. apply elem_of_app. by left.
  - by exists o.
  - apply list_elem_of_lookup in Ho as [i Hi].
    destruct (decide (i = j)) as [->|Hne].
    + assert (o = prev) as -> by congruence.
      assert (startMs prev <= startMs e) by (by destruct Hside).
      exists current. split; [|split; [|by left]].
      * eapply list_elem_of_lookup_2.
        apply list_lookup_insert_eq. by eapply lookup_lt_Some.
      * split; [congruence|]. split; [lia|done].
    + exists o. split; [|done].
      eapply list_elem_of_lookup_2.
      by rewrite list_lookup_insert_ne.
Qed.

Lemma dedupeStep_represented_new w (acc : list Entry) (current : Entry) :
  0 <= w ->
  Forall (fun a => startMs a <= startMs current) acc ->
  represented toLowerCase w (step w acc current) current.
Proof.
  intros Hw Hacc. unfold dedupeStep.
  destruct (scanBack toLowerCase w acc current _ (length acc))
    as [j|] eqn:Hscan.
  - apply scanBack_Some in Hscan as (Hj & prev & Hprev & Hgap & Hkey).
    rewrite Hprev.
    pose proof (Forall_lookup_1 _ _ _ _ Hacc Hprev) as Hle. simpl in Hle.
    destruct (bool_decide (role prev ≠ Speaker)
              && bool_decide (role current = Speaker)) eqn:Hup.
    + exists current. split; [|split; [|by right]].
      * eapply list_elem_of_lookup_2.
        apply list_lookup_insert_eq. by eapply lookup_lt_Some.
      * split; [done|]. split; [lia|done].
    + exists prev. split; [|split; [|by right]].
      * by eapply list_elem_of_lookup_2.
      * split; [done|]. split; [lia|].
        intros Hc. apply andb_false_iff in Hup as [Hup|Hup].
        -- apply bool_decide_eq_false in Hup.
           destruct (role prev); try done; exfalso; by apply Hup.
        -- by apply bool_decide_eq_false in Hup.
  - exists current. split; [|split; [|by right]].
    + apply elem_of_app. right. by left.
    + split; [done|]. split; [lia|done].
Qed.

Lemma dedupe_fold_represented w (items seen acc : list Entry) :
  0 <= w ->
  StronglySorted startLe (seen ++ items) ->
  Forall (fun a => a ∈ seen) acc ->
  Forall (represented toLowerCase w acc) seen ->
  Forall (represented toLowerCase w (fold_left (step w) items acc))
    (seen ++ items).
Proof.
  intros Hw. revert seen acc.
  induction items as [|c items IH]; intros seen acc Hs Hacc Hrep.
  - by rewrite app_nil_r.
  - simpl fold_left.
    assert (Hle : forall a, a ∈ seen -> startMs a <= startMs c).
    { intros a Ha.
      eapply (StronglySorted_app_1_elem_of startLe); eauto. by left. }
    assert (Hacc' : Forall (fun a => startMs a <= startMs c) acc).
    { eapply Forall_impl; [exact Hacc|]. simpl. auto. }
    replace (seen ++ c :: items) with ((seen ++ [c]) ++ items)
      by (by rewrite <- app_assoc).
    apply IH.
    + by rewrite <- app_assoc.
    + apply Forall_forall. intros a Ha.
      apply dedupeStep_elem_of in Ha as [Ha| ->].
      * apply elem_of_app. left.
        by eapply Forall_forall in Hacc.
      * apply elem_of_app. right. by left.
    + apply Forall_app. split.
      * apply Forall_forall. intros e He.
        apply dedupeStep_represented_old; try done.
        -- by apply Hle.
        -- by eapply Forall_forall in Hrep.
      * constructor; [|constructor].
        by apply dedupeStep_represented_new.
Qed.

(** X3.  On entries in start order the de-duplication loses no text: every
    input entry is stood for in the result by an entry with the same key
    whose start is within the window, and a Speaker entry is stood for
    by a Speaker entry. *)
Theorem dedupeNearDuplicates_keeps_a_representative
    (items : list Entry) (w : Z) :
  0 <= w ->
  StronglySorted startLe items ->
  Forall (fun e => exists o,
            o ∈ dedupeNearDuplicates toLowerCase items w
            /\ standsFor toLowerCase w e o) items.
Proof.
  intros Hw Hs.
  pose proof (dedupe_fold_represented w items [] [] Hw Hs
                (Forall_nil_2 _) (Forall_nil_2 _)) as H.
  simpl in H. eapply Forall_impl; [exact H|].
  intros e (o & Ho & Hst & _). by exists o.
Qed.

(** The scan breaks at once on a last element outside the window. *)
Lemma dedupeStep_gap w (acc : list Entry) (l current : Entry) :
  last acc = Some l ->
  startMs current - startMs l > w ->
  step w acc current = acc ++ [current].
Proof.
  intros Hlast Hgap. unfold dedupeStep.
  rewrite last_lookup in Hlast.
  assert (length acc = S (pred (length acc))) as Hlen.
  { apply lookup_lt_Some in Hlast. lia. }
  rewrite Hlen at 1.
  by rewrite (scanBack_break toLowerCase w acc current _ _ l Hlast Hgap).
Qed.

Lemma dedupe_fold_gaps w (items acc : list Entry) :
  gapsOver w items ->
  match last acc, head items with
  | Some l, Some c => startMs c - startMs l > w
  | _, _ => True
  end ->
  fold_left (step w) items acc = acc ++ items.
Proof.
  revert acc. induction items as [|c items IH]; intros acc Hg Hfirst.
  - by rewrite app_nil_r.
  - simpl fold_left. simpl head in Hfirst.
    assert (step w acc c = acc ++ [c]) as ->.
    { destruct (last acc) as [l|] eqn:Hl.
      - by eapply dedupeStep_gap.
      - apply last_None in Hl. by subst. }
    rewrite IH.
    + by rewrite <- app_assoc.
    + destruct items; [done|]. by destruct Hg.
    + rewrite last_snoc. destruct items; [done|]. simpl. by destruct Hg.
Qed.

(** X4.  Entries whose starts are each more than the window after the one
    before are all kept, whatever their texts. *)
Theorem dedupeNearDuplicates_sparse (items : list Entry) (w : Z) :
  gapsOver w items ->
  dedupeNearDuplicates toLowerCase items w = items.
Proof.
  intros Hg. unfold dedupeNearDuplicates.
  by rewrite dedupe_fold_gaps.
Qed.

Lemma dedupe_fold_distinct w (items acc : list Entry) :
  NoDup (map (fun e => key e) (acc ++ items)) ->
  fold_left (step w) items acc = acc ++ items.
Proof.
  revert acc. induction items as [|c items IH]; intros acc Hnd.
  - by rewrite app_nil_r.
  - simpl fold_left.
    replace (acc ++ c :: items) with ((acc ++ [c]) ++ items) in *
      by (by rewrite <- app_assoc).
    rewrite dedupeStep_fresh.
    + by apply IH.
    + rewrite !map_app in Hnd. apply NoDup_app in Hnd as (Hnd & _ & _).
      apply NoDup_app in Hnd as (_ & Hnd & _).
      apply Forall_forall. intros e He Heq.
      apply (Hnd (key e)).
      * apply list_elem_of_fmap. by exists e.
      * simpl. rewrite Heq. by left.
Qed.

(** X5.  Entries with pairwise different keys are all kept. *)
Theorem dedupeNearDuplicates_distinct (items : list Entry) (w : Z) :
  NoDup (map (fun e => key e) items) ->
  dedupeNearDuplicates toLowerCase items w = items.
Proof.
  intros Hnd. unfold dedupeNearDuplicates.
  by rewrite dedupe_fold_distinct.
Qed.

End DedupeCoverage.

(** ** What the merge of Speaker entries does *)

Lemma mergeStep_cases (acc : list Entry) (item : Entry) :
  (exists init l, acc = init ++ [l]
     /\ role l = Speaker /\ role item = Speaker
     /\ mergeStep acc item
        = init ++ [mkEntry (startMs l) Speaker
                     (mergedText (text l) (text item))])
  \/ (mergeStep acc item = acc ++ [item]
      /\ match last acc with
         | Some l => isSpeaker l && isSpeaker item = false
         | None => True
         end).
Proof.
  unfold mergeStep. destruct (last acc) as [l|] eqn:Hlast; [|by right].
  unfold isSpeaker.
  destruct (bool_decide (role l = Speaker)
            && bool_decide (role item = Speaker)) eqn:Hb; [|by right].
  left. apply andb_true_iff in Hb as [Hl Hi].
  apply bool_decide_eq_true in Hl. apply bool_decide_eq_true in Hi.
  apply last_Some in Hlast as [init ->].
  exists init, l. split_and!; try done.
  rewrite length_app. simpl.
  replace (pred (length init + 1)) with (length init + 0)%nat by lia.
  rewrite insert_app_r. simpl. by rewrite Hl.
Qed.

Lemma noAdjacentSpeakers_snoc (init : list Entry) (l x : Entry) :
  noAdjacentSpeakers (init ++ [l]) ->
  isSpeaker l && isSpeaker x = false ->
  noAdjacentSpeakers ((init ++ [l]) ++ [x]).
Proof.
  intros Hacc Hlx i a b Ha Hb.
  destruct (decide (S i < length (init ++ [l]))%nat) as [Hlt|Hge].
  - rewrite lookup_app_l in Ha by lia. rewrite lookup_app_l in Hb by lia.
    by eapply Hacc.
  - assert (S i = length (init ++ [l])) as Hi.
    { apply lookup_lt_Some in Hb. rewrite length_app in Hb. simpl in Hb.
      lia. }
    rewrite Hi in Hb. rewrite list_lookup_middle in Hb by done.
    rewrite lookup_app_l in Ha by lia.
    rewrite length_app in Hi. simpl in Hi.
    assert (i = length init) as -> by lia.
    rewrite list_lookup_middle in Ha by done.
    congruence.
Qed.

Lemma noAdjacentSpeakers_last (init : list Entry) (l l' : Entry) :
  noAdjacentSpeakers (init ++ [l]) ->
  isSpeaker l' = isSpeaker l ->
  noAdjacentSpeakers (init ++ [l']).
Proof.
  intros Hacc Hll i a b Ha Hb.
  assert (S i < length (init ++ [l']))%nat as Hlt
    by (by eapply lookup_lt_Some).
  rewrite length_app in Hlt. simpl in Hlt.
  rewrite lookup_app_l in Ha by lia.
  destruct (decide (S i < length init)%nat) as [Hin|Hout].
  - rewrite lookup_app_l in Hb by lia.
    apply (Hacc i a b); by rewrite lookup_app_l by lia.
  - assert (S i = length init) as Hi by lia.
    rewrite Hi in Hb. rewrite list_lookup_middle in Hb by done.
    assert (b = l') as -> by congruence. rewrite Hll.
    apply (Hacc i a l); [by rewrite lookup_app_l by lia|].
    rewrite Hi. by rewrite list_lookup_middle.
Qed.

Lemma mergeStep_noAdjacent (acc : list Entry) (item : Entry) :
  noAdjacentSpeakers acc -> noAdjacentSpeakers (mergeStep acc item).
Proof.
  intros Hacc.
  destruct (mergeStep_cases acc item)
    as [(init & l & -> & Hl & Hi & ->) | [-> Hlast]].
  - eapply noAdjacentSpeakers_last; [exact Hacc|].
    unfold isSpeaker. simpl. by rewrite Hl.
  - destruct (last acc) as [l|] eqn:Hl.
    + apply last_Some in Hl as [init ->].
      by apply noAdjacentSpeakers_snoc.
    + apply last_None in Hl as ->. intros [|i] a b Ha Hb; done.
Qed.

Lemma mergeStep_others (acc : list Entry) (item : Entry) :
  List.filter (fun e => negb (isSpeaker e)) (mergeStep acc item)
  = List.filter (fun e => negb (isSpeaker e)) (acc ++ [item])
  /\ (length (mergeStep acc item) <= S (length acc))%nat.
Proof.
  destruct (mergeStep_cases acc item)
    as [(init & l & -> & Hl & Hi & ->) | [-> _]].
  - rewrite !List.filter_app, !length_app. simpl.
    unfold isSpeaker. simpl. rewrite Hl, Hi. simpl. rewrite !app_nil_r.
    split; [done|lia].
  - rewrite length_app. simpl. split; [done|lia].
Qed.

Lemma merge_fold (items acc : list Entry) :
  noAdjacentSpeakers acc ->
  noAdjacentSpeakers (fold_left mergeStep items acc)
  /\ List.filter (fun e => negb (isSpeaker e)) (fold_left mergeStep items acc)
     = List.filter (fun e => negb (isSpeaker e)) (acc ++ items)
  /\ (length (fold_left mergeStep items acc)
      <= length acc + length items)%nat.
Proof.
  revert acc. induction items as [|x items IH]; intros acc Hacc.
  - simpl. rewrite app_nil_r. split_and!; [done|done|lia].
  - simpl fold_left.
    destruct (IH (mergeStep acc x) (mergeStep_noAdjacent _ _ Hacc))
      as (H1 & H2 & H3).
    destruct (mergeStep_others acc x) as [H4 H5].
    split_and!; [done| |simpl; lia].
    rewrite H2, List.filter_app, H4, <- List.filter_app.
    by rewrite <- app_assoc.
Qed.

(** X6.  After the merge no Speaker entry directly follows another, and
    the entries of the other roles are all there, unchanged and in their
    order. *)
Theorem mergeAdjacentSpeakers_separates (items : list Entry) :
  noAdjacentSpeakers (mergeAdjacentSpeakers items)
  /\ List.filter (fun e => negb (isSpeaker e)) (mergeAdjacentSpeakers items)
     = List.filter (fun e => negb (isSpeaker e)) items
  /\ (length (mergeAdjacentSpeakers items) <= length items)%nat.
Proof.
  apply (merge_fold items []). intros [|i] a b Ha Hb; done.
Qed.

Lemma merge_fold_id (items acc : list Entry) :
  noAdjacentSpeakers (acc ++ items) ->
  fold_left mergeStep items acc = acc ++ items.
Proof.
  revert acc. induction items as [|x items IH]; intros acc Hacc.
  - by rewrite app_nil_r.
  - simpl fold_left.
    replace (acc ++ x :: items) with ((acc ++ [x]) ++ items) in *
      by (by rewrite <- app_assoc).
    destruct (mergeStep_cases acc x)
      as [(init & l & -> & Hl & Hi & _) | [-> _]]; [|by apply IH].
    exfalso.
    assert (isSpeaker l && isSpeaker x = false) as Hf.
    { apply (Hacc (length init) l x).
      - rewrite <- !app_assoc. by apply list_lookup_middle.
      - rewrite lookup_app_l
          by (rewrite !length_app; simpl; lia).
        replace (S (length init)) with (length (init ++ [l]))
          by (rewrite length_app; simpl; lia).
        by apply list_lookup_middle. }
    unfold isSpeaker in Hf. rewrite Hl, Hi in Hf. done.
Qed.

(** X7.  A list in which no Speaker entry directly follows another is
    returned as it is. *)
Theorem mergeAdjacentSpeakers_nothing_to_merge (items : list Entry) :
  noAdjacentSpeakers items -> mergeAdjacentSpeakers items = items.
Proof. intros H. by apply (merge_fold_id items []). Qed.

(** ** Trimmed texts *)

Lemma Forall_sublist {A} (P : A -> Prop) (l1 l2 : list A) :
  l1 `sublist_of` l2 -> Forall P l2 -> Forall P l1.
Proof.
  intros Hsub H. apply Forall_forall. intros x Hx.
  eapply Forall_forall in H; [exact H|]. by eapply elem_of_sublist.
Qed.

Lemma Forall_list_filter {A} (P : A -> Prop) (f : A -> bool) (l : list A) :
  Forall P l -> Forall P (List.filter f l).
Proof.
  induction 1 as [|x l Hx Hl IH]; simpl; [constructor|].
  destruct (f x); [by constructor|done].
Qed.

Lemma trimEnd_sublist (s : jsstring) : trimEnd s `sublist_of` s.
Proof.
  induction s as [|c r IH]; [done|]. simpl.
  destruct (trimEnd r) as [|d r'] eqn:Hr.
  - destruct (isSpace c); [apply sublist_nil_l|].
    apply sublist_skip, sublist_nil_l.
  - by apply sublist_skip.
Qed.

Lemma trim_sublist (s : jsstring) : trim s `sublist_of` s.
Proof.
  unfold trim. etrans; [apply trimEnd_sublist|].
  destruct (trimStart_drop s) as [k ->]. apply sublist_drop.
Qed.

Lemma trim_Forall (P : Z -> Prop) (s : jsstring) :
  Forall P s -> Forall P (trim s).
Proof. intros H. eapply Forall_sublist; [apply trim_sublist|done]. Qed.

(** ** Cue lines and the taggers *)

Lemma splitNewlineRuns_noLineFeed (s : jsstring) :
  Forall noLineFeed (splitNewlineRuns s).
Proof.
  induction s as [|c r IH]; [by repeat constructor|].
  cbn [splitNewlineRuns].
  destruct (Z.eqb_spec c 10) as [->|Hne].
  - destruct r as [|d r']; [by repeat constructor|].
    destruct (d =? 10); [done|]. constructor; [constructor|done].
  - destruct (splitNewlineRuns r) as [|h t]; [by repeat constructor|].
    apply Forall_cons in IH as [Hh Ht].
    constructor; [by constructor|done].
Qed.

Lemma cueLines_noLineFeed (t : jsstring) : Forall noLineFeed (cueLines t).
Proof.
  unfold cueLines, filterBoolean.
  apply Forall_list_filter.
  apply Forall_fmap. eapply Forall_impl; [apply splitNewlineRuns_noLineFeed|].
  intros l Hl. by apply trim_Forall.
Qed.

Lemma join_space_noLineFeed (ls : list jsstring) :
  Forall noLineFeed ls -> noLineFeed (join [32] ls).
Proof.
  induction ls as [|l ls IH]; intros H; [constructor|].
  apply Forall_cons in H as [Hl Hls].
  cbn [join]. destruct ls as [|l' ls']; [done|].
  apply Forall_app. split; [done|].
  apply Forall_app. split; [by repeat constructor|]. by apply IH.
Qed.

Lemma joinLinesPreservingSentence_noLineFeed (s : jsstring) :
  noLineFeed (joinLinesPreservingSentence s).
Proof. apply join_space_noLineFeed, cueLines_noLineFeed. Qed.

Lemma trimStart_suffix (s : jsstring) : trimStart s `suffix_of` s.
Proof. destruct (trimStart_drop s) as [k ->]. apply suffix_drop. Qed.

Lemma litCI_suffix (w s r : jsstring) : litCI w s = Some r -> r `suffix_of` s.
Proof.
  revert s. induction w as [|x w IH]; intros s; simpl.
  - by intros [= ->].
  - destruct s as [|c s']; [done|].
    destruct (foldCase c =? foldCase x); [|done].
    intros H. by apply suffix_cons_r, IH.
Qed.

Lemma lit_suffix (x : Z) (s r : jsstring) : lit x s = Some r -> r `suffix_of` s.
Proof.
  destruct s as [|c s']; simpl; [done|].
  destruct (c =? x); [|done]. intros [= ->]. by apply suffix_cons_r.
Qed.

Lemma markerTail_suffix (s rest : jsstring) :
  markerTail s = Some rest -> rest `suffix_of` s.
Proof.
  unfold markerTail, skipSpace. intros H.
  destruct (litCI (js "screen") s) as [r1|] eqn:H1; [|done].
  cbn [mbind option_bind] in H.
  destruct (litCI (js "text") (trimStart r1)) as [r2|] eqn:H2; [|done].
  cbn [mbind option_bind] in H.
  destruct (lit 58 (trimStart r2)) as [r3|] eqn:H3; [|done].
  cbn [mbind option_bind] in H. injection H as <-.
  apply litCI_suffix in H1, H2. apply lit_suffix in H3.
  etrans; [apply trimStart_suffix|]. etrans; [exact H3|].
  etrans; [apply trimStart_suffix|]. etrans; [exact H2|].
  etrans; [apply trimStart_suffix|]. exact H1.
Qed.

Lemma markerRest_suffix (s rest : jsstring) :
  markerRest s = Some rest -> rest `suffix_of` s.
Proof.
  unfold markerRest. intros H.
  destruct (litCI (js "on") s) as [r|] eqn:H1; [|done].
  cbn [mbind option_bind] in H. apply litCI_suffix in H1.
  assert (markerTail r = Some rest -> rest `suffix_of` s) as Hr.
  { intros Ht. etrans; [by apply markerTail_suffix|done]. }
  destruct r as [|c r']; [by apply Hr|].
  destruct ((c =? 45) || isSpace c); [|by apply Hr].
  destruct (markerTail r') as [rest'|] eqn:Ht; [|by apply Hr].
  injection H as <-. apply markerTail_suffix in Ht.
  etrans; [exact Ht|]. etrans; [|exact H1]. by apply suffix_cons_r.
Qed.

Lemma onScreenRest_suffix (s rest : jsstring) :
  onScreenRest s = Some rest -> rest `suffix_of` s.
Proof.
  unfold onScreenRest, skipSpace. intros H.
  etrans; [by apply markerRest_suffix|apply trimStart_suffix].
Qed.

Lemma Forall_suffix {A} (P : A -> Prop) (l1 l2 : list A) :
  l1 `suffix_of` l2 -> Forall P l2 -> Forall P l1.
Proof. intros [k ->] H. by apply Forall_app in H as [_ ?]. Qed.

Lemma tagDescriptiveBlock_noLineFeed (b : Block) :
  noLineFeed (text (tagDescriptiveBlock b)).
Proof.
  unfold tagDescriptiveBlock.
  pose proof (cueLines_noLineFeed (blockText b)) as Hl.
  destruct (onScreenRest _) as [rest|] eqn:Hrest; cbn [text];
    [|by apply join_space_noLineFeed].
  apply join_space_noLineFeed. constructor.
  - apply trim_Forall. eapply Forall_suffix.
    + by apply onScreenRest_suffix.
    + destruct (cueLines (blockText b)) as [|l ls]; [constructor|].
      simpl. by apply Forall_cons in Hl as [? ?].
  - destruct (cueLines (blockText b)) as [|l ls]; [constructor|].
    simpl. by apply Forall_cons in Hl as [? ?].
Qed.

(** X8.  What the taggers produce: the spoken track gives Speaker entries,
    the descriptive track never does, both keep the starts of the blocks in
    their order, and no text holds a line feed. *)
Theorem taggers_roles_and_starts (blocks : list Block) :
  map startMs (tagSpokenBlocks blocks) = map blockStartMs blocks
  /\ map startMs (tagDescriptiveBlocks blocks) = map blockStartMs blocks
  /\ Forall (fun e => role e = Speaker /\ noLineFeed (text e))
       (tagSpokenBlocks blocks)
  /\ Forall (fun e => (role e = Description \/ role e = OnScreenText)
                      /\ noLineFeed (text e))
       (tagDescriptiveBlocks blocks).
Proof.
  unfold tagSpokenBlocks, tagDescriptiveBlocks.
  split_and!.
  - rewrite <- list_fmap_compose. by apply list_fmap_ext.
  - rewrite <- list_fmap_compose. apply list_fmap_ext. intros i b _.
    simpl. unfold tagDescriptiveBlock. by destruct (onScreenRest _).
  - apply Forall_fmap, Forall_forall. intros b _. simpl.
    split; [done|apply joinLinesPreservingSentence_noLineFeed].
  - apply Forall_fmap, Forall_forall. intros b _. simpl.
    split; [|apply tagDescriptiveBlock_noLineFeed].
    unfold tagDescriptiveBlock. destruct (onScreenRest _); simpl; auto.
Qed.

(** ** The layout of the output *)

Lemma splitNewline_noLineFeed (x : jsstring) :
  noLineFeed x -> splitNewline x = [x].
Proof.
  induction 1 as [|c x Hc Hx IH]; [done|]. cbn [splitNewline].
  destruct (Z.eqb_spec c 10); [done|]. by rewrite IH.
Qed.

Lemma splitNewline_app (x r : jsstring) :
  noLineFeed x -> splitNewline (x ++ 10 :: r) = x :: splitNewline r.
Proof.
  induction 1 as [|c x Hc Hx IH]; [done|]. cbn [app splitNewline].
  destruct (Z.eqb_spec c 10); [done|]. by rewrite IH.
Qed.

Lemma splitNewline_paragraphs (ps : list jsstring) :
  Forall noLineFeed ps ->
  splitNewline (join [10; 10] ps) = blankSeparated ps.
Proof.
  induction 1 as [|p ps Hp Hps IH]; [done|].
  destruct ps as [|q ps].
  - simpl. by apply splitNewline_noLineFeed.
  - change (join [10; 10] (p :: q :: ps))
      with (p ++ 10 :: ([] ++ 10 :: join [10; 10] (q :: ps))).
    rewrite splitNewline_app by done.
    rewrite splitNewline_app by constructor.
    by rewrite IH.
Qed.

Lemma runLength_zero (p : Z -> bool) (c : Z) (r : jsstring) :
  runLength p (c :: r) = O -> p c = false.
Proof. simpl. by destruct (p c). Qed.

Lemma collapseSpaces_noLineFeed (s : jsstring) :
  noLineFeed (replaceAll matchSpaces [32] s).
Proof.
  apply (replaceAll_ind matchSpaces [32] (fun _ out => noLineFeed out)).
  - constructor.
  - intros c r Hm IH. constructor; [|done].
    unfold matchSpaces in Hm.
    destruct (runLength isSpace (c :: r)) eqn:Hrun; [|done].
    apply runLength_zero in Hrun. by intros ->.
  - intros c r Hm _. unfold matchSpaces in Hm.
    by destruct (runLength isSpace (c :: r)).
  - intros c r n _ IH. by constructor.
Qed.

Lemma mergedText_noLineFeed (a b : jsstring) : noLineFeed (mergedText a b).
Proof. apply trim_Forall, collapseSpaces_noLineFeed. Qed.

Lemma mergeStep_noLineFeed (acc : list Entry) (item : Entry) :
  Forall (fun e => noLineFeed (text e)) (acc ++ [item]) ->
  Forall (fun e => noLineFeed (text e)) (mergeStep acc item).
Proof.
  intros H. unfold mergeStep.
  destruct (last acc) as [l|]; [|done].
  destruct (_ && _); [|done].
  apply Forall_insert.
  - by apply Forall_app in H as [? _].
  - simpl. apply mergedText_noLineFeed.
Qed.

Lemma mergeAdjacentSpeakers_noLineFeed (items : list Entry) :
  Forall (fun e => noLineFeed (text e)) items ->
  Forall (fun e => noLineFeed (text e)) (mergeAdjacentSpeakers items).
Proof.
  unfold mergeAdjacentSpeakers.
  assert (G : forall acc,
    Forall (fun e => noLineFeed (text e)) (acc ++ items) ->
    Forall (fun e => noLineFeed (text e)) (fold_left mergeStep items acc)).
  { induction items as [|x items IH]; intros acc H.
    - by rewrite app_nil_r in H.
    - simpl. apply IH. apply Forall_app. apply Forall_app in H as [Ha Hx].
      apply Forall_cons in Hx as [Hx Hi]. split; [|done].
      apply mergeStep_noLineFeed. apply Forall_app. split; [done|].
      by constructor. }
  intros H. by apply G.
Qed.

Lemma renderEntry_noLineFeed (e : Entry) :
  noLineFeed (text e) -> noLineFeed (renderEntry e) /\ renderEntry e ≠ [].
Proof.
  intros H. unfold renderEntry. split.
  - apply Forall_app. split.
    + destruct (role e); vm_compute; repeat constructor; done.
    + apply Forall_app. split; [|done]. vm_compute. repeat constructor; done.
  - by destruct (role e).
Qed.

(** ** The blocks of the parser *)

Lemma parseInt_fold_range (ds : jsstring) (acc : Z) :
  Forall (fun c => isDigit c = true) ds ->
  0 <= acc ->
  acc * 10 ^ Z.of_nat (length ds)
  <= fold_left (fun a c => a * 10 + (c - 48)) ds acc
  < (acc + 1) * 10 ^ Z.of_nat (length ds).
Proof.
  intros H. revert acc. induction H as [|c ds Hc Hds IH]; intros acc Hacc.
  - simpl. lia.
  - cbn [fold_left length]. unfold isDigit in Hc.
    apply andb_true_iff in Hc as [H1 H2].
    apply Z.leb_le in H1, H2.
    specialize (IH (acc * 10 + (c - 48)) ltac:(lia)).
    rewrite Nat2Z.inj_succ, Z.pow_succ_r by lia.
    assert (0 < 10 ^ Z.of_nat (length ds)) by (apply Z.pow_pos_nonneg; lia).
    nia.
Qed.

Lemma parseInt_range (n : nat) (s ds rest : jsstring) :
  digitsN n s = Some (ds, rest) ->
  0 <= parseInt ds < 10 ^ Z.of_nat n.
Proof.
  intros H. apply digitsN_Some in H as (_ & <- & Hd).
  pose proof (parseInt_fold_range ds 0 Hd ltac:(lia)) as Hr.
  unfold parseInt. lia.
Qed.

Lemma timecode_range (s : jsstring) h m sec ms rest :
  timecode s = Some ((h, m, sec, ms), rest) ->
  0 <= hhmmssToMs h m sec ms <= 362439999.
Proof.
  unfold timecode. intros H.
  destruct (digitsN 2 s) as [[h' r1]|] eqn:Hh; [|done].
  cbn [mbind option_bind fst snd] in H.
  destruct (lit 58 r1) as [r2|]; [|done].
  cbn [mbind option_bind fst snd] in H.
  destruct (digitsN 2 r2) as [[m' r3]|] eqn:Hm; [|done].
  cbn [mbind option_bind fst snd] in H.
  destruct (lit 58 r3) as [r4|]; [|done].
  cbn [mbind option_bind fst snd] in H.
  destruct (digitsN 2 r4) as [[s' r5]|] eqn:Hs; [|done].
  cbn [mbind option_bind fst snd] in H.
  destruct (lit 44 r5) as [r6|]; [|done].
  cbn [mbind option_bind fst snd] in H.
  destruct (digitsN 3 r6) as [[ms' r7]|] eqn:Hms; [|done].
  cbn [mbind option_bind fst snd] in H.
  injection H as <- <- <- <- <-.
  apply parseInt_range in Hh, Hm, Hs, Hms.
  unfold hhmmssToMs. cbv zeta.
  change (10 ^ Z.of_nat 2) with 100 in *.
  change (10 ^ Z.of_nat 3) with 1000 in *. lia.
Qed.

Lemma execTimecode_range (s : jsstring) h m sec ms :
  execTimecode s = Some (h, m, sec, ms) ->
  0 <= hhmmssToMs h m sec ms <= 362439999.
Proof.
  induction s as [|c s IH]; cbn [execTimecode].
  - unfold matchTimecodeAt.
    destruct (timecode []) as [[g r]|] eqn:Ht; [|done].
    vm_compute in Ht. done.
  - unfold matchTimecodeAt at 1.
    destruct (timecode (c :: s)) as [[[[[h' m'] s'] ms'] r]|] eqn:Ht.
    + cbn [mbind option_bind fst snd].
      destruct (_ ≫= _) eqn:Hrest.
      * intros Heq. injection Heq as Heq. subst p.
        destruct (lit 45 (skipSpace r)) as [r1|]; [|done].
        cbn [mbind option_bind] in Hrest.
        destruct (lit 45 r1) as [r2|]; [|done].
        cbn [mbind option_bind] in Hrest.
        destruct (lit 62 r2) as [r3|]; [|done].
        cbn [mbind option_bind] in Hrest.
        destruct (timecode (skipSpace r3)) as [t2|]; [|done].
        cbn [mbind option_bind] in Hrest.
        injection Hrest as <- <- <- <-. by eapply timecode_range.
      * exact IH.
    + exact IH.
Qed.

Lemma cleanSrtText_trimmed (s : jsstring) :
  trim (cleanSrtText s) = cleanSrtText s.
Proof.
  destruct (cleanSrtText_normal s) as (_ & _ & _ & Htr & _ & Hts).
  unfold trim. rewrite Hts. by apply noTrailing_trimEnd.
Qed.

Lemma cleanSrtText_again (s : jsstring) :
  cleanSrtText (cleanSrtText s) = cleanSrtText s.
Proof.
  destruct (cleanSrtText_normal s) as (H1 & H2 & H3 & H4 & H5 & H6).
  by apply cleanSrtText_fixed.
Qed.

Lemma parseLoop_wellFormed (fuel : nat) (lines : list jsstring) (i : nat)
    (blocks bs : list Block) :
  Forall wellFormedBlock blocks ->
  parseLoop fuel lines i blocks = Returned bs ->
  Forall wellFormedBlock bs
  /\ (length bs <= length blocks + (length lines - i))%nat.
Proof.
  revert i blocks.
  induction fuel as [|fuel IH]; intros i blocks Hb; [done|].
  cbn [parseLoop].
  destruct (Nat.ltb_spec i (length lines)) as [Hlt|Hge];
    [|intros [= <-]; split; [done|lia]].
  destruct (lines !! i) as [line|]; [|done].
  set (i' := if isIndexLine (trim line) then S i else i).
  assert (i <= i')%nat as Hi'
    by (unfold i'; destruct (isIndexLine (trim line)); lia).
  destruct (execTimecode (default [] (lines !! i')))
    as [[[[h m] s] ms]|] eqn:Hex.
  - cbv zeta.
    set (textLines := textRun (drop (S i') lines)).
    set (t := cleanSrtText (join [10] textLines)).
    set (i2 := (S i' + length textLines
                + blankRun (drop (S i' + length textLines) lines))%nat).
    intros Hloop.
    destruct (nonEmpty (trim t)) eqn:Hne.
    + apply IH in Hloop as [H1 H2].
      * split; [done|]. rewrite length_app in H2. simpl in H2.
        unfold i2 in H2. lia.
      * apply Forall_app. split; [done|]. constructor; [|constructor].
        unfold wellFormedBlock. cbn [blockText blockStartMs].
        assert (trim t = t) as Ht by apply cleanSrtText_trimmed.
        split_and!.
        -- rewrite Ht in Hne. by destruct t.
        -- done.
        -- apply cleanSrtText_again.
        -- by eapply execTimecode_range.
        -- by eapply execTimecode_range.
    + apply IH in Hloop as [H1 H2]; [|done].
      split; [done|]. unfold i2 in H2. lia.
  - intros Hloop. apply IH in Hloop as [H1 H2]; [|done].
    split; [done|]. lia.
Qed.

(** X9.  What the parser returns: it returns for every input, and every
    block has a text that is not empty, is trimmed and is left as it is
    by the normaliser, and a start between 0 and 362439999 ms (99 hours,
    99 minutes, 99 seconds, 999 ms: the fields are not checked against 59);
    there are no more blocks than lines. *)
Theorem parseSrtToBlocks_blocks (srtString : jsstring) :
  exists blocks,
    parseSrtToBlocks srtString = Returned blocks
    /\ Forall wellFormedBlock blocks
    /\ (length blocks <= length (srtLines srtString))%nat.
Proof.
  destruct (parseLoop_returns (S (length (srtLines srtString)))
              (srtLines srtString) 0 []) as [bs Hbs]; [lia|].
  exists bs. split; [exact Hbs|].
  apply parseLoop_wellFormed in Hbs as [H1 H2]; [|constructor].
  split; [done|]. simpl in H2. lia.
Qed.

(** ** The transcript *)

Lemma mergeStep_length (acc : list Entry) (item : Entry) :
  (0 < length (mergeStep acc item))%nat.
Proof.
  destruct (mergeStep_cases acc item)
    as [(init & l & _ & _ & _ & ->) | [-> _]];
    rewrite length_app; simpl; lia.
Qed.

Lemma mergeAdjacentSpeakers_nil (items : list Entry) :
  mergeAdjacentSpeakers items = [] <-> items = [].
Proof.
  split; [|by intros ->].
  destruct items as [|x items]; [done|]. unfold mergeAdjacentSpeakers.
  cbn [fold_left]. intros Hnil. exfalso.
  pose proof (mergeStep_length [] x) as Hpos.
  revert Hnil Hpos. generalize (mergeStep [] x).
  induction items as [|y items IH]; intros acc Hnil Hpos.
  - simpl in Hnil. subst. simpl in Hpos. lia.
  - simpl in Hnil. apply (IH _ Hnil). apply mergeStep_length.
Qed.

Lemma join_paragraphs_nil (ps : list jsstring) :
  Forall (fun p => p ≠ []) ps -> join [10; 10] ps = [] <-> ps = [].
Proof.
  intros H. split; [|by intros ->].
  destruct H as [|p ps Hp _]; [done|].
  destruct ps; simpl; [done|]. by destruct p.
Qed.

Section Layout.

Variable toLowerCase : jsstring -> jsstring.

Lemma mergeEntries_noLineFeed (spoken desc : list Entry) :
  Forall (fun e => noLineFeed (text e)) (spoken ++ desc) ->
  Forall (fun e => noLineFeed (text e)) (mergeEntries toLowerCase spoken desc).
Proof.
  intros H. unfold mergeEntries. apply mergeAdjacentSpeakers_noLineFeed.
  destruct (dedupe_fold_from_input toLowerCase 750
              (sortEntries compareEntries (spoken ++ desc)) []) as [Hin _].
  apply Forall_forall. intros e He.
  eapply Forall_forall in Hin; [|exact He]. simpl in Hin.
  rewrite sortEntries_perm in Hin.
  by eapply Forall_forall in H.
Qed.

Lemma mergeEntries_nil (spoken desc : list Entry) :
  mergeEntries toLowerCase spoken desc = [] <-> spoken = [] /\ desc = [].
Proof.
  unfold mergeEntries. rewrite mergeAdjacentSpeakers_nil.
  split.
  - intros Hnil.
    unfold dedupeNearDuplicates in Hnil.
    destruct (sortEntries compareEntries (spoken ++ desc)) as [|c l] eqn:Hs.
    + apply (f_equal length) in Hs.
      rewrite (Permutation_length (sortEntries_perm _)) in Hs.
      by apply nil_length_inv, app_eq_nil in Hs.
    + exfalso. cbn [fold_left] in Hnil.
      destruct (dedupe_fold_from_input toLowerCase 750 l
                  (dedupeStep toLowerCase 750 [] c)) as [_ H3].
      pose proof (dedupeStep_length toLowerCase 750 [] c) as [_ H4].
      rewrite Hnil in H3. simpl in H3. lia.
  - by intros [-> ->].
Qed.

(** The call returns, with the rendered entries joined by empty
    lines. *)
Lemma combineTranscripts_parsed (spokenSrt descriptiveSrt : jsstring) :
  exists (sb db : list Block),
    parseSrtToBlocks spokenSrt = Returned sb
    /\ parseSrtToBlocks descriptiveSrt = Returned db
    /\ combineTranscripts toLowerCase spokenSrt descriptiveSrt
       = Returned (join [10; 10]
                     (map renderEntry
                        (mergeEntries toLowerCase (tagSpokenBlocks sb)
                           (tagDescriptiveBlocks db)))).
Proof.
  destruct (parseLoop_returns (S (length (srtLines spokenSrt)))
              (srtLines spokenSrt) 0 []) as [sb Hsb]; [lia|].
  destruct (parseLoop_returns (S (length (srtLines descriptiveSrt)))
              (srtLines descriptiveSrt) 0 []) as [db Hdb]; [lia|].
  exists sb, db. split; [exact Hsb|]. split; [exact Hdb|].
  by apply combineTranscripts_blocks.
Qed.

Lemma rendered_lines (sb db : list Block) :
  Forall (fun p => p ≠ [] /\ noLineFeed p)
    (map renderEntry
       (mergeEntries toLowerCase (tagSpokenBlocks sb)
          (tagDescriptiveBlocks db))).
Proof.
  apply Forall_fmap.
  eapply Forall_impl; [apply mergeEntries_noLineFeed, Forall_app; split|].
  - apply Forall_fmap, Forall_forall. intros b _. simpl.
    apply joinLinesPreservingSentence_noLineFeed.
  - apply Forall_fmap, Forall_forall. intros b _. simpl.
    apply tagDescriptiveBlock_noLineFeed.
  - intros e He. simpl. by destruct (renderEntry_noLineFeed e He).
Qed.

Lemma transcript_nil (sb db : list Block) :
  join [10; 10]
    (map renderEntry
       (mergeEntries toLowerCase (tagSpokenBlocks sb)
          (tagDescriptiveBlocks db))) = []
  <-> sb = [] /\ db = [].
Proof.
  rewrite join_paragraphs_nil
    by (eapply Forall_impl; [apply rendered_lines|]; by intros p [? _]).
  split.
  - intros H. apply fmap_nil_inv, mergeEntries_nil in H as [H1 H2].
    unfold tagSpokenBlocks, tagDescriptiveBlocks in *.
    by apply fmap_nil_inv in H1, H2.
  - by intros [-> ->].
Qed.

(** X10.  The transcript is laid out as one line per entry with one empty
    line between two entries, for every pair of inputs: the call returns,
    each line is a role label, a colon and a text without line feed, no
    two Speaker lines follow each other, and the transcript is empty
    exactly when neither input yields a block. *)
Theorem combineTranscripts_layout (spokenSrt descriptiveSrt : jsstring) :
  exists (sb db : list Block) (out : jsstring),
    parseSrtToBlocks spokenSrt = Returned sb
    /\ parseSrtToBlocks descriptiveSrt = Returned db
    /\ combineTranscripts toLowerCase spokenSrt descriptiveSrt = Returned out
    /\ (out = [] <-> sb = [] /\ db = [])
    /\ let entries := mergeEntries toLowerCase (tagSpokenBlocks sb)
                        (tagDescriptiveBlocks db) in
       splitNewline out = blankSeparated (map renderEntry entries)
       /\ Forall (fun p => p ≠ [] /\ noLineFeed p) (map renderEntry entries)
       /\ noAdjacentSpeakers entries.
Proof.
  destruct (combineTranscripts_parsed spokenSrt descriptiveSrt)
    as (sb & db & Hsb & Hdb & Hout).
  exists sb, db. eexists. split; [exact Hsb|]. split; [exact Hdb|].
  split; [exact Hout|]. split; [apply transcript_nil|].
  cbv zeta. split_and!.
  - apply splitNewline_paragraphs.
    eapply Forall_impl; [apply rendered_lines|]. by intros p [_ ?].
  - apply rendered_lines.
  - unfold mergeEntries. apply merge_fold. intros [|i] a b Ha Hb; done.
Qed.

Lemma dropNonKey_isKeyChar (s : jsstring) :
  Forall (fun c => isKeyChar c = true) (replaceAll matchNonKey [] s).
Proof.
  apply (replaceAll_ind matchNonKey []
           (fun _ out => Forall (fun c => isKeyChar c = true) out)).
  - constructor.
  - intros c r Hm IH. constructor; [|done].
    unfold matchNonKey in Hm.
    destruct (runLength _ (c :: r)) eqn:Hrun; [|done].
    apply runLength_zero in Hrun. by apply negb_false_iff in Hrun.
  - intros c r Hm _. unfold matchNonKey in Hm.
    by destruct (runLength _ (c :: r)).
  - intros c r n _ IH. done.
Qed.

(** X11.  A comparison key holds nothing but the letters a to z and the
    digits, whatever the lower-casing of the platform gives. *)
Theorem normalizeForCompare_key_units (s : jsstring) :
  Forall (fun c => isKeyChar c = true) (normalizeForCompare toLowerCase s).
Proof. apply trim_Forall, dropNonKey_isKeyChar. Qed.

End Layout.

(** ** The cleaned text *)

(** X12.  What a cleaned text looks like: it is trimmed, the tag and the
    brace patterns match nowhere in it, it holds no tab, form feed,
    vertical tab or zero-width space, and no white space stands right
    before a line terminator, so no line ends in white space and no line
    is empty. *)
Theorem cleanSrtText_tidy (s : jsstring) :
  trim (cleanSrtText s) = cleanSrtText s
  /\ noMatch matchTag (cleanSrtText s)
  /\ noMatch matchBraces (cleanSrtText s)
  /\ Forall (fun c => isTabLike c = false /\ c ≠ 8203) (cleanSrtText s)
  /\ forall (i : nat) (c d : Z),
       cleanSrtText s !! i = Some c -> cleanSrtText s !! S i = Some d ->
       isSpace c = true -> isLineTerminator d = false.
Proof.
  destruct (cleanSrtText_normal s) as (H1 & H2 & H3 & H4 & H5 & H6).
  split_and!; [apply cleanSrtText_trimmed|done|done| |].
  - apply Forall_forall. intros c Hc. split.
    + by eapply Forall_forall in H5.
    + by intros ->.
  - intros i c d Hc Hd Hsp.
    pose proof (noTrailing_lookup _ _ _ H4 Hc Hsp) as Hend.
    rewrite (drop_S _ d) in Hend by done. done.
Qed.

(** X13.  The last two steps of the normaliser never find anything to do:
    once white space before line ends is removed and tabs are collapsed,
    no run of line feeds is left for [/\n{2,}/], and [trim] removes
    leading white space only. *)
Theorem cleanSrtText_last_steps (s : jsstring) :
  let out := collapseTabs (stripTrailingSpace (stripZeroWidth
               (stripBraces (stripTags s)))) in
  collapseNewlines out = out
  /\ trimEnd (trimStart out) = trimStart out
  /\ cleanSrtText s = trimStart out.
Proof.
  intros out.
  assert (Htr : noTrailing out)
    by apply collapseTabs_noTrailing, stripTrailingSpace_noTrailing.
  assert (Hnl : collapseNewlines out = out).
  { unfold collapseNewlines. apply replaceAll_noMatch.
    by apply noTrailing_noMatch_newlines. }
  assert (Hte : trimEnd (trimStart out) = trimStart out).
  { destruct (trimStart_drop out) as [k ->].
    apply noTrailing_trimEnd. by apply noTrailing_drop. }
  split_and!; [done|done|].
  unfold cleanSrtText. fold out. rewrite Hnl. exact Hte.
Qed.

(** ** The download name *)

Lemma extractYtpId_shape (s id : jsstring) :
  extractYtpId s = Some id -> canonicalId id.
Proof.
  unfold extractYtpId. destruct (nonEmpty s); [|done].
  destruct (searchYtp s) as [[ds l]|] eqn:Hs; [|done].
  intros [= <-].
  apply searchYtp_Some in Hs as (k & Hk & _).
  apply matchYtpAt_Some in Hk as (rest & (p & _ & _ & _ & Hl & Hd) & ->).
  exists ds. eexists. split; [reflexivity|]. split_and!; try done.
  destruct rest as [|c rest]; [by left|].
  destruct (isLetter c) eqn:Hc; [|by left].
  right. exists (asciiLower c). split; [done|]. by apply letter_lower.
Qed.

Lemma lower_asciiLower (c : Z) : isLowerAZ c = true -> asciiLower c = c.
Proof.
  unfold isLowerAZ, asciiLower, isUpperAZ. intros H.
  destruct (Z.leb_spec 97 c), (Z.leb_spec c 122), (Z.leb_spec 65 c),
    (Z.leb_spec c 90); simpl in *; try done; lia.
Qed.

Lemma extractYtpId_of_name (id : jsstring) :
  canonicalId id ->
  extractYtpId (id ++ js "_Descriptive_Transcript.txt") = Some id.
Proof.
  intros (ds & tl & -> & Hl & Hd & Htl).
  rewrite (extractYtpId_leftmost _ ds
             (tl ++ js "_Descriptive_Transcript.txt") 0).
  - f_equal. f_equal. f_equal.
    destruct Htl as [-> | (c & -> & Hc)]; [done|].
    simpl. unfold isLetter. rewrite Hc, orb_true_r.
    by rewrite lower_asciiLower.
  - rewrite drop_0. exists (js "YTP26-").
    split_and!; try done. by rewrite <- !app_assoc.
  - intros k' Hk'. lia.
Qed.

(** X14.  The download name of a transcript carries the identifier of the
    spoken file in a form the extraction reads back; without an
    identifier it is "combined_transcript.txt", in which no identifier is
    found. *)
Theorem buildOutputFilename_round_trip
    (spokenFilename spokenContent : jsstring) :
  extractYtpId (buildOutputFilename spokenFilename spokenContent)
  = match extractYtpId spokenFilename with
    | Some id => Some id
    | None => extractYtpId spokenContent
    end
  /\ (extractYtpId spokenFilename = None ->
      extractYtpId spokenContent = None ->
      buildOutputFilename spokenFilename spokenContent
      = js "combined_transcript.txt").
Proof.
  unfold buildOutputFilename. split.
  - destruct (extractYtpId spokenFilename) as [id|] eqn:H1.
    + by apply extractYtpId_of_name, (extractYtpId_shape spokenFilename).
    + destruct (extractYtpId spokenContent) as [id|] eqn:H2; [|done].
      by apply extractYtpId_of_name, (extractYtpId_shape spokenContent).
  - by intros -> ->.
Qed.

(** ** The batch *)

Lemma indexDescriptive_fold (descEntries : list IdEntry)
    (m : gmap (list Z) (list IdEntry)) (id : jsstring) :
  default [] (fold_left
     (fun idToDesc d =>
        match entryId d with
        | None => idToDesc
        | Some id => <[id := default [] (idToDesc !! id) ++ [d]]> idToDesc
        end) descEntries m !! id)
  = default [] (m !! id) ++ List.filter (hasId id) descEntries.
Proof.
  revert m. induction descEntries as [|d ds IH]; intros m.
  - simpl. by rewrite app_nil_r.
  - cbn [fold_left]. rewrite IH. unfold hasId at 2. cbn [List.filter].
    destruct (entryId d) as [id'|] eqn:Hd.
    + destruct (decide (id' = id)) as [->|Hne].
      * rewrite lookup_insert_eq. rewrite bool_decide_true by done.
        simpl. by rewrite <- app_assoc.
      * rewrite lookup_insert_ne by done.
        rewrite bool_decide_false by congruence. done.
    + rewrite bool_decide_false by done. done.
Qed.

Lemma indexDescriptive_fold_lookup (descEntries : list IdEntry)
    (m : gmap (list Z) (list IdEntry)) (id : jsstring) :
  fold_left
     (fun idToDesc d =>
        match entryId d with
        | None => idToDesc
        | Some id => <[id := default [] (idToDesc !! id) ++ [d]]> idToDesc
        end) descEntries m !! id
  = match List.filter (hasId id) descEntries with
    | [] => m !! id
    | l => Some (default [] (m !! id) ++ l)
    end.
Proof.
  revert m. induction descEntries as [|d ds IH]; intros m; [done|].
  cbn [fold_left]. rewrite IH. unfold hasId at 2. cbn [List.filter].
  destruct (entryId d) as [id'|] eqn:Hd.
  - destruct (decide (id' = id)) as [->|Hne].
    + rewrite lookup_insert_eq. rewrite bool_decide_true by done.
      simpl. fold (hasId id).
      destruct (List.filter (hasId id) ds); [done|].
      by rewrite <- app_assoc.
    + rewrite lookup_insert_ne by done.
      rewrite bool_decide_false by congruence. done.
  - rewrite bool_decide_false by done. done.
Qed.

(** X15.  The index built from the descriptive uploads holds, under an
    identifier, exactly the uploads that carry it, in upload order, and
    holds nothing under an identifier that no upload carries. *)
Theorem indexDescriptive_lookup (descEntries : list IdEntry) (id : jsstring) :
  indexDescriptive descEntries !! id
  = match List.filter (hasId id) descEntries with
    | [] => None
    | l => Some l
    end.
Proof.
  unfold indexDescriptive. rewrite indexDescriptive_fold_lookup.
  by rewrite lookup_empty.
Qed.

Section Batch.

Variable toLowerCase : jsstring -> jsstring.
Variable clock : nat -> Date * Date.

Lemma combineTranscripts_returns (spokenSrt descriptiveSrt : jsstring) :
  exists out,
    combineTranscripts toLowerCase spokenSrt descriptiveSrt = Returned out.
Proof.
  destruct (parseLoop_returns (S (length (srtLines spokenSrt)))
              (srtLines spokenSrt) 0 []) as [sb Hsb]; [lia|].
  destruct (parseLoop_returns (S (length (srtLines descriptiveSrt)))
              (srtLines descriptiveSrt) 0 []) as [db Hdb]; [lia|].
  eexists. by apply combineTranscripts_blocks.
Qed.

Lemma combineWith_pairs (id : jsstring) (s : IdEntry) (matches : list IdEntry) :
  canonicalId id ->
  exists outs,
    combineWith toLowerCase id (entryContent s) matches = Returned outs
    /\ Forall2 (pairOutput toLowerCase) outs
         (map (fun d => (id, s, d)) matches).
Proof.
  intros Hid. induction matches as [|d ds (outs & Houts & Hp)].
  - exists []. split; [done|constructor].
  - destruct (combineTranscripts_returns (entryContent s) (entryContent d))
      as [r Hr].
    eexists. cbn [combineWith]. rewrite Hr. cbn [mbind outcome_bind].
    rewrite Houts. cbn [mbind outcome_bind mret outcome_ret].
    split; [reflexivity|]. constructor; [|done].
    split_and!; [done|done|]. cbn [name]. by apply extractYtpId_of_name.
Qed.

Lemma identify_canonical (f : UploadedFile) (id : jsstring) :
  entryId (identify f) = Some id -> canonicalId id.
Proof.
  unfold identify. cbn [entryId].
  destruct (extractYtpId (fileName f)) as [id'|] eqn:H1.
  - intros [= <-]. by eapply extractYtpId_shape.
  - intros H2. by eapply extractYtpId_shape.
Qed.

Lemma collectOutputs_pairs (descEntries spokenEntries : list IdEntry) :
  Forall (fun s => forall id, entryId s = Some id -> canonicalId id)
    spokenEntries ->
  exists outs,
    collectOutputs toLowerCase (indexDescriptive descEntries) spokenEntries
    = Returned outs
    /\ Forall2 (pairOutput toLowerCase) outs
         (matchingPairs spokenEntries descEntries).
Proof.
  induction 1 as [|s ss Hs Hss (more & Hmore & Hp)].
  - exists []. split; [done|constructor].
  - cbn [collectOutputs matchingPairs flat_map].
    fold (matchingPairs ss descEntries).
    destruct (entryId s) as [id|] eqn:Hid.
    + destruct (combineWith_pairs id s
                  (default [] (indexDescriptive descEntries !! id))
                  (Hs id eq_refl)) as (here & Hhere & Hph).
      rewrite Hhere. cbn [mbind outcome_bind]. rewrite Hmore.
      cbn [mbind outcome_bind mret outcome_ret].
      eexists. split; [reflexivity|].
      apply Forall2_app; [|done].
      unfold indexDescriptive in Hph.
      by rewrite indexDescriptive_fold in Hph.
    + cbn [mbind outcome_bind mret outcome_ret]. rewrite Hmore.
      cbn [mbind outcome_bind mret outcome_ret].
      exists more. done.
Qed.

(** X16.  The batch always returns, with one output per pair of a spoken
    and a descriptive upload that carry the same identifier, spoken
    uploads in upload order and under each its descriptive uploads in
    upload order; an output is named after the identifier, which reads
    back from the name, and holds the transcript of its pair. *)
Theorem batchOutputs_pairs (spokenFiles descFiles : list UploadedFile) :
  exists outs,
    batchOutputs toLowerCase spokenFiles descFiles = Returned outs
    /\ Forall2 (pairOutput toLowerCase) outs
         (matchingPairs (map identify spokenFiles) (map identify descFiles)).
Proof.
  unfold batchOutputs. apply collectOutputs_pairs.
  apply Forall_fmap, Forall_forall. intros f _ id. simpl.
  apply identify_canonical.
Qed.

End Batch.

(** ** The pages the handlers leave *)

Section Handlers.

Variable toLowerCase : jsstring -> jsstring.
Variable clock : nat -> Date * Date.



End Handlers.

(** ** The archive, read back *)

Lemma bytes_of_uint16 (v : Z) :
  byteOf (v mod 2 ^ 16) 0 + 256 * byteOf (v mod 2 ^ 16) 1 = v mod 2 ^ 16.
Proof.
  unfold byteOf.
  pose proof (Z.mod_pos_bound v (2 ^ 16) ltac:(lia)) as Hr.
  set (x := v mod 2 ^ 16) in *.
  change (256 ^ 0) with 1. change (256 ^ 1) with 256.
  rewrite Z.div_1_r.
  assert (x / 256 < 256) by (apply Z.div_lt_upper_bound; lia).
  assert (0 <= x / 256) by (apply Z.div_pos; lia).
  rewrite (Z.mod_small (x / 256)) by lia.
  pose proof (Z.div_mod x 256 ltac:(lia)). lia.
Qed.

Lemma localFileHeader_bytes (t d crc size n : Z) :
  localFileHeader t d crc size n
  = [80; 75; 3; 4; 20; 0; 0; 0; 0; 0;
     byteOf (t mod 2 ^ 16) 0; byteOf (t mod 2 ^ 16) 1;
     byteOf (d mod 2 ^ 16) 0; byteOf (d mod 2 ^ 16) 1;
     byteOf (toUint32 crc) 0; byteOf (toUint32 crc) 1;
     byteOf (toUint32 crc) 2; byteOf (toUint32 crc) 3;
     byteOf (toUint32 size) 0; byteOf (toUint32 size) 1;
     byteOf (toUint32 size) 2; byteOf (toUint32 size) 3;
     byteOf (toUint32 size) 0; byteOf (toUint32 size) 1;
     byteOf (toUint32 size) 2; byteOf (toUint32 size) 3;
     byteOf (n mod 2 ^ 16) 0; byteOf (n mod 2 ^ 16) 1; 0; 0].
Proof. reflexivity. Qed.

Lemma centralHeader_bytes (t d crc size n off : Z) :
  centralHeader t d crc size n off
  = [80; 75; 1; 2; 20; 0; 20; 0; 0; 0; 0; 0;
     byteOf (t mod 2 ^ 16) 0; byteOf (t mod 2 ^ 16) 1;
     byteOf (d mod 2 ^ 16) 0; byteOf (d mod 2 ^ 16) 1;
     byteOf (toUint32 crc) 0; byteOf (toUint32 crc) 1;
     byteOf (toUint32 crc) 2; byteOf (toUint32 crc) 3;
     byteOf (toUint32 size) 0; byteOf (toUint32 size) 1;
     byteOf (toUint32 size) 2; byteOf (toUint32 size) 3;
     byteOf (toUint32 size) 0; byteOf (toUint32 size) 1;
     byteOf (toUint32 size) 2; byteOf (toUint32 size) 3;
     byteOf (n mod 2 ^ 16) 0; byteOf (n mod 2 ^ 16) 1; 0; 0;
     0; 0; 0; 0; 0; 0; 0; 0; 0; 0;
     byteOf (toUint32 off) 0; byteOf (toUint32 off) 1;
     byteOf (toUint32 off) 2; byteOf (toUint32 off) 3].
Proof. reflexivity. Qed.

Lemma endRecord_bytes (count size start : Z) :
  endRecord count size start
  = [80; 75; 5; 6; 0; 0; 0; 0;
     byteOf (count mod 2 ^ 16) 0; byteOf (count mod 2 ^ 16) 1;
     byteOf (count mod 2 ^ 16) 0; byteOf (count mod 2 ^ 16) 1;
     byteOf (toUint32 size) 0; byteOf (toUint32 size) 1;
     byteOf (toUint32 size) 2; byteOf (toUint32 size) 3;
     byteOf (toUint32 start) 0; byteOf (toUint32 start) 1;
     byteOf (toUint32 start) 2; byteOf (toUint32 start) 3; 0; 0].
Proof. reflexivity. Qed.

Lemma addFiles_chunks (clock : nat -> Date * Date) (files : list OutputFile)
    (w : ZipWriter) (k : nat) :
  concat (chunks (addFiles w clock k files))
  = concat (chunks w) ++ localEntries clock k files.
Proof.
  revert w k. induction files as [|f files IH]; intros w k.
  - simpl. by rewrite app_nil_r.
  - cbn [addFiles localEntries]. rewrite IH.
    unfold addFile, _push. cbn [chunks].
    rewrite !concat_app. cbn [concat]. rewrite !app_nil_r.
    by rewrite <- !app_assoc.
Qed.

Lemma buildZip_parts (clock : nat -> Date * Date) (files : list OutputFile) :
  let w := zipWriterOf clock files in
  buildZip clock files
  = localEntries clock 0 files
    ++ concat (centralChunks (centralDirectory w))
    ++ endRecord (Z.of_nat (length (centralDirectory w)))
         (Z.of_nat (length (concat (centralChunks (centralDirectory w)))))
         (offset w).
Proof.
  intros w. unfold buildZip, toUint8Array. fold (zipWriterOf clock files).
  fold w. rewrite chunks_sealed, !concat_app. cbn [concat].
  rewrite app_nil_r. unfold w, zipWriterOf. by rewrite addFiles_chunks.
Qed.

Lemma crc32_range (buf : list Z) : toUint32 (crc32 buf) = crc32 buf.
Proof. apply toUint32_small. unfold crc32. apply toUint32_range. Qed.

Lemma getUint32_app_l (h x : list Z) (p : nat) :
  (p + 4 <= length h)%nat -> getUint32 (h ++ x) p = getUint32 h p.
Proof. intros Hp. unfold getUint32. by rewrite !lookup_app_l by lia. Qed.

Lemma getUint16_app_l (h x : list Z) (p : nat) :
  (p + 2 <= length h)%nat -> getUint16 (h ++ x) p = getUint16 h p.
Proof. intros Hp. unfold getUint16. by rewrite !lookup_app_l by lia. Qed.

Lemma bytes_of_toUint32 (v : Z) :
  byteOf (toUint32 v) 0 + 256 * byteOf (toUint32 v) 1
  + 65536 * byteOf (toUint32 v) 2 + 16777216 * byteOf (toUint32 v) 3
  = toUint32 v.
Proof. apply bytes_of_uint32, toUint32_range. Qed.

(** The fields of a local header read back what was stored, reduced to
    the width of the field. *)
Lemma localFileHeader_read (t d crc size n : Z) :
  let lh := localFileHeader t d crc size n in
  getUint32 lh 0 = 67324752
  /\ getUint16 lh 4 = 20
  /\ getUint16 lh 6 = 0
  /\ getUint16 lh 8 = 0
  /\ getUint16 lh 10 = t mod 2 ^ 16
  /\ getUint16 lh 12 = d mod 2 ^ 16
  /\ getUint32 lh 14 = toUint32 crc
  /\ getUint32 lh 18 = toUint32 size
  /\ getUint32 lh 22 = toUint32 size
  /\ getUint16 lh 26 = n mod 2 ^ 16
  /\ getUint16 lh 28 = 0.
Proof.
  intros lh. unfold lh. rewrite localFileHeader_bytes.
  unfold getUint32, getUint16. cbn [lookup list_lookup default].
  split_and!; try reflexivity;
    first [apply bytes_of_uint16 | apply bytes_of_toUint32].
Qed.

Lemma readLocalEntry_written (now : Date * Date) (f : OutputFile)
    (rest : list Z) :
  Z.of_nat (length (utf8Encode (name f))) < 2 ^ 16 ->
  Z.of_nat (length (utf8Encode (content f))) < 2 ^ 32 ->
  readLocalEntry (localHeaderOf now f ++ utf8Encode (name f)
                  ++ utf8Encode (content f) ++ rest)
  = Some (utf8Encode (name f), utf8Encode (content f), rest).
Proof.
  intros Hn Hd. unfold localHeaderOf.
  set (nb := utf8Encode (name f)) in *.
  set (db := utf8Encode (content f)) in *.
  set (lh := localFileHeader _ _ _ _ _).
  assert (Hlen : length lh = 30%nat) by apply length_localFileHeader.
  destruct (localFileHeader_read (_dosTime now.1) (_dosDate now.2)
              (crc32 db) (Z.of_nat (length db)) (Z.of_nat (length nb)))
    as (H0 & _ & _ & H8 & _ & _ & H14 & H18 & _ & H26 & H28).
  fold lh in H0, H8, H14, H18, H26, H28.
  unfold readLocalEntry.
  rewrite !getUint32_app_l, !getUint16_app_l by lia.
  rewrite H0, H8, H14, H18, H26, H28. cbn [Z.eqb andb Pos.eqb].
  rewrite (Z.mod_small (Z.of_nat (length nb))) by (split; [lia|exact Hn]).
  rewrite (toUint32_small (Z.of_nat (length db)))
    by (split; [lia|exact Hd]).
  rewrite !Nat2Z.id. change (Z.to_nat 0) with O.
  rewrite Nat.add_0_r.
  assert (Hd1 : drop 30 (lh ++ nb ++ db ++ rest) = nb ++ db ++ rest)
    by (by rewrite <- Hlen, drop_app_length).
  assert (Hd2 : drop (30 + length nb) (lh ++ nb ++ db ++ rest) = db ++ rest).
  { rewrite <- drop_drop, Hd1. by rewrite drop_app_length. }
  assert (Hd3 : drop (30 + length nb + length db) (lh ++ nb ++ db ++ rest)
                = rest).
  { rewrite <- drop_drop, Hd2. by rewrite drop_app_length. }
  rewrite Hd1, Hd2, Hd3, !take_app_length.
  rewrite crc32_range, Z.eqb_refl. done.
Qed.

Lemma readLocalEntry_stops (s : list Z) :
  getUint32 s 0 ≠ 67324752 -> readLocalEntry s = None.
Proof.
  intros H. unfold readLocalEntry.
  destruct (Z.eqb_spec (getUint32 s 0) 67324752); done.
Qed.

Lemma readLocalEntries_written (clock : nat -> Date * Date)
    (files : list OutputFile) (tl : list Z) :
  Forall (fun f => Z.of_nat (length (utf8Encode (name f))) < 2 ^ 16
                   /\ Z.of_nat (length (utf8Encode (content f))) < 2 ^ 32)
    files ->
  getUint32 tl 0 ≠ 67324752 ->
  forall (k fuel : nat),
    (length files <= fuel)%nat ->
    readLocalEntries fuel (localEntries clock k files ++ tl)
    = map (fun f => (utf8Encode (name f), utf8Encode (content f))) files.
Proof.
  intros Hfiles Htl. induction Hfiles as [|f files [Hn Hd] _ IH];
    intros k fuel Hfuel.
  - destruct fuel; [done|]. simpl. by rewrite readLocalEntry_stops.
  - destruct fuel as [|fuel]; [simpl in Hfuel; lia|].
    cbn [readLocalEntries localEntries map].
    rewrite <- !app_assoc.
    rewrite readLocalEntry_written by done.
    rewrite IH by (simpl in Hfuel; lia). done.
Qed.

(** X19.  The local entries of the archive read back.  When every name
    encodes to fewer than 2^16 bytes and every content to fewer than
    2^32, a reader that walks the archive from its first byte, entry by
    entry after the fields of each local header, finds the names and
    the contents of the files, UTF-8 encoded, in their order, each with a
    CRC-32 that matches, and stops at the central directory. *)
Theorem buildZip_read_back (clock : nat -> Date * Date)
    (files : list OutputFile) (fuel : nat) :
  Forall (fun f => Z.of_nat (length (utf8Encode (name f))) < 2 ^ 16
                   /\ Z.of_nat (length (utf8Encode (content f))) < 2 ^ 32)
    files ->
  (length files <= fuel)%nat ->
  readLocalEntries fuel (buildZip clock files)
  = map (fun f => (utf8Encode (name f), utf8Encode (content f))) files.
Proof.
  intros Hfiles Hfuel. rewrite buildZip_parts.
  apply readLocalEntries_written; [done| |done].
  destruct (zipWriterOf_inv clock files) as (Hcd & _ & _ & Hinv).
  destruct files as [|f files].
  - destruct (centralDirectory (zipWriterOf clock [])); [|done].
    cbn [centralChunks flat_map concat app].
    rewrite endRecord_bytes. done.
  - destruct (Hinv O f eq_refl) as (_ & _ & _ & cd & Hc & Hl & Hsig & _).
    destruct (centralDirectory (zipWriterOf clock (f :: files)))
      as [|e es]; [done|].
    injection Hc as ->.
    cbn [centralChunks flat_map concat app fst snd].
    rewrite <- !app_assoc.
    rewrite getUint32_app_l by lia. rewrite Hsig. done.
Qed.

Lemma length_localEntries_cons (clock : nat -> Date * Date) (k : nat)
    (f : OutputFile) (rest : list OutputFile) :
  Z.of_nat (length (localEntries clock k (f :: rest)))
  = 30 + Z.of_nat (length (utf8Encode (name f)))
    + Z.of_nat (length (utf8Encode (content f)))
    + Z.of_nat (length (localEntries clock (S k) rest)).
Proof.
  cbn [localEntries]. rewrite !length_app. unfold localHeaderOf.
  rewrite length_localFileHeader. lia.
Qed.

Lemma addFiles_central (clock : nat -> Date * Date) (files : list OutputFile)
    (w : ZipWriter) (k : nat) :
  centralDirectory (addFiles w clock k files)
  = centralDirectory w ++ centralEntries clock k (offset w) files
  /\ offset (addFiles w clock k files)
     = offset w + Z.of_nat (length (localEntries clock k files)).
Proof.
  revert w k. induction files as [|f files IH]; intros w k.
  - simpl. rewrite app_nil_r. split; [done|lia].
  - cbn [addFiles centralEntries].
    destruct (IH (addFile w (name f) (utf8Encode (content f)) (clock k))
                (S k)) as [-> ->].
    rewrite length_localEntries_cons.
    unfold addFile, _push. cbn [centralDirectory offset].
    rewrite length_localFileHeader. rewrite <- app_assoc.
    change (Z.of_nat 30) with 30. split; [done|lia].
Qed.

Lemma centralHeader_read (t d crc size n off : Z) :
  let cd := centralHeader t d crc size n off in
  getUint32 cd 0 = 33639248
  /\ getUint16 cd 4 = 20
  /\ getUint16 cd 6 = 20
  /\ getUint16 cd 8 = 0
  /\ getUint16 cd 10 = 0
  /\ getUint16 cd 12 = t mod 2 ^ 16
  /\ getUint16 cd 14 = d mod 2 ^ 16
  /\ getUint32 cd 16 = toUint32 crc
  /\ getUint32 cd 20 = toUint32 size
  /\ getUint32 cd 24 = toUint32 size
  /\ getUint16 cd 28 = n mod 2 ^ 16
  /\ getUint16 cd 30 = 0
  /\ getUint16 cd 32 = 0
  /\ getUint16 cd 34 = 0
  /\ getUint16 cd 36 = 0
  /\ getUint32 cd 38 = 0
  /\ getUint32 cd 42 = toUint32 off.
Proof.
  intros cd. unfold cd. rewrite centralHeader_bytes.
  unfold getUint32, getUint16. cbn [lookup list_lookup default].
  split_and!; try reflexivity;
    first [apply bytes_of_uint16 | apply bytes_of_toUint32].
Qed.

Lemma endRecord_read (count size start : Z) :
  let e := endRecord count size start in
  getUint32 e 0 = 101010256
  /\ getUint16 e 4 = 0
  /\ getUint16 e 6 = 0
  /\ getUint16 e 8 = count mod 2 ^ 16
  /\ getUint16 e 10 = count mod 2 ^ 16
  /\ getUint32 e 12 = toUint32 size
  /\ getUint32 e 16 = toUint32 start
  /\ getUint16 e 20 = 0.
Proof.
  intros e. unfold e. rewrite endRecord_bytes.
  unfold getUint32, getUint16. cbn [lookup list_lookup default].
  split_and!; try reflexivity;
    first [apply bytes_of_uint16 | apply bytes_of_toUint32].
Qed.

(** The index that a reader of the central directory should find. *)
Lemma readCentralEntries_written (clock : nat -> Date * Date)
    (files : list OutputFile) (tl : list Z) :
  forall (k : nat) (off : Z),
    0 <= off ->
    off + Z.of_nat (length (localEntries clock k files)) < 2 ^ 32 ->
    Forall (fun f => Z.of_nat (length (utf8Encode (name f))) < 2 ^ 16)
      files ->
    exists es,
      readCentralEntries (length files)
        (concat (centralChunks (centralEntries clock k off files)) ++ tl)
      = Some es
      /\ forall (pre tl' : list Z),
           Z.of_nat (length pre) = off ->
           readMembers (pre ++ localEntries clock k files ++ tl') es
           = Some (map (fun f => (utf8Encode (name f),
                                  utf8Encode (content f))) files).
Proof.
  induction files as [|f files IH]; intros k off Hoff Hlen Hnames.
  - exists []. by split.
  - apply Forall_cons in Hnames as [Hn Hnames].
    rewrite length_localEntries_cons in Hlen.
    set (nb := utf8Encode (name f)) in *.
    set (db := utf8Encode (content f)) in *.
    destruct (IH (S k) (off + 30 + Z.of_nat (length nb)
                         + Z.of_nat (length db)) ltac:(lia) ltac:(lia)
                Hnames) as (es & Hes & Hmem).
    exists ((nb, Z.to_nat off) :: es). split.
    + cbn [length readCentralEntries centralEntries centralChunks
           flat_map concat app fst snd].
      fold nb db. fold (centralChunks
                          (centralEntries clock (S k)
                             (off + 30 + Z.of_nat (length nb)
                              + Z.of_nat (length db)) files)).
      set (cd := centralHeader _ _ _ _ _ _).
      assert (Hcl : length cd = 46%nat) by apply length_centralHeader.
      destruct (centralHeader_read (_dosTime (clock k).1)
                  (_dosDate (clock k).2) (crc32 db) (Z.of_nat (length db))
                  (Z.of_nat (length nb)) off)
        as (H0 & _ & _ & _ & _ & _ & _ & _ & _ & _ & H28 & H30 & H32 & _
            & _ & _ & H42).
      fold cd in H0, H28, H30, H32, H42.
      rewrite <- !app_assoc.
      unfold readCentralEntry.
      rewrite !getUint32_app_l, !getUint16_app_l by lia.
      rewrite H0, H28, H30, H32, H42. cbn [Z.eqb Pos.eqb].
      rewrite (Z.mod_small (Z.of_nat (length nb)))
        by (split; [lia|exact Hn]).
      rewrite (toUint32_small off) by (split; [lia|lia]).
      rewrite Nat2Z.id. change (Z.to_nat 0) with O. rewrite !Nat.add_0_r.
      assert (Hd1 : forall x, drop 46 (cd ++ nb ++ x) = nb ++ x)
        by (intros x; by rewrite <- Hcl, drop_app_length).
      assert (Hd2 : forall x, drop (46 + length nb) (cd ++ nb ++ x) = x).
      { intros x. rewrite <- drop_drop, Hd1. by rewrite drop_app_length. }
      rewrite Hd1, Hd2, take_app_length, Hes. done.
    + intros pre tl' Hpre. cbn [readMembers]. unfold readMember. cbn [fst snd].
      rewrite <- Hpre, Nat2Z.id, drop_app_length.
      cbn [localEntries]. fold nb db. rewrite <- !app_assoc.
      rewrite readLocalEntry_written; [|done|fold db; lia].
      fold nb db. rewrite bool_decide_true by done.
      specialize (Hmem (pre ++ localHeaderOf (clock k) f ++ nb ++ db) tl').
      rewrite <- !app_assoc in Hmem. rewrite Hmem; [done|].
      rewrite !length_app. unfold localHeaderOf.
      rewrite length_localFileHeader. lia.
Qed.

(** X20.  The archive unpacks to the files.  When the archive is shorter
    than 2^32 bytes, holds fewer than 2^16 files and every name encodes to
    fewer than 2^16 bytes, a reader that starts from the end record,
    walks the central directory and follows each record to its local
    entry finds the names and the contents of the files, UTF-8 encoded,
    in their order. *)
Theorem readArchive_buildZip (clock : nat -> Date * Date)
    (files : list OutputFile) :
  Z.of_nat (length (buildZip clock files)) < 2 ^ 32 ->
  Z.of_nat (length files) < 2 ^ 16 ->
  Forall (fun f => Z.of_nat (length (utf8Encode (name f))) < 2 ^ 16) files ->
  readArchive (buildZip clock files)
  = Some (map (fun f => (utf8Encode (name f), utf8Encode (content f)))
            files).
Proof.
  intros Hlen Hcount Hnames.
  pose proof (buildZip_parts clock files) as Hparts. cbv zeta in Hparts.
  destruct (addFiles_central clock files newZipWriter 0) as [Hcd Hoff].
  fold (zipWriterOf clock files) in Hcd, Hoff.
  cbn [newZipWriter centralDirectory offset app] in Hcd, Hoff.
  rewrite Hcd, Hoff in Hparts.
  assert (Hn : length (centralEntries clock 0 0 files) = length files).
  { rewrite <- Hcd.
    by destruct (zipWriterOf_inv clock files) as (? & _). }
  rewrite Hn in Hparts.
  set (L := localEntries clock 0 files) in *.
  set (C := concat (centralChunks (centralEntries clock 0 0 files))) in *.
  set (E := endRecord (Z.of_nat (length files)) (Z.of_nat (length C))
              (0 + Z.of_nat (length L))) in *.
  assert (HE : length E = 22%nat) by apply length_endRecord.
  rewrite Hparts in Hlen |- *.
  rewrite !length_app, HE in Hlen.
  destruct (endRecord_read (Z.of_nat (length files)) (Z.of_nat (length C))
              (0 + Z.of_nat (length L)))
    as (H0 & _ & _ & _ & H10 & _ & H16 & _).
  fold E in H0, H10, H16.
  unfold readArchive.
  assert (Hd : drop (length (L ++ C ++ E) - 22) (L ++ C ++ E) = E).
  { rewrite app_assoc.
    replace (length ((L ++ C) ++ E) - 22)%nat with (length (L ++ C))
      by (rewrite !length_app; lia).
    apply drop_app_length. }
  rewrite Hd, H0, H10, H16. cbn [Z.eqb Pos.eqb].
  rewrite Z.mod_small by (split; [lia|exact Hcount]).
  rewrite toUint32_small by lia.
  rewrite Nat2Z.id, Z.add_0_l, Nat2Z.id, drop_app_length.
  destruct (readCentralEntries_written clock files E 0 0 ltac:(lia)
              ltac:(fold L; lia) Hnames) as (es & Hes & Hmem).
  fold C in Hes. rewrite Hes.
  exact (Hmem [] (C ++ E) eq_refl).
Qed.

Lemma length_centralEntries (clock : nat -> Date * Date)
    (files : list OutputFile) :
  forall (k : nat) (off : Z),
    Z.of_nat (length (concat (centralChunks
                                (centralEntries clock k off files))))
    = foldr (fun f acc => 46 + Z.of_nat (length (utf8Encode (name f))) + acc)
        0 files.
Proof.
  induction files as [|f files IH]; intros k off; [done|].
  cbn [centralEntries centralChunks flat_map concat foldr app fst snd].
  fold (centralChunks
          (centralEntries clock (S k)
             (off + 30 + Z.of_nat (length (utf8Encode (name f)))
              + Z.of_nat (length (utf8Encode (content f)))) files)).
  rewrite !length_app, length_centralHeader, !Nat2Z.inj_add, IH. lia.
Qed.

Lemma length_localEntries (clock : nat -> Date * Date)
    (files : list OutputFile) :
  forall (k : nat),
    Z.of_nat (length (localEntries clock k files))
    = foldr (fun f acc => 30 + Z.of_nat (length (utf8Encode (name f)))
                          + Z.of_nat (length (utf8Encode (content f))) + acc)
        0 files.
Proof.
  induction files as [|f files IH]; intros k; [done|].
  rewrite length_localEntries_cons, IH. done.
Qed.

(** X21.  The size of the archive: 22 bytes for the end record, and for
    each file 76 bytes of headers, its encoded name twice and its encoded
    content once; nothing is compressed. *)
Theorem buildZip_length (clock : nat -> Date * Date)
    (files : list OutputFile) :
  Z.of_nat (length (buildZip clock files))
  = 22 + foldr (fun f acc => storedSize f + acc) 0 files.
Proof.
  rewrite buildZip_parts.
  destruct (addFiles_central clock files newZipWriter 0) as [Hcd _].
  fold (zipWriterOf clock files) in Hcd.
  cbn [newZipWriter centralDirectory app] in Hcd. rewrite Hcd.
  rewrite !length_app, length_endRecord, !Nat2Z.inj_add.
  rewrite length_centralEntries, length_localEntries.
  clear Hcd. unfold storedSize.
  induction files as [|f files IH]; cbn [foldr]; lia.
Qed.

(** ** DOS time and date *)

Lemma dosTime_all :
  forallb (fun h =>
    forallb (fun m =>
      forallb (fun s =>
        let t := _dosTime (mkDate h m s 0 0 0) in
        (0 <=? t) && (t <? 65536) && (Z.shiftr t 11 =? h)
        && (Z.land (Z.shiftr t 5) 63 =? m)
        && (2 * Z.land t 31 =? s - s mod 2))
        (seqZ 0 60)) (seqZ 0 60)) (seqZ 0 24) = true.
Proof. vm_compute. reflexivity. Qed.

Lemma dosDate_all :
  forallb (fun y =>
    forallb (fun mo =>
      forallb (fun day =>
        let x := _dosDate (mkDate 0 0 0 y mo day) in
        (0 <=? x) && (x <? 65536) && (1980 + Z.shiftr x 9 =? y)
        && (Z.land (Z.shiftr x 5) 15 =? mo + 1)
        && (Z.land x 31 =? day))
        (seqZ 1 31)) (seqZ 0 12)) (seqZ 1980 128) = true.
Proof. vm_compute. reflexivity. Qed.

Ltac bools_to_props :=
  repeat match goal with
         | H : (_ && _) = true |- _ => apply andb_true_iff in H as [? ?]
         | H : (_ =? _) = true |- _ => apply Z.eqb_eq in H
         | H : (_ <=? _) = true |- _ => apply Z.leb_le in H
         | H : (_ <? _) = true |- _ => apply Z.ltb_lt in H
         end.

Lemma forallb_seqZ (p : Z -> bool) (m n x : Z) :
  forallb p (seqZ m n) = true -> m <= x < m + n -> p x = true.
Proof.
  intros H Hx. rewrite forallb_forall in H. apply H.
  apply list_elem_of_In, elem_of_seqZ. done.
Qed.

(** X22.  The time and date fields decode to the clock reading.  For a
    reading with hours below 24, minutes and seconds below 60, a year
    from 1980 to 2107, a month index from 0 to 11 and a day from 1 to 31,
    the two 16-bit fields hold the hour, the minute, the second rounded
    down to an even number, the year, the month from 1 to 12 and the day,
    in the bit layout of the ZIP format. *)
Theorem dos_fields_decode (d : Date) :
  0 <= getHours d < 24 -> 0 <= getMinutes d < 60 ->
  0 <= getSeconds d < 60 ->
  1980 <= getFullYear d <= 2107 -> 0 <= getMonth d <= 11 ->
  1 <= getDate d <= 31 ->
  (0 <= _dosTime d < 65536
   /\ Z.shiftr (_dosTime d) 11 = getHours d
   /\ Z.land (Z.shiftr (_dosTime d) 5) 63 = getMinutes d
   /\ 2 * Z.land (_dosTime d) 31 = getSeconds d - getSeconds d mod 2)
  /\ (0 <= _dosDate d < 65536
      /\ 1980 + Z.shiftr (_dosDate d) 9 = getFullYear d
      /\ Z.land (Z.shiftr (_dosDate d) 5) 15 = getMonth d + 1
      /\ Z.land (_dosDate d) 31 = getDate d).
Proof.
  intros Hh Hm Hs Hy Hmo Hd. split.
  - pose proof dosTime_all as H.
    apply (forallb_seqZ _ _ _ (getHours d)) in H; [|lia].
    apply (forallb_seqZ _ _ _ (getMinutes d)) in H; [|lia].
    apply (forallb_seqZ _ _ _ (getSeconds d)) in H; [|lia].
    cbv beta zeta in H.
    change (_dosTime (mkDate (getHours d) (getMinutes d) (getSeconds d) 0 0 0))
      with (_dosTime d) in H.
    bools_to_props. split_and!; lia.
  - pose proof dosDate_all as H.
    apply (forallb_seqZ _ _ _ (getFullYear d)) in H; [|lia].
    apply (forallb_seqZ _ _ _ (getMonth d)) in H; [|lia].
    apply (forallb_seqZ _ _ _ (getDate d)) in H; [|lia].
    cbv beta zeta in H.
    change (_dosDate (mkDate 0 0 0 (getFullYear d) (getMonth d) (getDate d)))
      with (_dosDate d) in H.
    bools_to_props. split_and!; lia.
Qed.

(** ** The UTF-8 encoder *)

Lemma utf8Encode_cons (c : Z) (r : jsstring) :
  utf8Encode (c :: r)
  = if c <? 128 then c :: utf8Encode r
    else if c <? 2048 then
      Z.lor 192 (Z.shiftr c 6) :: Z.lor 128 (Z.land c 63) :: utf8Encode r
    else if isHighSurrogate c then
      match r with
      | d :: r' =>
          if isLowSurrogate d then
            utf8Four (65536 + Z.shiftl (c - 55296) 10 + (d - 56320))
              ++ utf8Encode r'
          else utf8Three 65533 ++ utf8Encode r
      | [] => utf8Three 65533
      end
    else if isLowSurrogate c then utf8Three 65533 ++ utf8Encode r
    else utf8Three c ++ utf8Encode r.
Proof. reflexivity. Qed.

Lemma utf8Encode_length_step (s : jsstring) :
  ((length s <= length (utf8Encode s) <= 3 * length s)%nat
   /\ (length (utf8Encode s) = length s -> Forall (fun c => c < 128) s))
  /\ forall c,
       (length (c :: s) <= length (utf8Encode (c :: s))
        <= 3 * length (c :: s))%nat
       /\ (length (utf8Encode (c :: s)) = length (c :: s) ->
           Forall (fun c => c < 128) (c :: s)).
Proof.
  induction s as [|d r [[IH1 IH2] IH3]].
  - split; [split; [simpl; lia|constructor]|].
    intros c. cbn [utf8Encode].
    destruct (Z.ltb_spec c 128); [split; [simpl; lia|by repeat constructor]|].
    destruct (c <? 2048); [split; [simpl; lia|simpl; lia]|].
    destruct (isHighSurrogate c); [split; [simpl; lia|simpl; lia]|].
    destruct (isLowSurrogate c); split; simpl; lia.
  - split; [apply IH3|]. intros c.
    destruct (IH3 d) as [IHd1 IHd2].
    rewrite (utf8Encode_cons c).
    destruct (Z.ltb_spec c 128).
    { cbn [length] in *. split; [lia|]. intros Hl. constructor; [done|].
      apply IHd2. lia. }
    assert (Hthree : forall x, length (utf8Three x) = 3%nat) by done.
    assert (Hfour : forall x, length (utf8Four x) = 4%nat) by done.
    destruct (c <? 2048).
    { cbn [length] in *. split; lia. }
    destruct (isHighSurrogate c).
    { destruct (isLowSurrogate d).
      - rewrite length_app, Hfour. cbn [length] in *. split; lia.
      - rewrite length_app, Hthree. cbn [length] in *. split; lia. }
    destruct (isLowSurrogate c);
      rewrite length_app, Hthree; cbn [length] in *; split; lia.
Qed.

(** X23.  The UTF-8 encoder gives at least one byte and at most three per
    code unit, and exactly one per code unit only for text below 128,
    which it leaves as it is. *)
Theorem utf8Encode_length (s : jsstring) :
  (length s <= length (utf8Encode s) <= 3 * length s)%nat
  /\ (length (utf8Encode s) = length s <-> Forall (fun c => c < 128) s)
  /\ (Forall (fun c => c < 128) s -> utf8Encode s = s).
Proof.
  destruct (utf8Encode_length_step s) as [[H1 H2] _].
  split; [done|]. split.
  - split; [done|]. intros H. by rewrite utf8Encode_ascii.
  - apply utf8Encode_ascii.
Qed.

Lemma lor_byte (a b : Z) :
  0 <= a < 256 -> 0 <= b < 256 -> 0 <= Z.lor a b < 256.
Proof.
  intros Ha Hb.
  assert (0 <= Z.lor a b) as Hnn by (apply Z.lor_nonneg; lia).
  split; [done|].
  destruct (Z.eq_dec (Z.lor a b) 0) as [->|Hne]; [lia|].
  change 256 with (2 ^ 8). apply Z.log2_lt_pow2; [lia|].
  rewrite Z.log2_lor by lia.
  assert (forall x, 0 <= x < 256 -> Z.log2 x < 8) as Hlog.
  { intros x Hx. destruct (Z.eq_dec x 0) as [->|]; [done|].
    apply Z.log2_lt_pow2; lia. }
  pose proof (Hlog a Ha). pose proof (Hlog b Hb). lia.
Qed.

Lemma land63_range (x : Z) : 0 <= Z.land x 63 < 64.
Proof.
  change 63 with (Z.ones 6). rewrite Z.land_ones by lia.
  apply Z.mod_pos_bound. lia.
Qed.

Lemma shiftr_range (x k n : Z) :
  0 <= k -> 0 <= x < n * 2 ^ k -> 0 <= Z.shiftr x k < n.
Proof.
  intros Hk Hx. rewrite Z.shiftr_div_pow2 by lia.
  assert (0 < 2 ^ k) by (apply Z.pow_pos_nonneg; lia).
  split; [apply Z.div_pos; lia|apply Z.div_lt_upper_bound; lia].
Qed.

Lemma utf8Three_bytes (c : Z) :
  0 <= c < 65536 -> Forall (fun b => 0 <= b < 256) (utf8Three c).
Proof.
  intros Hc. unfold utf8Three.
  pose proof (shiftr_range c 12 16 ltac:(lia) ltac:(lia)).
  pose proof (land63_range (Z.shiftr c 6)). pose proof (land63_range c).
  repeat constructor; try (apply lor_byte; lia);
    by (eapply Z.le_trans; [|apply lor_byte; lia]).
Qed.

Lemma utf8Four_bytes (cp : Z) :
  0 <= cp < 2097152 -> Forall (fun b => 0 <= b < 256) (utf8Four cp).
Proof.
  intros Hc. unfold utf8Four.
  pose proof (shiftr_range cp 18 8 ltac:(lia) ltac:(lia)).
  pose proof (land63_range (Z.shiftr cp 12)).
  pose proof (land63_range (Z.shiftr cp 6)). pose proof (land63_range cp).
  repeat constructor; try (apply lor_byte; lia);
    by (eapply Z.le_trans; [|apply lor_byte; lia]).
Qed.

Lemma utf8Encode_bytes_step (s : jsstring) :
  Forall (fun c => 0 <= c < 65536) s ->
  Forall (fun b => 0 <= b < 256) (utf8Encode s)
  /\ forall c, 0 <= c < 65536 ->
       Forall (fun b => 0 <= b < 256) (utf8Encode (c :: s)).
Proof.
  induction 1 as [|d r Hd Hr [IH1 IH2]].
  - split; [constructor|]. intros c Hc. rewrite utf8Encode_cons.
    destruct (Z.ltb_spec c 128); [repeat constructor; lia|].
    destruct (Z.ltb_spec c 2048).
    { pose proof (shiftr_range c 6 32 ltac:(lia) ltac:(lia)).
      pose proof (land63_range c).
      repeat constructor; try (apply lor_byte; lia);
        by (eapply Z.le_trans; [|apply lor_byte; lia]). }
    destruct (isHighSurrogate c); [by apply utf8Three_bytes|].
    destruct (isLowSurrogate c); rewrite app_nil_r;
      by apply utf8Three_bytes.
  - split; [by apply IH2|]. intros c Hc. rewrite utf8Encode_cons.
    pose proof (IH2 d Hd) as Hdr.
    destruct (Z.ltb_spec c 128); [constructor; [lia|done]|].
    destruct (Z.ltb_spec c 2048).
    { pose proof (shiftr_range c 6 32 ltac:(lia) ltac:(lia)).
      pose proof (land63_range c).
      repeat constructor; try (apply lor_byte; lia);
        try (by (eapply Z.le_trans; [|apply lor_byte; lia])). done. }
    destruct (isHighSurrogate c) eqn:Hhi.
    { destruct (isLowSurrogate d) eqn:Hlo.
      - apply Forall_app. split; [|done]. apply utf8Four_bytes.
        unfold isHighSurrogate in Hhi. unfold isLowSurrogate in Hlo.
        apply andb_true_iff in Hhi as [H1 H2].
        apply andb_true_iff in Hlo as [H3 H4].
        apply Z.leb_le in H1, H2, H3, H4.
        rewrite Z.shiftl_mul_pow2 by lia. lia.
      - apply Forall_app. split; [by apply utf8Three_bytes|done]. }
    destruct (isLowSurrogate c); apply Forall_app;
      (split; [by apply utf8Three_bytes|done]).
Qed.

(** X24.  What the encoder gives are bytes: for code units from 0 to 65535
    every element of the result lies between 0 and 255. *)
Theorem utf8Encode_bytes (s : jsstring) :
  Forall (fun c => 0 <= c < 65536) s ->
  Forall (fun b => 0 <= b < 256) (utf8Encode s).
Proof. intros H. by destruct (utf8Encode_bytes_step s H). Qed.

(** ** Concrete instances *)

(** Witness of X3: the description, the description between, the Speaker line
    that repeats the first and the late repetition. *)
Lemma dedupeNearDuplicates_keeps_a_representative_witness :
  let items := [upgradeDescription; upgradeBetween; upgradeSpeaker;
                upgradeLate] in
  0 <= 750
  /\ StronglySorted startLe items
  /\ Forall (fun e => exists o,
               o ∈ dedupeNearDuplicates asciiToLowerCase items 750
               /\ standsFor asciiToLowerCase 750 e o) items.
Proof.
  intros items.
  assert (Hw : 0 <= 750) by lia.
  assert (Hs : StronglySorted startLe items).
  { repeat constructor; unfold startLe; simpl; lia. }
  exact (conj Hw (conj Hs
           (dedupeNearDuplicates_keeps_a_representative asciiToLowerCase
              items 750 Hw Hs))).
Defined.

(** Witness of X4: the same line three times, 751 ms apart. *)
Lemma dedupeNearDuplicates_sparse_witness :
  let items := [mkEntry 0 Speaker (js "x"); mkEntry 751 Speaker (js "x");
                mkEntry 1502 Description (js "x")] in
  gapsOver 750 items
  /\ dedupeNearDuplicates asciiToLowerCase items 750 = items.
Proof.
  intros items.
  assert (Hg : gapsOver 750 items) by (simpl; lia).
  exact (conj Hg (dedupeNearDuplicates_sparse asciiToLowerCase items 750 Hg)).
Defined.

(** Witness of X5: two descriptions with different texts at the same time. *)
Lemma dedupeNearDuplicates_distinct_witness :
  let items := [mkEntry 0 Description (js "x");
                mkEntry 0 Description (js "y")] in
  NoDup (map (fun e => normalizeForCompare asciiToLowerCase (text e)) items)
  /\ dedupeNearDuplicates asciiToLowerCase items 750 = items.
Proof.
  intros items.
  assert (Hnd : NoDup (map (fun e => normalizeForCompare asciiToLowerCase
                                       (text e)) items)).
  { apply (bool_decide_unpack _). vm_compute. exact I. }
  exact (conj Hnd
           (dedupeNearDuplicates_distinct asciiToLowerCase items 750 Hnd)).
Defined.

(** Witness of X7: a description between two Speaker lines. *)
Lemma mergeAdjacentSpeakers_nothing_to_merge_witness :
  let items := [mkEntry 0 Speaker (js "a"); mkEntry 1 Description (js "b");
                mkEntry 2 Speaker (js "c")] in
  noAdjacentSpeakers items /\ mergeAdjacentSpeakers items = items.
Proof.
  intros items.
  assert (Hn : noAdjacentSpeakers items).
  { intros [|[|[|i]]] a b Ha Hb; simpl in Ha, Hb; try done;
      injection Ha as <-; injection Hb as <-; reflexivity. }
  exact (conj Hn (mergeAdjacentSpeakers_nothing_to_merge items Hn)).
Defined.

(** Witness of X19: the two small files, read with room for three entries. *)
Lemma buildZip_read_back_witness :
  let clock := fun _ : nat => (noon, noon) in
  Forall (fun f => Z.of_nat (length (utf8Encode (name f))) < 2 ^ 16
                   /\ Z.of_nat (length (utf8Encode (content f))) < 2 ^ 32)
    smallFiles
  /\ (length smallFiles <= 3)%nat
  /\ readLocalEntries 3 (buildZip clock smallFiles)
     = [(js "a.txt", js "hello"); (js "b.txt", js "yo")].
Proof.
  intros clock.
  assert (Hf : Forall (fun f =>
                 Z.of_nat (length (utf8Encode (name f))) < 2 ^ 16
                 /\ Z.of_nat (length (utf8Encode (content f))) < 2 ^ 32)
                 smallFiles).
  { repeat constructor. }
  assert (Hn : (length smallFiles <= 3)%nat) by (simpl; lia).
  exact (conj Hf (conj Hn (buildZip_read_back clock smallFiles 3 Hf Hn))).
Defined.

(** Witness of X20: the two small files. *)
Lemma readArchive_buildZip_witness :
  let clock := fun _ : nat => (noon, noon) in
  Z.of_nat (length (buildZip clock smallFiles)) < 2 ^ 32
  /\ Z.of_nat (length smallFiles) < 2 ^ 16
  /\ Forall (fun f => Z.of_nat (length (utf8Encode (name f))) < 2 ^ 16)
       smallFiles
  /\ readArchive (buildZip clock smallFiles)
     = Some [(js "a.txt", js "hello"); (js "b.txt", js "yo")].
Proof.
  intros clock.
  assert (Hl : Z.of_nat (length (buildZip clock smallFiles)) < 2 ^ 32)
    by (vm_compute; reflexivity).
  assert (Hn : Z.of_nat (length smallFiles) < 2 ^ 16)
    by (vm_compute; reflexivity).
  assert (Hf : Forall (fun f =>
                 Z.of_nat (length (utf8Encode (name f))) < 2 ^ 16)
                 smallFiles).
  { repeat constructor. }
  exact (conj Hl (conj Hn (conj Hf
           (readArchive_buildZip clock smallFiles Hl Hn Hf)))).
Defined.

(** Witness of X22: 31 December 2107, 23:59:59. *)
Lemma dos_fields_decode_witness :
  let d := mkDate 23 59 59 2107 11 31 in
  (0 <= getHours d < 24 /\ 0 <= getMinutes d < 60
   /\ 0 <= getSeconds d < 60 /\ 1980 <= getFullYear d <= 2107
   /\ 0 <= getMonth d <= 11 /\ 1 <= getDate d <= 31)
  /\ Z.shiftr (_dosTime d) 11 = 23
  /\ 2 * Z.land (_dosTime d) 31 = 58
  /\ 1980 + Z.shiftr (_dosDate d) 9 = 2107.
Proof.
  intros d.
  assert (H1 : 0 <= getHours d < 24) by (simpl; lia).
  assert (H2 : 0 <= getMinutes d < 60) by (simpl; lia).
  assert (H3 : 0 <= getSeconds d < 60) by (simpl; lia).
  assert (H4 : 1980 <= getFullYear d <= 2107) by (simpl; lia).
  assert (H5 : 0 <= getMonth d <= 11) by (simpl; lia).
  assert (H6 : 1 <= getDate d <= 31) by (simpl; lia).
  pose proof (dos_fields_decode d H1 H2 H3 H4 H5 H6) as H.
  exact (conj (conj H1 (conj H2 (conj H3 (conj H4 (conj H5 H6)))))
           (conj (proj1 (proj2 (proj1 H)))
              (conj (proj2 (proj2 (proj2 (proj1 H))))
                 (proj1 (proj2 (proj2 H)))))).
Defined.

(** Witness of X24: one code unit of each length class and a surrogate pair. *)
Lemma utf8Encode_bytes_witness :
  let s := [104; 233; 8364; 55357; 56832] in
  Forall (fun c => 0 <= c < 65536) s
  /\ Forall (fun b => 0 <= b < 256) (utf8Encode s).
Proof.
  intros s.
  assert (Hs : Forall (fun c => 0 <= c < 65536) s)
    by (repeat constructor; lia).
  exact (conj Hs (utf8Encode_bytes s Hs)).
Defined.


(** ** The on-screen marker *)

Lemma trimEnd_cons_nonspace (c : Z) (y : jsstring) :
  isSpace c = false -> trimEnd (c :: y) = c :: trimEnd y.
Proof.
  intros Hc. cbn [trimEnd]. destruct (trimEnd y); [by rewrite Hc|done].
Qed.

Lemma trimEnd_app_nonspace (p y : jsstring) :
  Forall (fun c => isSpace c = false) p ->
  trimEnd (p ++ y) = p ++ trimEnd y.
Proof.
  induction 1 as [|c p Hc Hp IH]; [done|].
  cbn [app]. by rewrite trimEnd_cons_nonspace, IH.
Qed.

Lemma splitNewlineRuns_cons (y : jsstring) :
  exists h t, splitNewlineRuns y = h :: t.
Proof.
  induction y as [|d y (h & t & IH)]; [by eexists _, _|].
  cbn [splitNewlineRuns]. rewrite IH.
  destruct (d =? 10); [|by eexists _, _].
  destruct y as [|e y]; [by eexists _, _|].
  destruct (e =? 10); by eexists _, _.
Qed.

Lemma splitNewlineRuns_head (p y : jsstring) :
  noLineFeed p ->
  exists y1 tl, splitNewlineRuns (p ++ y) = (p ++ y1) :: tl.
Proof.
  induction 1 as [|c p Hc Hp (y1 & tl & IH)].
  - apply splitNewlineRuns_cons.
  - exists y1, tl. cbn [app splitNewlineRuns].
    destruct (Z.eqb_spec c 10); [done|]. by rewrite IH.
Qed.

(** The first cue line of a text that begins with [p], a word without
    white space. *)
Lemma cueLines_head (p y : jsstring) :
  p ≠ [] ->
  Forall (fun c => isSpace c = false) p ->
  exists z, head (cueLines (p ++ y)) = Some (p ++ z).
Proof.
  intros Hne Hp.
  assert (Hlf : noLineFeed p).
  { eapply Forall_impl; [exact Hp|]. by intros c Hc ->. }
  destruct (splitNewlineRuns_head p y Hlf) as (y1 & tl & Hs).
  unfold cueLines, filterBoolean. rewrite Hs. cbn [map].
  assert (Ht : trim (p ++ y1) = p ++ trimEnd y1).
  { unfold trim. destruct p as [|c p]; [done|].
    apply Forall_cons in Hp as [Hc Hp]. cbn [app trimStart]. rewrite Hc.
    rewrite trimEnd_cons_nonspace by done.
    by rewrite trimEnd_app_nonspace. }
  rewrite Ht. exists (trimEnd y1). cbn [List.filter].
  by destruct p.
Qed.

(** X25.  The marker written with a second hyphen is not recognised: a
    block whose text begins with "On-screen-text:" is tagged Description,
    whatever follows. *)
Theorem tagDescriptiveBlock_second_hyphen (t : Z) (y : jsstring) :
  role (tagDescriptiveBlock (mkBlock t (js "On-screen-text:" ++ y)))
  = Description
  /\ startMs (tagDescriptiveBlock (mkBlock t (js "On-screen-text:" ++ y)))
     = t.
Proof.
  unfold tagDescriptiveBlock. cbn [blockText blockStartMs].
  destruct (cueLines_head (js "On-screen-text:") y) as [z Hz];
    [done|by repeat constructor|].
  rewrite Hz. cbn [default from_option id].
  assert (Hn : onScreenRest (js "On-screen-text:" ++ z) = None)
    by reflexivity.
  by rewrite Hn.
Qed.

Lemma trim_fixed (x : jsstring) :
  trim x = x -> trimStart x = x /\ trimEnd x = x.
Proof.
  intros H. unfold trim in H.
  destruct (trimStart_drop x) as [k Hk].
  pose proof (sublist_length _ _ (trimEnd_sublist (trimStart x))) as Hl.
  rewrite H in Hl. rewrite Hk, length_drop in Hl.
  assert (Hs : trimStart x = x).
  { rewrite Hk. destruct x as [|c x]; [by rewrite drop_nil|].
    simpl in Hl. assert (k = O) as -> by lia. done. }
  split; [done|]. by rewrite Hs in H.
Qed.

Lemma trimEnd_app_keep (pre x : jsstring) :
  x ≠ [] -> trimEnd x = x -> trimEnd (pre ++ x) = pre ++ x.
Proof.
  intros Hne Hx. induction pre as [|c pre IH]; [done|].
  cbn [app trimEnd]. rewrite IH. destruct (pre ++ x) eqn:E; [|done].
  by apply app_eq_nil in E as [_ ?].
Qed.

Lemma trimStart_app_spaces (ws x : jsstring) :
  Forall (fun c => isSpace c = true /\ c ≠ 10) ws ->
  trimStart (ws ++ x) = trimStart x.
Proof.
  induction 1 as [|c ws [Hc _] _ IH]; [done|].
  cbn [app trimStart]. by rewrite Hc.
Qed.

Lemma splitNewlineRuns_noLineFeed_one (x : jsstring) :
  noLineFeed x -> splitNewlineRuns x = [x].
Proof.
  induction 1 as [|c x Hc Hx IH]; [done|]. cbn [splitNewlineRuns].
  destruct (Z.eqb_spec c 10); [done|]. by rewrite IH.
Qed.

Lemma litCI_word (w p r : jsstring) :
  map foldCase p = map foldCase w -> litCI w (p ++ r) = Some r.
Proof.
  intros H. apply litCI_Some. exists p. split_and!; [done| |done].
  apply (f_equal length) in H. by rewrite !length_map in H.
Qed.

Lemma foldCase_letter_nonspace (c x : Z) :
  foldCase c = x -> 65 <= x <= 90 ->
  isSpace c = false /\ (c =? 45) = false /\ c ≠ 10.
Proof.
  unfold foldCase, isLowerAZ. intros H Hx.
  assert (65 <= c <= 122).
  { destruct (Z.leb_spec 97 c), (Z.leb_spec c 122); simpl in H; lia. }
  unfold isSpace.
  repeat match goal with
         | |- context [?a <=? ?b] => destruct (Z.leb_spec a b); try lia
         | |- context [?a =? ?b] => destruct (Z.eqb_spec a b); try lia
         end; simpl; split_and!; try done; lia.
Qed.

Lemma markerTail_form (p2 ws1 p3 ws2 ws3 rest : jsstring) :
  map foldCase p2 = js "SCREEN" ->
  Forall isBlank ws1 ->
  map foldCase p3 = js "TEXT" ->
  Forall isBlank ws2 ->
  Forall isBlank ws3 ->
  trimStart rest = rest ->
  markerTail (p2 ++ ws1 ++ p3 ++ ws2 ++ [58] ++ ws3 ++ rest) = Some rest.
Proof.
  intros H2 Hw1 H3 Hw2 Hw3 Hrest. unfold markerTail, skipSpace.
  rewrite (litCI_word (js "screen") p2) by done.
  cbn [mbind option_bind].
  rewrite trimStart_app_spaces by done.
  assert (Hp3 : trimStart (p3 ++ ws2 ++ [58] ++ ws3 ++ rest)
                = p3 ++ ws2 ++ [58] ++ ws3 ++ rest).
  { destruct p3 as [|c p3]; [done|]. injection H3 as Hc _.
    destruct (foldCase_letter_nonspace c 84 Hc ltac:(lia)) as (Hs & _ & _).
    cbn [app trimStart]. by rewrite Hs. }
  rewrite Hp3, (litCI_word (js "text") p3) by done.
  cbn [mbind option_bind].
  rewrite trimStart_app_spaces by done.
  cbn [app trimStart]. change (isSpace 58) with false.
  cbn [lit Z.eqb Pos.eqb mbind option_bind].
  by rewrite trimStart_app_spaces, Hrest.
Qed.

Lemma onScreenRest_form (m rest : jsstring) :
  markerForm m -> trimStart rest = rest ->
  onScreenRest (m ++ rest) = Some rest
  /\ trimStart (m ++ rest) = m ++ rest
  /\ noLineFeed m.
Proof.
  intros (p1 & sep & p2 & ws1 & p3 & ws2 & ws3 & -> & H1 & Hsep & H2 & Hw1
          & H3 & Hw2 & Hw3) Hrest.
  assert (Hblank : forall ws, Forall isBlank ws -> noLineFeed ws).
  { intros ws Hws. eapply Forall_impl; [exact Hws|]. by intros c [_ ?]. }
  assert (Hword : forall p w, map foldCase p = js w ->
             Forall (fun x => 65 <= x <= 90) (js w) -> noLineFeed p).
  { intros p w Hp Hw. rewrite <- Hp in Hw. apply Forall_fmap in Hw.
    eapply Forall_impl; [exact Hw|]. intros c Hc. simpl in Hc.
    by destruct (foldCase_letter_nonspace c _ eq_refl Hc) as (_ & _ & ?). }
  assert (Hts : trimStart ((p1 ++ sep ++ p2 ++ ws1 ++ p3 ++ ws2 ++ [58]
                            ++ ws3) ++ rest)
                = (p1 ++ sep ++ p2 ++ ws1 ++ p3 ++ ws2 ++ [58] ++ ws3)
                  ++ rest).
  { destruct p1 as [|c p1]; [done|]. injection H1 as Hc _.
    destruct (foldCase_letter_nonspace c 79 Hc ltac:(lia)) as (Hs & _ & _).
    cbn [app trimStart]. by rewrite Hs. }
  split_and!; [|done|].
  - unfold onScreenRest, skipSpace. rewrite Hts.
    unfold markerRest. rewrite <- !app_assoc.
    rewrite (litCI_word (js "on") p1) by done.
    cbn [mbind option_bind].
    pose proof (markerTail_form p2 ws1 p3 ws2 ws3 rest H2 Hw1 H3 Hw2 Hw3
                  Hrest) as Htail.
    destruct Hsep as [-> | (c & -> & Hc)].
    + cbn [app]. destruct p2 as [|c p2]; [done|].
      injection H2 as Hc H2'.
      destruct (foldCase_letter_nonspace c 83 Hc ltac:(lia))
        as (Hs & Hh & _).
      cbn [app] in *. by rewrite Hs, Hh.
    + cbn [app].
      assert ((c =? 45) || isSpace c = true) as ->.
      { destruct Hc as [-> | [Hc _]]; [done|]. by rewrite Hc, orb_true_r. }
      cbn [app] in Htail. by rewrite Htail.
  - apply Forall_app; split;
      [eapply Hword; [exact H1|by repeat constructor]|].
    apply Forall_app; split.
    { destruct Hsep as [-> | (c & -> & [-> | [_ Hc]])];
        by repeat constructor. }
    apply Forall_app; split;
      [eapply Hword; [exact H2|by repeat constructor]|].
    apply Forall_app; split; [by apply Hblank|].
    apply Forall_app; split;
      [eapply Hword; [exact H3|by repeat constructor]|].
    apply Forall_app; split; [by apply Hblank|].
    apply Forall_app; split; [by repeat constructor|by apply Hblank].
Qed.

(** X26.  The marker is recognised in all its forms.  A one-line block text
    made of the marker ("on", at most one hyphen or blank, "screen",
    "text" and a colon, in any letter case, with blanks allowed before
    "text", before the colon and after it) and of a text that is not
    empty and neither begins nor ends with white space is tagged
    On-screen text, with that text and the start of the block. *)
Theorem tagDescriptiveBlock_marker_forms (t : Z) (m rest : jsstring) :
  markerForm m ->
  rest ≠ [] -> trim rest = rest -> noLineFeed rest ->
  tagDescriptiveBlock (mkBlock t (m ++ rest)) = mkEntry t OnScreenText rest.
Proof.
  intros Hm Hne Htrim Hlf.
  destruct (trim_fixed rest Htrim) as [Hts Hte].
  destruct (onScreenRest_form m rest Hm Hts) as (Hrest & Hstart & Hmlf).
  assert (Hlines : cueLines (m ++ rest) = [m ++ rest]).
  { unfold cueLines, filterBoolean.
    rewrite splitNewlineRuns_noLineFeed_one by (by apply Forall_app).
    cbn [map]. unfold trim. rewrite Hstart.
    rewrite trimEnd_app_keep by done. cbn [List.filter].
    destruct (m ++ rest) eqn:E; [|done].
    by apply app_eq_nil in E as [_ ?]. }
  unfold tagDescriptiveBlock. cbn [blockText blockStartMs].
  rewrite Hlines. cbn [head default from_option id tail].
  rewrite Hrest. cbn [join]. by rewrite Htrim.
Qed.

(** Witness of X26: "On-Screen Text:  WELCOME". *)
Lemma tagDescriptiveBlock_marker_forms_witness :
  markerForm (js "On-Screen Text:  ")
  /\ js "WELCOME" ≠ []
  /\ trim (js "WELCOME") = js "WELCOME"
  /\ tagDescriptiveBlock (mkBlock 1500 (js "On-Screen Text:  WELCOME"))
     = mkEntry 1500 OnScreenText (js "WELCOME").
Proof.
  assert (Hm : markerForm (js "On-Screen Text:  ")).
  { exists (js "On"), [45], (js "Screen"), [32], (js "Text"), [], [32; 32].
    split_and!; try done.
    - right. exists 45. split; [done|by left].
    - by repeat constructor.
    - by repeat constructor. }
  assert (Hne : js "WELCOME" ≠ []) by done.
  assert (Ht : trim (js "WELCOME") = js "WELCOME") by reflexivity.
  assert (Hlf : noLineFeed (js "WELCOME")) by (by repeat constructor).
  exact (conj Hm (conj Hne (conj Ht
           (tagDescriptiveBlock_marker_forms 1500 _ _ Hm Hne Ht Hlf)))).
Defined.


(** ** Well-formed SRT text *)

Lemma digit_nonspace (c : Z) :
  isDigit c = true -> isSpace c = false /\ c ≠ 10 /\ c ≠ 13.
Proof.
  unfold isDigit. intros H. apply andb_true_iff in H as [H1 H2].
  apply Z.leb_le in H1, H2. unfold isSpace.
  repeat match goal with
         | |- context [?a <=? ?b] => destruct (Z.leb_spec a b); try lia
         | |- context [?a =? ?b] => destruct (Z.eqb_spec a b); try lia
         end; simpl; split_and!; try done; lia.
Qed.

Lemma digitsN_group (n : nat) (ds rest : jsstring) :
  digitGroup n ds -> digitsN n (ds ++ rest) = Some (ds, rest).
Proof. intros [Hl Hd]. by apply digitsN_Some. Qed.

Lemma timecode_render (tc : TimeCode) (rest : jsstring) :
  wellFormedTimeCode tc ->
  timecode (renderTimeCode tc ++ rest)
  = Some ((tcHours tc, tcMinutes tc, tcSeconds tc, tcMillis tc), rest).
Proof.
  intros (Hh & Hm & Hs & Hms). unfold timecode, renderTimeCode.
  rewrite <- !app_assoc.
  rewrite (digitsN_group 2 (tcHours tc)) by done.
  cbn [mbind option_bind fst snd app lit]. rewrite Z.eqb_refl.
  cbn [mbind option_bind].
  rewrite (digitsN_group 2 (tcMinutes tc)) by done.
  cbn [mbind option_bind fst snd app lit]. rewrite Z.eqb_refl.
  cbn [mbind option_bind].
  rewrite (digitsN_group 2 (tcSeconds tc)) by done.
  cbn [mbind option_bind fst snd app lit]. rewrite Z.eqb_refl.
  cbn [mbind option_bind].
  rewrite (digitsN_group 3 (tcMillis tc)) by done.
  done.
Qed.

Lemma renderTimeCode_head (tc : TimeCode) (rest : jsstring) :
  wellFormedTimeCode tc ->
  trimStart (renderTimeCode tc ++ rest) = renderTimeCode tc ++ rest.
Proof.
  intros ([Hl Hd] & _). unfold renderTimeCode.
  destruct (tcHours tc) as [|c h]; [done|].
  apply Forall_cons in Hd as [Hc _].
  destruct (digit_nonspace c Hc) as [Hs _].
  cbn [app trimStart]. by rewrite Hs.
Qed.

Lemma execTimecode_line (c : Cue) :
  wellFormedTimeCode (cueStart c) -> wellFormedTimeCode (cueEnd c) ->
  execTimecode (renderTimeCode (cueStart c) ++ js " --> "
                ++ renderTimeCode (cueEnd c))
  = Some (tcHours (cueStart c), tcMinutes (cueStart c),
          tcSeconds (cueStart c), tcMillis (cueStart c)).
Proof.
  intros Hs He.
  assert (Hm : matchTimecodeAt (renderTimeCode (cueStart c) ++ js " --> "
                                ++ renderTimeCode (cueEnd c))
               = Some (tcHours (cueStart c), tcMinutes (cueStart c),
                       tcSeconds (cueStart c), tcMillis (cueStart c))).
  { unfold matchTimecodeAt. rewrite timecode_render by done.
    cbn [mbind option_bind fst snd].
    change (skipSpace (js " --> " ++ renderTimeCode (cueEnd c)))
      with (45 :: 45 :: 62 :: 32 :: renderTimeCode (cueEnd c)).
    cbn [lit Z.eqb Pos.eqb mbind option_bind].
    change (skipSpace (32 :: renderTimeCode (cueEnd c)))
      with (trimStart (renderTimeCode (cueEnd c))).
    rewrite <- (app_nil_r (renderTimeCode (cueEnd c))).
    rewrite renderTimeCode_head, timecode_render by done.
    done. }
  destruct (renderTimeCode (cueStart c) ++ js " --> "
            ++ renderTimeCode (cueEnd c)); cbn [execTimecode];
    by rewrite Hm.
Qed.

Lemma index_line (idx : jsstring) :
  idx ≠ [] -> Forall (fun d => isDigit d = true) idx ->
  isIndexLine (trim idx) = true /\ nonEmpty (trim idx) = true.
Proof.
  intros Hne Hd.
  assert (Hns : Forall (fun c => isSpace c = false) idx).
  { eapply Forall_impl; [exact Hd|]. intros c Hc.
    by destruct (digit_nonspace c Hc). }
  assert (Ht : trim idx = idx).
  { unfold trim. destruct idx as [|c idx]; [done|].
    pose proof Hns as Hns'. apply Forall_cons in Hns' as [Hc _].
    cbn [trimStart]. rewrite Hc.
    rewrite <- (app_nil_r (c :: idx)) at 1.
    rewrite trimEnd_app_nonspace by done. by rewrite app_nil_r. }
  rewrite Ht. unfold isIndexLine. split; [|by destruct idx].
  apply andb_true_iff. split; [by destruct idx|].
  apply forallb_forall. intros c Hc.
  apply list_elem_of_In in Hc. by eapply Forall_forall in Hd.
Qed.

Lemma textRun_text (text rest : list jsstring) :
  Forall textLine text -> textRun (text ++ [] :: rest) = text.
Proof.
  induction 1 as [|l text [_ Hl] _ IH]; [done|].
  cbn [app textRun]. rewrite IH. by destruct (trim l).
Qed.

(** The lines after the last cue, or from a cue on. *)
Lemma blankRun_cues (cues : list Cue) :
  Forall wellFormedCue cues ->
  blankRun (concat (map cueFileLines cues) ++ [[]])
  = match cues with [] => 1%nat | _ => O end.
Proof.
  intros H. destruct H as [|c cues (Hne & Hd & _) _]; [done|].
  cbn [map concat cueFileLines app blankRun].
  destruct (index_line (cueIndex c) Hne Hd) as [_ ->]. done.
Qed.

Lemma parseLoop_cues (cues : list Cue) :
  Forall wellFormedCue cues ->
  forall (pre : list jsstring) (blocks : list Block) (fuel : nat),
    (length (concat (map cueFileLines cues)) + 1 < fuel)%nat ->
    parseLoop fuel (pre ++ concat (map cueFileLines cues) ++ [[]])
      (length pre) blocks
    = Returned (blocks ++ omap cueBlock cues).
Proof.
  induction 1 as [|c cues Hc Hcues IH]; intros pre blocks fuel Hfuel.
  - destruct fuel as [|[|fuel]]; [simpl in Hfuel; lia..|].
    cbn [map concat app omap]. cbn [parseLoop].
    rewrite length_app. cbn [length].
    destruct (Nat.ltb_spec (length pre) (length pre + 1)); [|lia].
    rewrite list_lookup_middle by done.
    change (isIndexLine (trim [])) with false. cbv iota.
    rewrite list_lookup_middle by done. cbn [default from_option id].
    change (execTimecode []) with
      (@None (jsstring * jsstring * jsstring * jsstring)).
    destruct (Nat.ltb_spec (S (length pre)) (length pre + 1)); [lia|].
    by rewrite app_nil_r.
  - destruct Hc as (Hne & Hd & Hs & He & Htext).
    destruct fuel as [|fuel]; [lia|].
    set (rest := concat (map cueFileLines cues) ++ [[]]).
    set (tcl := renderTimeCode (cueStart c) ++ js " --> "
                ++ renderTimeCode (cueEnd c)).
    assert (Hlines : pre ++ concat (map cueFileLines (c :: cues)) ++ [[]]
                     = pre ++ cueIndex c :: tcl :: cueText c ++ [] :: rest).
    { cbn [map concat]. unfold cueFileLines. fold tcl. unfold rest.
      by rewrite <- !app_assoc. }
    rewrite Hlines.
    set (lines := pre ++ cueIndex c :: tcl :: cueText c ++ [] :: rest).
    assert (Hlen : length lines
                   = (length pre + 2 + length (cueText c) + 1
                      + length rest)%nat).
    { unfold lines. rewrite length_app. cbn [length].
      rewrite length_app. cbn [length]. lia. }
    cbn [parseLoop].
    destruct (Nat.ltb_spec (length pre) (length lines)); [|lia].
    assert (H0 : lines !! length pre = Some (cueIndex c))
      by (by apply list_lookup_middle).
    rewrite H0.
    destruct (index_line (cueIndex c) Hne Hd) as [-> _].
    assert (H1 : lines !! S (length pre) = Some tcl).
    { unfold lines. rewrite lookup_app_r by lia.
      by replace (S (length pre) - length pre)%nat with 1%nat by lia. }
    rewrite H1. cbn [default from_option id].
    unfold tcl at 1. rewrite execTimecode_line by done.
    assert (Hdrop : drop (S (S (length pre))) lines
                    = cueText c ++ [] :: rest).
    { unfold lines. rewrite drop_app_ge by lia.
      by replace (S (S (length pre)) - length pre)%nat with 2%nat by lia. }
    rewrite Hdrop, textRun_text by done.
    assert (Hdrop2 : drop (S (S (length pre)) + length (cueText c)) lines
                     = [] :: rest).
    { rewrite <- drop_drop, Hdrop. by rewrite drop_app_length. }
    rewrite Hdrop2. cbn [blankRun trim trimStart trimEnd nonEmpty].
    unfold rest at 1. rewrite blankRun_cues by done.
    assert (Hout :
              blocks ++ omap cueBlock (c :: cues)
              = (if nonEmpty (trim (cleanSrtText (join [10] (cueText c))))
                 then blocks ++
                      [mkBlock (hhmmssToMs (tcHours (cueStart c))
                                  (tcMinutes (cueStart c))
                                  (tcSeconds (cueStart c))
                                  (tcMillis (cueStart c)))
                         (cleanSrtText (join [10] (cueText c)))]
                 else blocks) ++ omap cueBlock cues).
    { cbn [omap list_omap]. unfold cueBlock at 1.
      destruct (nonEmpty _); [by rewrite <- app_assoc|done]. }
    rewrite Hout. clear Hout.
    set (blocks' := if nonEmpty _ then _ else blocks).
    assert (Hflen : length (cueFileLines c)
                    = (2 + length (cueText c) + 1)%nat).
    { unfold cueFileLines. cbn [app length]. rewrite length_app.
      simpl. lia. }
    cbn [map concat] in Hfuel. rewrite length_app, Hflen in Hfuel.
    destruct cues as [|c' cues'].
    + cbn [omap list_omap]. rewrite app_nil_r.
      destruct fuel as [|fuel]; [lia|]. cbn [parseLoop].
      unfold rest in Hlen. cbn [map concat app length] in Hlen.
      destruct (Nat.ltb_spec (S (S (length pre)) + length (cueText c) + 2)
                  (length lines)); [lia|done].
    + replace (S (S (length pre)) + length (cueText c) + 1)%nat
        with (length (pre ++ cueFileLines c))
        by (rewrite length_app, Hflen; lia).
      replace lines
        with ((pre ++ cueFileLines c)
              ++ concat (map cueFileLines (c' :: cues')) ++ [[]]).
      * apply IH. lia.
      * unfold lines, rest, cueFileLines. fold tcl.
        by rewrite <- !app_assoc.
Qed.

Lemma no_CR_noMatch (s : jsstring) :
  Forall (fun c => c ≠ 13) s ->
  noMatch matchCRLF s /\ noMatch matchCR s.
Proof.
  induction 1 as [|c s Hc Hs [IH1 IH2]]; [done|].
  split; (split; [|done]).
  - unfold matchCRLF. destruct s; [done|].
    destruct (Z.eqb_spec c 13); done.
  - unfold matchCR. destruct (Z.eqb_spec c 13); done.
Qed.

Lemma normalizeLineEndings_no_CR (s : jsstring) :
  Forall (fun c => c ≠ 13) s -> normalizeLineEndings s = s.
Proof.
  intros H. destruct (no_CR_noMatch s H) as [H1 H2].
  unfold normalizeLineEndings.
  by rewrite (replaceAll_noMatch matchCRLF), (replaceAll_noMatch matchCR).
Qed.

Lemma splitNewline_join (ls : list jsstring) :
  ls ≠ [] -> Forall noLineFeed ls -> splitNewline (join [10] ls) = ls.
Proof.
  intros Hne H. induction H as [|l ls Hl Hls IH]; [done|].
  destruct ls as [|l' ls].
  - simpl. by apply splitNewline_noLineFeed.
  - change (join [10] (l :: l' :: ls)) with (l ++ 10 :: join [10] (l' :: ls)).
    rewrite splitNewline_app by done. by rewrite IH.
Qed.

Lemma join_Forall (P : Z -> Prop) (sep : jsstring) (ls : list jsstring) :
  Forall P sep -> Forall (Forall P) ls -> Forall P (join sep ls).
Proof.
  intros Hsep. induction 1 as [|l ls Hl Hls IH]; [constructor|].
  cbn [join]. destruct ls; [done|].
  apply Forall_app. split; [done|]. apply Forall_app. by split.
Qed.

Lemma renderTimeCode_plain (tc : TimeCode) :
  wellFormedTimeCode tc ->
  Forall (fun c => c ≠ 10 /\ c ≠ 13) (renderTimeCode tc).
Proof.
  intros ([_ H1] & [_ H2] & [_ H3] & [_ H4]).
  assert (Hd : forall ds, Forall (fun c => isDigit c = true) ds ->
                 Forall (fun c => c ≠ 10 /\ c ≠ 13) ds).
  { intros ds H. eapply Forall_impl; [exact H|]. intros c Hc.
    by destruct (digit_nonspace c Hc) as (_ & ? & ?). }
  unfold renderTimeCode.
  repeat (apply Forall_app; split); auto; by repeat constructor.
Qed.

Lemma cueFileLines_plain (cues : list Cue) :
  Forall wellFormedCue cues ->
  Forall (Forall (fun c => c ≠ 10 /\ c ≠ 13))
    (concat (map cueFileLines cues) ++ [[]]).
Proof.
  intros H. apply Forall_app. split; [|by repeat constructor].
  apply Forall_concat, Forall_fmap.
  eapply Forall_impl; [exact H|].
  intros c (Hne & Hd & Hs & He & Htext). simpl. unfold cueFileLines.
  constructor.
  { eapply Forall_impl; [exact Hd|]. intros d Hdig.
    by destruct (digit_nonspace d Hdig) as (_ & ? & ?). }
  constructor.
  { apply Forall_app. split; [by apply renderTimeCode_plain|].
    apply Forall_app. split; [by repeat constructor|].
    by apply renderTimeCode_plain. }
  apply Forall_app. split; [|by repeat constructor].
  eapply Forall_impl; [exact Htext|]. by intros l [? _].
Qed.

(** X27.  A well-formed SRT text parses to its cues.  For cues written
    one after the other, each as an index line of digits, a line with two
    time codes of the form HH:MM:SS,mmm around an arrow, text lines that
    are not blank and an empty line, the parser returns, cue by cue and
    in order, a block with the start computed from the four digit groups
    of the first time code and with the normalised text of the cue's
    lines; a cue whose text is empty after normalisation gives no
    block. *)
Theorem parseSrtToBlocks_well_formed (cues : list Cue) :
  Forall wellFormedCue cues ->
  parseSrtToBlocks (renderSrt cues) = Returned (omap cueBlock cues).
Proof.
  intros H.
  pose proof (cueFileLines_plain cues H) as Hplain.
  assert (Hlines : srtLines (renderSrt cues)
                   = concat (map cueFileLines cues) ++ [[]]).
  { unfold srtLines, renderSrt.
    rewrite normalizeLineEndings_no_CR.
    - apply splitNewline_join.
      + by destruct (concat (map cueFileLines cues)).
      + eapply Forall_impl; [exact Hplain|]. intros l Hl.
        eapply Forall_impl; [exact Hl|]. by intros c [? _].
    - apply join_Forall; [by repeat constructor|].
      eapply Forall_impl; [exact Hplain|]. intros l Hl.
      eapply Forall_impl; [exact Hl|]. by intros c [_ ?]. }
  unfold parseSrtToBlocks. rewrite Hlines.
  apply (parseLoop_cues cues H [] []).
  rewrite length_app. simpl. lia.
Qed.

(** Witness of X27: two cues, the second of two lines with markup. *)
Lemma parseSrtToBlocks_well_formed_witness :
  let tc := fun h m s ms => mkTimeCode (js h) (js m) (js s) (js ms) in
  let cues :=
    [mkCue (js "1") (tc "00" "00" "01" "000") (tc "00" "00" "02" "000")
       [js "Hi there"];
     mkCue (js "2") (tc "00" "01" "02" "500") (tc "00" "01" "04" "000")
       [js "<i>Second</i>"; js "line"]] in
  Forall wellFormedCue cues
  /\ parseSrtToBlocks (renderSrt cues)
     = Returned [mkBlock 1000 (js "Hi there");
                 mkBlock 62500 (js "Second" ++ [10] ++ js "line")].
Proof.
  intros tc cues.
  assert (H : Forall wellFormedCue cues).
  { repeat constructor; try done;
      by (intros c Hc; repeat (apply elem_of_cons in Hc as [->|Hc]; [done|]);
          by apply elem_of_nil in Hc). }
  exact (conj H (parseSrtToBlocks_well_formed cues H)).
Defined.



(** ** Line ends *)

Lemma replaceAll_CRLF_line (x r : jsstring) :
  Forall (fun c => c ≠ 10 /\ c ≠ 13) x ->
  replaceAll matchCRLF [10] (x ++ 13 :: 10 :: r)
  = x ++ 10 :: replaceAll matchCRLF [10] r.
Proof.
  induction 1 as [|c x [_ Hc] _ IH].
  - cbn [app]. rewrite replaceAll_cons. done.
  - cbn [app]. rewrite replaceAll_cons, IH.
    assert (matchCRLF (c :: x ++ 13 :: 10 :: r) = None) as ->; [|done].
    unfold matchCRLF. destruct (x ++ 13 :: 10 :: r); [done|].
    by destruct (Z.eqb_spec c 13).
Qed.

Lemma replaceAll_CR_line (x r : jsstring) :
  Forall (fun c => c ≠ 10 /\ c ≠ 13) x ->
  replaceAll matchCR [10] (x ++ 13 :: r)
  = x ++ 10 :: replaceAll matchCR [10] r.
Proof.
  induction 1 as [|c x [_ Hc] _ IH].
  - cbn [app]. rewrite replaceAll_cons. done.
  - cbn [app]. rewrite replaceAll_cons, IH.
    assert (matchCR (c :: x ++ 13 :: r) = None) as ->; [|done].
    unfold matchCR. by destruct (Z.eqb_spec c 13).
Qed.

Lemma no_LF_noMatch_CRLF (s : jsstring) :
  Forall (fun c => c ≠ 10) s -> noMatch matchCRLF s.
Proof.
  induction 1 as [|c s Hc Hs IH]; [done|]. split; [|done].
  unfold matchCRLF. destruct Hs as [|d s Hd _]; [done|].
  destruct (Z.eqb_spec d 10); [done|]. by rewrite andb_false_r.
Qed.

Lemma replaceAll_CRLF_lines (ls : list jsstring) :
  Forall (Forall (fun c => c ≠ 10 /\ c ≠ 13)) ls ->
  replaceAll matchCRLF [10] (join [13; 10] ls) = join [10] ls.
Proof.
  induction 1 as [|l ls Hl Hls IH]; [done|].
  destruct ls as [|l' ls].
  - cbn [join]. apply replaceAll_noMatch, no_CR_noMatch.
    eapply Forall_impl; [exact Hl|]. by intros c [_ ?].
  - change (join [13; 10] (l :: l' :: ls))
      with (l ++ 13 :: 10 :: join [13; 10] (l' :: ls)).
    rewrite replaceAll_CRLF_line, IH by done. done.
Qed.

Lemma replaceAll_CR_lines (ls : list jsstring) :
  Forall (Forall (fun c => c ≠ 10 /\ c ≠ 13)) ls ->
  replaceAll matchCR [10] (join [13] ls) = join [10] ls.
Proof.
  induction 1 as [|l ls Hl Hls IH]; [done|].
  destruct ls as [|l' ls].
  - cbn [join]. apply replaceAll_noMatch, no_CR_noMatch.
    eapply Forall_impl; [exact Hl|]. by intros c [_ ?].
  - change (join [13] (l :: l' :: ls))
      with (l ++ 13 :: join [13] (l' :: ls)).
    rewrite replaceAll_CR_line, IH by done. done.
Qed.

(** X28.  The three kinds of line end parse alike: lines joined by carriage
    return and line feed, by carriage return alone or by line feed alone
    give the same lines, hence the same blocks. *)
Theorem parseSrtToBlocks_line_ends (ls : list jsstring) :
  Forall (Forall (fun c => c ≠ 10 /\ c ≠ 13)) ls ->
  srtLines (join [13; 10] ls) = srtLines (join [10] ls)
  /\ srtLines (join [13] ls) = srtLines (join [10] ls)
  /\ parseSrtToBlocks (join [13; 10] ls) = parseSrtToBlocks (join [10] ls)
  /\ parseSrtToBlocks (join [13] ls) = parseSrtToBlocks (join [10] ls).
Proof.
  intros H.
  assert (Hlf : Forall (fun c => c ≠ 13) (join [10] ls)).
  { apply join_Forall; [by repeat constructor|].
    eapply Forall_impl; [exact H|]. intros l Hl.
    eapply Forall_impl; [exact Hl|]. by intros c [_ ?]. }
  assert (Hnolf : Forall (fun c => c ≠ 10) (join [13] ls)).
  { apply join_Forall; [by repeat constructor|].
    eapply Forall_impl; [exact H|]. intros l Hl.
    eapply Forall_impl; [exact Hl|]. by intros c [? _]. }
  assert (H1 : normalizeLineEndings (join [13; 10] ls)
               = normalizeLineEndings (join [10] ls)).
  { rewrite (normalizeLineEndings_no_CR (join [10] ls)) by done.
    unfold normalizeLineEndings. rewrite replaceAll_CRLF_lines by done.
    by apply replaceAll_noMatch, no_CR_noMatch. }
  assert (H2 : normalizeLineEndings (join [13] ls)
               = normalizeLineEndings (join [10] ls)).
  { rewrite (normalizeLineEndings_no_CR (join [10] ls)) by done.
    unfold normalizeLineEndings.
    rewrite (replaceAll_noMatch matchCRLF)
      by (by apply no_LF_noMatch_CRLF).
    by apply replaceAll_CR_lines. }
  unfold parseSrtToBlocks, srtLines. by rewrite H1, H2.
Qed.

(** Witness of X28: the end-to-end spoken cue. *)
Lemma parseSrtToBlocks_line_ends_witness :
  let ls := [js "1"; js "00:00:01,000 --> 00:00:02,000"; js "Hi there";
             []] in
  Forall (Forall (fun c => c ≠ 10 /\ c ≠ 13)) ls
  /\ parseSrtToBlocks (join [13; 10] ls) = parseSrtToBlocks (join [10] ls).
Proof.
  intros ls.
  assert (H : Forall (Forall (fun c => c ≠ 10 /\ c ≠ 13)) ls)
    by (by repeat constructor).
  exact (conj H (proj1 (proj2 (proj2 (parseSrtToBlocks_line_ends ls H))))).
Defined.
